(** * Registry client of unpkg: version resolution, package metadata and
      their cache ([modules/utils/npm.js])

    The file follows the source top to bottom.  JavaScript strings are byte
    strings (their UTF-8 text), times and sizes are naturals, the numbers of a
    JSON document are binary64 floats,
    JavaScript objects are association lists in property order, and every
    [async] function is a function on an explicit world (the cache and the
    clock) that either returns or throws.  What the source imports
    ([url], [https], [lru-cache], [semver], the built-in [JSON]) is not
    part of the repository; each import is modelled next to its first use
    and the comment there says from what.  The calls of [debug] only log
    and are left out. *)

From Stdlib Require Import String Ascii List Bool Arith NArith ZArith Lia.
From Stdlib Require Import Sorting.Sorted Sorting.Permutation.
From Stdlib Require Import DecimalString DecimalN DecimalZ DecimalFacts.
From Stdlib Require Import Floats.SpecFloat.
Import ListNotations.

Local Open Scope list_scope.
Local Open Scope string_scope.

Set Implicit Arguments.
Set Warnings "-register-all".

(** ** Strings and arrays as JavaScript has them *)

Module Js.

(** [s.startsWith(p)] *)
Fixpoint startsWith (s p : string) {struct p} : bool :=
  match p with
  | EmptyString => true
  | String a p' =>
      match s with
      | String b s' => Ascii.eqb a b && startsWith s' p'
      | EmptyString => false
      end
  end.

(** [s.substring(1)] *)
Definition substring1 (s : string) : string :=
  match s with
  | EmptyString => EmptyString
  | String _ rest => rest
  end.

(** [s.split(c)] for a one-character separator: the pieces between the
    separators, always at least one piece. *)
Fixpoint split (c : ascii) (s : string) : list string :=
  match s with
  | EmptyString => [EmptyString]
  | String a rest =>
      if Ascii.eqb a c then EmptyString :: split c rest
      else match split c rest with
           | [] => [String a EmptyString]
           | piece :: pieces => String a piece :: pieces
           end
  end.

(** [a[i]] inside a template literal: an index past the end is
    [undefined], which a template prints as the word. *)
Definition index_in_template (a : list string) (i : nat) : string :=
  match nth_error a i with
  | Some s => s
  | None => "undefined"
  end.

(** [a.includes(x)] on an array of strings, for a string [x]. *)
Definition includes (a : list string) (x : string) : bool :=
  existsb (String.eqb x) a.

(** Every character of [s] passes the test [p]. *)
Fixpoint allChars (p : ascii -> bool) (s : string) : bool :=
  match s with
  | EmptyString => true
  | String c rest => p c && allChars p rest
  end.

(** [s.endsWith(suffix)], as a proposition. *)
Definition endsWith (s suffix : string) : Prop :=
  exists front, s = front ++ suffix.

(** [Buffer.byteLength(s)] *)
Definition byteLength (s : string) : N := N.of_nat (String.length s).

(** A number inside a template literal, for the naturals. *)
Definition showN (n : N) : string := NilZero.string_of_uint (N.to_uint n).

(** The own property names of [Object.prototype]: every object made by
    [JSON.parse] or by an object literal inherits them, so the [in]
    operator answers [true] for them and an indexing by one of them gives
    the inherited built-in, not [undefined]. *)
Definition objectPrototypeNames : list string :=
  [ "constructor"; "__defineGetter__"; "__defineSetter__"; "hasOwnProperty";
    "__lookupGetter__"; "__lookupSetter__"; "isPrototypeOf";
    "propertyIsEnumerable"; "toString"; "valueOf"; "__proto__";
    "toLocaleString" ].

Definition inherited (name : string) : bool :=
  existsb (String.eqb name) objectPrototypeNames.

(** Objects: own properties in property order.  [own] is the lookup among
    them, [keys] is [Object.keys], [set] is the assignment [o[k] = v] on
    an object whose key is not an accessor of the prototype. *)
Section Objects.
Variable V : Type.

Definition object := list (string * V).

Fixpoint own (k : string) (o : object) : option V :=
  match o with
  | [] => None
  | (k', v) :: rest => if String.eqb k k' then Some v else own k rest
  end.

Definition keys (o : object) : list string := map fst o.

Fixpoint set (k : string) (v : V) (o : object) : object :=
  match o with
  | [] => [(k, v)]
  | (k', v') :: rest =>
      if String.eqb k k' then (k, v) :: rest else (k', v') :: set k v rest
  end.

(** [k in o] *)
Definition has (k : string) (o : object) : bool :=
  match own k o with
  | Some _ => true
  | None => inherited k
  end.

(** What [o[k]] evaluates to. *)
Inductive property : Type :=
| Own (v : V)
| Inherited (name : string)
| Undefined.

Definition get (k : string) (o : object) : property :=
  match own k o with
  | Some v => Own v
  | None => if inherited k then Inherited k else Undefined
  end.
End Objects.

End Js.

(** ** Percent-encoding and URLs

    [encodeURIComponent] is the built-in: a byte of the UTF-8 text is kept
    when it is an unreserved mark and is written [%XX] (upper-case
    hexadecimal) otherwise. *)

Module Uri.

Definition code (c : ascii) : N := N_of_ascii c.

Definition between (lo hi : N) (c : ascii) : bool :=
  (lo <=? code c)%N && (code c <=? hi)%N.

Definition isDigit (c : ascii) : bool := between 48 57 c.
Definition isUpper (c : ascii) : bool := between 65 90 c.
Definition isLower (c : ascii) : bool := between 97 122 c.
Definition isAlnum (c : ascii) : bool := isDigit c || isUpper c || isLower c.

Definition oneOf (set : string) (c : ascii) : bool :=
  existsb (Ascii.eqb c) (list_ascii_of_string set).

(** The marks [encodeURIComponent] leaves alone. *)
Definition unreserved (c : ascii) : bool := isAlnum c || oneOf "-_.!~*'()" c.

Definition hexDigit (n : N) : ascii :=
  if (n <? 10)%N then ascii_of_N (48 + n) else ascii_of_N (55 + n).

Definition percent (c : ascii) : string :=
  String "%" (String (hexDigit (code c / 16)) (String (hexDigit (code c mod 16)) EmptyString)).

Fixpoint encodeURIComponent (s : string) : string :=
  match s with
  | EmptyString => EmptyString
  | String c rest =>
      (if unreserved c then String c EmptyString else percent c)
        ++ encodeURIComponent rest
  end.

(** [url.parse(u)] of Node, for the two fields the source reads and for
    the URLs it builds ([https://host/path]).  The host name ends at the
    first [/], [?] or [#]; the path name runs from there to the first [?]
    or [#], with a backslash read as a slash and with the characters Node
    never leaves in a URL written [%XX]. *)
Record Url : Type := { hostname : string; pathname : string }.

Definition autoEscape (c : ascii) : bool :=
  oneOf "{}|\^`<>' " c || (code c =? 34)%N
  || (code c =? 9)%N || (code c =? 10)%N || (code c =? 13)%N.

Definition pathEnd (c : ascii) : bool := oneOf "?#" c.
Definition hostEnd (c : ascii) : bool := oneOf "/?#" c.

Fixpoint takeUntil (stop : ascii -> bool) (s : string) : string :=
  match s with
  | EmptyString => EmptyString
  | String c rest => if stop c then EmptyString else String c (takeUntil stop rest)
  end.

Fixpoint dropUntil (stop : ascii -> bool) (s : string) : string :=
  match s with
  | EmptyString => EmptyString
  | String c rest => if stop c then s else dropUntil stop rest
  end.

Fixpoint autoEscapeStr (s : string) : string :=
  match s with
  | EmptyString => EmptyString
  | String c rest =>
      (if autoEscape c then percent c else String c EmptyString)
        ++ autoEscapeStr rest
  end.

Fixpoint slashes (s : string) : string :=
  match s with
  | EmptyString => EmptyString
  | String c rest => String (if Ascii.eqb c "\" then "/"%char else c) (slashes rest)
  end.

Fixpoint dropPrefix (p s : string) : option string :=
  match p, s with
  | EmptyString, _ => Some s
  | String a p', String b s' => if Ascii.eqb a b then dropPrefix p' s' else None
  | String _ _, EmptyString => None
  end.

Definition afterScheme (u : string) : string :=
  match dropPrefix "https://" u with
  | Some rest => rest
  | None => match dropPrefix "http://" u with
            | Some rest => rest
            | None => u
            end
  end.

Definition parse (u : string) : Url :=
  let rest := slashes (takeUntil (Ascii.eqb "?") (afterScheme u))
              ++ dropUntil (Ascii.eqb "?") (afterScheme u) in
  let path := autoEscapeStr (takeUntil pathEnd (dropUntil hostEnd rest)) in
  {| hostname := takeUntil hostEnd rest;
     pathname := if String.eqb path EmptyString then "/" else path |}.

(** Characters the URL parser hands through as they are, and the texts
    made of them; a segment is such a text without a slash. *)
Definition plain (c : ascii) : bool := negb (pathEnd c || autoEscape c).

Definition plainText (s : string) : Prop := Js.allChars plain s = true.

Definition segment (s : string) : Prop :=
  Js.allChars (fun c => plain c && negb (Ascii.eqb c "/")) s = true.

(** What [encodePackageName] writes: unreserved marks, the percent sign
    of an escape, and the scope marker. *)
Definition written (c : ascii) : bool := unreserved c || oneOf "%@" c.

(** Percent-encoding, in the words of the design: every byte of the text
    is either kept or written [%XX]. *)
Fixpoint percentEncoded (keep : ascii -> bool) (s : string) : string :=
  match s with
  | EmptyString => EmptyString
  | String c rest =>
      (if keep c then String c EmptyString else percent c)
        ++ percentEncoded keep rest
  end.

(** The bytes the path of a metadata request keeps: letters, digits and
    the marks [-_.!~*()]. *)
Definition pathSafe (c : ascii) : bool := isAlnum c || oneOf "-_.!~*()" c.

End Uri.

(** ** The requests the module sends *)

(** [process.env.NPM_REGISTRY_URL || 'https://registry.npmjs.org']: the
    configured override is outside this development, the default is used. *)
Definition npmRegistryURL : string := "https://registry.npmjs.org".

Definition oneMegabyte : N := 1024 * 1024.
Definition oneSecond : N := 1000.
Definition oneMinute : N := oneSecond * 60.

(** The [options] handed to [https.get]: the agent is the same object in
    both requests and carries no data; [accept] is the [Accept] header when
    there is one. *)
Record Request : Type :=
  { req_hostname : string; req_path : string; req_accept : option string }.

Definition isScopedPackageName (packageName : string) : bool :=
  Js.startsWith packageName "@".

Definition encodePackageName (packageName : string) : string :=
  if isScopedPackageName packageName
  then "@" ++ Uri.encodeURIComponent (Js.substring1 packageName)
  else Uri.encodeURIComponent packageName.

(** [infoURL] and [options] of [fetchPackageInfo]. *)
Definition infoURL (packageName : string) : string :=
  npmRegistryURL ++ "/" ++ encodePackageName packageName.

Definition infoRequest (packageName : string) : Request :=
  let u := Uri.parse (infoURL packageName) in
  {| req_hostname := Uri.hostname u;
     req_path := Uri.pathname u;
     req_accept := Some "application/json" |}.

(** [tarballName], [tarballURL] and [options] of [getPackage]. *)
Definition tarballName (packageName : string) : string :=
  if isScopedPackageName packageName
  then Js.index_in_template (Js.split "/" packageName) 1
  else packageName.

Definition tarballURL (packageName version : string) : string :=
  npmRegistryURL ++ "/" ++ packageName ++ "/-/"
    ++ tarballName packageName ++ "-" ++ version ++ ".tgz".

Definition tarballRequest (packageName version : string) : Request :=
  let u := Uri.parse (tarballURL packageName version) in
  {| req_hostname := Uri.hostname u;
     req_path := Uri.pathname u;
     req_accept := None |}.

(** ** The cache

    Modelled from the spec: [lru-cache] is an import, and the store here is
    the one the design describes: entries carry their byte length, the time
    they were written at and their own time to live; an entry whose time to
    live has elapsed is treated as absent; a lookup that finds a live entry
    makes it the most recently used; an insertion evicts least recently
    used entries until the byte budget holds.  A value larger than the
    whole budget cannot be held: as in the library, it is not stored and
    an older value under its key is dropped.  The list is in order of use,
    most recent first. *)

Module Lru.

Record entry : Type :=
  { e_key : string; e_value : string; e_length : N; e_now : N; e_maxAge : N }.

Definition t : Type := list entry.

(** The options of [new LRUCache(...)] in the source. *)
Definition max : N := oneMegabyte * 40.
Definition length (value : string) : N := Js.byteLength value.
Definition maxAge : N := oneSecond.

Definition empty : t := [].

Definition isStale (now : N) (e : entry) : bool :=
  (e_maxAge e <? now - e_now e)%N.

Fixpoint find (key : string) (c : t) : option entry :=
  match c with
  | [] => None
  | e :: rest => if String.eqb key (e_key e) then Some e else find key rest
  end.

Definition remove (key : string) (c : t) : t :=
  filter (fun e => negb (String.eqb key (e_key e))) c.

Definition total (c : t) : N :=
  fold_right (fun e n => (e_length e + n)%N) 0%N c.

(** Eviction walks from the least recently used end. *)
Fixpoint evict (oldestFirst : list entry) (size : N) : list entry :=
  match oldestFirst with
  | [] => []
  | e :: rest =>
      if (max <? size)%N then evict rest (size - e_length e)%N else oldestFirst
  end.

Definition trim (c : t) : t := rev (evict (rev c) (total c)).

(** [cache.get(key)]: [None] is [undefined]. *)
Definition get (key : string) (now : N) (c : t) : option string * t :=
  match find key c with
  | Some e =>
      if isStale now e then (None, c)
      else (Some (e_value e), e :: remove key c)
  | None => (None, c)
  end.

(** The entry a write makes. *)
Definition written (key value : string) (ttl now : N) : entry :=
  {| e_key := key; e_value := value; e_length := length value;
     e_now := now; e_maxAge := ttl |}.

(** [cache.set(key, value, maxAge)]; a [maxAge] of zero means the
    default of the cache. *)
Definition set (key value : string) (ttl : N) (now : N) (c : t) : t :=
  let ttl := if (ttl =? 0)%N then maxAge else ttl in
  if (max <? length value)%N then remove key c
  else trim (written key value ttl now :: remove key c).

End Lru.

(** ** The world of an [async] function

    The state the module owns is the cache; the clock is what
    [Date.now()] reads.  The registry is the environment: what it answers to
    a request sent at a given time, and how long the answer takes. *)

Inductive Transport : Type :=
| NetworkError (message : string)
| Response (statusCode : N) (body : string).

Record Reply : Type := { latency : N; transport : Transport }.

Definition Registry : Type := Request -> N -> Reply.

Record World : Type := { cache : Lru.t; clock : N }.

(** The world some time later, nothing else having happened. *)
Definition later (dt : N) (w : World) : World :=
  {| cache := cache w; clock := (clock w + dt)%N |}.

Inductive Exception : Type :=
| TransportError (message : string)
| Error (message : string)
| SyntaxError
| TypeError.

Inductive Outcome (A : Type) : Type :=
| Returned (a : A)
| Thrown (e : Exception).

Arguments Returned {A} a.
Arguments Thrown {A} e.

Definition Async (A : Type) : Type := World -> Outcome A * World.

Definition ret {A} (a : A) : Async A := fun w => (Returned a, w).

Definition throw {A} (e : Exception) : Async A := fun w => (Thrown e, w).

Definition bind {A B} (m : Async A) (k : A -> Async B) : Async B :=
  fun w =>
    match m w with
    | (Returned a, w') => k a w'
    | (Thrown e, w') => (Thrown e, w')
    end.

Declare Scope async_scope.
Delimit Scope async_scope with async.
Notation "'await' x <- m ; k" := (bind m (fun x => k))
  (at level 10, x name, m at level 100, k at level 200)
  : async_scope.
Local Open Scope async_scope.

(** [cache.get] and [cache.set] at the current time. *)
Definition cache_get (key : string) : Async (option string) :=
  fun w =>
    let (found, c) := Lru.get key (clock w) (cache w) in
    (Returned found, {| cache := c; clock := clock w |}).

Definition cache_set (key value : string) (ttl : N) : Async unit :=
  fun w =>
    (Returned tt,
     {| cache := Lru.set key value ttl (clock w) (cache w); clock := clock w |}).

(** [get(options)] followed by [bufferStream] on the response: the promise
    is rejected on the [error] event and otherwise gives the status and the
    whole body; time passes while the answer travels. *)
Definition get (registry : Registry) (options : Request)
  : Async (N * string) :=
  fun w =>
    let reply := registry options (clock w) in
    let w' := {| cache := cache w; clock := (clock w + latency reply)%N |} in
    match transport reply with
    | NetworkError message => (Thrown (TransportError message), w')
    | Response statusCode body => (Returned (statusCode, body), w')
    end.

(** ** Numbers

    A JavaScript number is a binary64 float; [spec_float] is the Standard
    Library's specification of them, with precision 53 and exponent bound
    1024.  A numeric literal denotes the float nearest to its decimal
    value, ties to even, which is infinite when the value is beyond the
    range and zero when it is too small; [Number::toString] writes the
    shortest decimal that reads back as the float, in the layout the
    language fixes. *)

Module Double.

Definition t : Type := spec_float.
Definition prec : Z := 53.
Definition emax : Z := 1024.

Definition pow10 (k : Z) : Z := (10 ^ k)%Z.

(** The float nearest to [m * 10^e]. *)
Definition ofDecimal (negative : bool) (m : N) (e : Z) : t :=
  match m with
  | N0 => S754_zero negative
  | Npos p =>
      match e with
      | Zneg k =>
          SFdiv prec emax (S754_finite negative p 0)
                (S754_finite false (Pos.pow 10 k) 0)
      | _ => binary_round prec emax negative (p * Z.to_pos (pow10 e)) 0
      end
  end.

(** The same float: the same sign, mantissa and exponent. *)
Definition eqb (x y : t) : bool :=
  match x, y with
  | S754_zero a, S754_zero b => Bool.eqb a b
  | S754_infinity a, S754_infinity b => Bool.eqb a b
  | S754_nan, S754_nan => true
  | S754_finite a m e, S754_finite b n f => Bool.eqb a b && Pos.eqb m n && Z.eqb e f
  | _, _ => false
  end.

Definition isFinite (x : t) : bool :=
  match x with
  | S754_zero _ | S754_finite _ _ _ => true
  | _ => false
  end.

(** [m * 2^e] as a fraction. *)
Definition fraction (m : positive) (e : Z) : Z * Z :=
  match e with
  | Zneg k => (Zpos m, Zpos (Pos.pow 2 k))
  | _ => (Zpos m * 2 ^ e, 1)%Z
  end.

(** A fraction times [10^p]. *)
Definition scale (q : Z * Z) (p : Z) : Z * Z :=
  let (num, den) := q in
  match p with
  | Zneg k => (num, den * Zpos (Pos.pow 10 k))%Z
  | _ => (num * pow10 p, den)%Z
  end.

Definition decimalLength (z : Z) : Z :=
  Z.of_nat (String.length (Js.showN (Z.to_N z))).

(** The [n] with [10^(n-1) <= q < 10^n]. *)
Definition magnitude (q : Z * Z) : Z :=
  let (num, den) := q in
  let n := (decimalLength num - decimalLength den)%Z in
  let (p, r) := scale q (- n) in
  if (p <? r)%Z then n else (n + 1)%Z.

(** Of the two decimals of [k] digits next to [x], one that reads back as
    [x]; the nearer to [x] if both do. *)
Definition candidate (x : t) (q : Z * Z) (n : Z) (k : Z) : option Z :=
  let (p, r) := scale q (k - n) in
  let lo := (p / r)%Z in
  let hi := (lo + 1)%Z in
  let reads s := eqb (ofDecimal false (Z.to_N s) (n - k)) x in
  let nearerLo := (2 * (p - lo * r) <? r)%Z
                  || ((2 * (p - lo * r) =? r)%Z && Z.even lo) in
  match reads lo, reads hi with
  | true, true => Some (if nearerLo then lo else hi)
  | true, false => Some lo
  | false, true => Some hi
  | false, false => None
  end.

(** The fewest digits that read back as [x]: one to sixteen digits are
    tried in turn, and seventeen always do. *)
Fixpoint shortest (x : t) (q : Z * Z) (n : Z) (k : Z) (fuel : nat) : Z * Z :=
  match fuel with
  | O =>
      let (p, r) := scale q (k - n) in
      (((2 * p + r) / (2 * r))%Z, k)
  | S fuel' =>
      match candidate x q n k with
      | Some s => (s, k)
      | None => shortest x q n (k + 1) fuel'
      end
  end.

Fixpoint dropZeros (reversed : list ascii) : list ascii :=
  match reversed with
  | c :: rest => if Ascii.eqb c "0" then dropZeros rest else reversed
  | [] => []
  end.

Definition stripZeros (s : string) : string :=
  string_of_list_ascii (List.rev (dropZeros (List.rev (list_ascii_of_string s)))).

Fixpoint zeros (n : nat) : string :=
  match n with
  | O => EmptyString
  | S n' => String "0" (zeros n')
  end.

Fixpoint take (n : nat) (s : string) : string :=
  match n, s with
  | S n', String c rest => String c (take n' rest)
  | _, _ => EmptyString
  end.

Fixpoint drop (n : nat) (s : string) : string :=
  match n, s with
  | S n', String _ rest => drop n' rest
  | _, _ => s
  end.

(** The digits [ds] of a number whose decimal point stands after the
    first [n] of them, laid out as [Number::toString] does. *)
Definition layout (ds : string) (n : Z) : string :=
  let k := Z.of_nat (String.length ds) in
  if (k <=? n)%Z && (n <=? 21)%Z then ds ++ zeros (Z.to_nat (n - k))
  else if (0 <? n)%Z && (n <=? 21)%Z then
    take (Z.to_nat n) ds ++ "." ++ drop (Z.to_nat n) ds
  else if (-6 <? n)%Z && (n <=? 0)%Z then "0." ++ zeros (Z.to_nat (- n)) ++ ds
  else
    let e := (n - 1)%Z in
    let mantissa := if (k =? 1)%Z then ds else take 1 ds ++ "." ++ drop 1 ds in
    mantissa ++ "e" ++ (if (0 <=? e)%Z then "+" else "-") ++ Js.showN (Z.abs_N e).

Definition showPositive (m : positive) (e : Z) : string :=
  let x := S754_finite false m e in
  let q := fraction m e in
  let n := magnitude q in
  let (s, k) := shortest x q n 1 16 in
  let ds := Js.showN (Z.to_N s) in
  layout (stripZeros ds) (n + (Z.of_nat (String.length ds) - k)).

(** [Number::toString(x)] *)
Definition toString (x : t) : string :=
  match x with
  | S754_nan => "NaN"
  | S754_infinity s => if s then "-Infinity" else "Infinity"
  | S754_zero _ => "0"
  | S754_finite s m e => (if s then "-" else EmptyString) ++ showPositive m e
  end.

End Double.

(** ** JSON

    The values [JSON.parse] produces and [JSON.stringify] consumes.  An
    object is its own properties in property order, each key once. *)

Inductive json : Type :=
| JNull
| JBool (b : bool)
| JNum (x : Double.t)
| JStr (s : string)
| JArr (items : list json)
| JObj (fields : list (string * json)).

Module Json.

Definition dquote : ascii := "034"%char.
Definition backslash : ascii := "\"%char.

(** A number that is not finite is written [null]. *)
Definition showNumber (x : Double.t) : string :=
  if Double.isFinite x then Double.toString x else "null".

Definition lowerHex (n : N) : ascii :=
  if (n <? 10)%N then ascii_of_N (48 + n) else ascii_of_N (87 + n).

(** [QuoteJSONString], one character at a time.  The bytes of a
    surrogate that stands alone are written as they are (newer engines
    write an escape for it); the text reads back the same either way. *)
Definition quoteChar (c : ascii) : string :=
  let n := Uri.code c in
  if Ascii.eqb c dquote then String backslash (String dquote EmptyString)
  else if Ascii.eqb c backslash then String backslash (String backslash EmptyString)
  else if (n =? 8)%N then "\b"
  else if (n =? 9)%N then "\t"
  else if (n =? 10)%N then "\n"
  else if (n =? 12)%N then "\f"
  else if (n =? 13)%N then "\r"
  else if (n <? 32)%N then
    "\u00" ++ String (lowerHex (n / 16)) (String (lowerHex (n mod 16)) EmptyString)
  else String c EmptyString.

Fixpoint quoteBody (s : string) : string :=
  match s with
  | EmptyString => EmptyString
  | String c rest => quoteChar c ++ quoteBody rest
  end.

Definition quote (s : string) : string :=
  String dquote (quoteBody s ++ String dquote EmptyString).

Fixpoint commaSep (parts : list string) : string :=
  match parts with
  | [] => EmptyString
  | [p] => p
  | p :: rest => p ++ "," ++ commaSep rest
  end.

(** [JSON.stringify(v)] *)
Fixpoint stringify (v : json) : string :=
  match v with
  | JNull => "null"
  | JBool true => "true"
  | JBool false => "false"
  | JNum x => showNumber x
  | JStr s => quote s
  | JArr items => "[" ++ commaSep (map stringify items) ++ "]"
  | JObj fields =>
      "{" ++ commaSep (map (fun kv => quote (fst kv) ++ ":" ++ stringify (snd kv)) fields)
          ++ "}"
  end.

(** *** The parser *)

Definition isWs (c : ascii) : bool :=
  let n := Uri.code c in
  (n =? 32)%N || (n =? 9)%N || (n =? 10)%N || (n =? 13)%N.

Fixpoint skipWs (s : string) : string :=
  match s with
  | EmptyString => EmptyString
  | String c rest => if isWs c then skipWs rest else s
  end.

Definition hexValue (c : ascii) : option N :=
  let n := Uri.code c in
  if Uri.isDigit c then Some (n - 48)%N
  else if Uri.between 97 102 c then Some (n - 87)%N
  else if Uri.between 65 70 c then Some (n - 55)%N
  else None.

Definition hex4 (a b c d : ascii) : option N :=
  match hexValue a, hexValue b, hexValue c, hexValue d with
  | Some x, Some y, Some z, Some t => Some (((x * 16 + y) * 16 + z) * 16 + t)%N
  | _, _, _, _ => None
  end.

(** The UTF-8 text of a code point.  A surrogate that stands alone has
    none; it is written in the same three-byte form, so that two strings
    are the same text exactly when they are the same bytes. *)
Definition utf8 (cp : N) : string :=
  if (cp <? 128)%N then String (ascii_of_N cp) EmptyString
  else if (cp <? 2048)%N then
    String (ascii_of_N (192 + cp / 64))
      (String (ascii_of_N (128 + cp mod 64)) EmptyString)
  else if (cp <? 65536)%N then
    String (ascii_of_N (224 + cp / 4096))
      (String (ascii_of_N (128 + (cp / 64) mod 64))
        (String (ascii_of_N (128 + cp mod 64)) EmptyString))
  else
    String (ascii_of_N (240 + cp / 262144))
      (String (ascii_of_N (128 + (cp / 4096) mod 64))
        (String (ascii_of_N (128 + (cp / 64) mod 64))
          (String (ascii_of_N (128 + cp mod 64)) EmptyString))).

Definition isHighSurrogate (cp : N) : bool := (55296 <=? cp)%N && (cp <=? 56319)%N.
Definition isLowSurrogate (cp : N) : bool := (56320 <=? cp)%N && (cp <=? 57343)%N.

(** The code point a surrogate pair stands for. *)
Definition astral (hi lo : N) : N := (65536 + (hi - 55296) * 1024 + (lo - 56320))%N.

Definition simpleEscape (c : ascii) : option ascii :=
  if Ascii.eqb c dquote then Some dquote
  else if Ascii.eqb c backslash then Some backslash
  else if Ascii.eqb c "/" then Some "/"%char
  else if Ascii.eqb c "b" then Some (ascii_of_N 8)
  else if Ascii.eqb c "f" then Some (ascii_of_N 12)
  else if Ascii.eqb c "n" then Some (ascii_of_N 10)
  else if Ascii.eqb c "r" then Some (ascii_of_N 13)
  else if Ascii.eqb c "t" then Some (ascii_of_N 9)
  else None.

Definition consTo (front : string) (r : option (string * string))
  : option (string * string) :=
  match r with
  | Some (s, rest) => Some (front ++ s, rest)
  | None => None
  end.

(** A string literal after its opening quote: the text and what follows
    the closing quote. *)
Fixpoint parseStringBody (s : string) : option (string * string) :=
  match s with
  | EmptyString => None
  | String c rest =>
      if Ascii.eqb c dquote then Some (EmptyString, rest)
      else if Ascii.eqb c backslash then
        match rest with
        | String e rest' =>
            match simpleEscape e with
            | Some ch => consTo (String ch EmptyString) (parseStringBody rest')
            | None =>
                if Ascii.eqb e "u" then
                  match rest' with
                  | String h1 (String h2 (String h3 (String h4 rest''))) =>
                      match hex4 h1 h2 h3 h4 with
                      | Some cp =>
                          if isHighSurrogate cp then
                            match rest'' with
                            | String b (String u (String g1 (String g2
                                (String g3 (String g4 rest3))))) =>
                                match (if Ascii.eqb b backslash && Ascii.eqb u "u"
                                       then hex4 g1 g2 g3 g4 else None) with
                                | Some lo =>
                                    if isLowSurrogate lo
                                    then consTo (utf8 (astral cp lo))
                                                (parseStringBody rest3)
                                    else consTo (utf8 cp) (parseStringBody rest'')
                                | None => consTo (utf8 cp) (parseStringBody rest'')
                                end
                            | _ => consTo (utf8 cp) (parseStringBody rest'')
                            end
                          else consTo (utf8 cp) (parseStringBody rest'')
                      | None => None
                      end
                  | _ => None
                  end
                else None
            end
        | EmptyString => None
        end
      else if (Uri.code c <? 32)%N then None
      else consTo (String c EmptyString) (parseStringBody rest)
  end.

Fixpoint digits (s : string) : string :=
  match s with
  | EmptyString => EmptyString
  | String c rest => if Uri.isDigit c then String c (digits rest) else EmptyString
  end.

Fixpoint afterDigits (s : string) : string :=
  match s with
  | EmptyString => EmptyString
  | String c rest => if Uri.isDigit c then afterDigits rest else s
  end.

Definition leadingZero (ds : string) : bool :=
  match ds with
  | String c (String _ _) => Ascii.eqb c "0"
  | _ => false
  end.

(** The characters a numeric literal is made of, and the longest run of
    them a text starts with. *)
Definition numChar (c : ascii) : bool := Uri.isDigit c || Uri.oneOf "+-.eE" c.

Fixpoint token (s : string) : string :=
  match s with
  | EmptyString => EmptyString
  | String c rest => if numChar c then String c (token rest) else EmptyString
  end.

Fixpoint afterToken (s : string) : string :=
  match s with
  | EmptyString => EmptyString
  | String c rest => if numChar c then afterToken rest else s
  end.

Definition natural (ds : string) : N :=
  match NilEmpty.uint_of_string ds with
  | Some u => N.of_uint u
  | None => 0%N
  end.

(** A sign, if the text starts with one of the two. *)
Definition signed (minus plus : bool) (s : string) : bool * string :=
  match s with
  | String c rest =>
      if minus && Ascii.eqb c "-" then (true, rest)
      else if plus && Ascii.eqb c "+" then (false, rest)
      else (false, s)
  | EmptyString => (false, s)
  end.

(** A numeric literal: an optional minus sign; digits, without a leading
    zero unless the zero is alone; optionally a point and digits;
    optionally [e] or [E], a sign and digits.  The result is the sign, the
    digits before and after the point, and the exponent; [None] when the
    text is not such a literal. *)
Definition readNumber (tok : string) : option (bool * string * string * Z) :=
  let (negative, s1) := signed true false tok in
  let int := digits s1 in
  let r1 := afterDigits s1 in
  if String.eqb int EmptyString || leadingZero int then None
  else
    let (frac, r2) :=
      match r1 with
      | String c r => if Ascii.eqb c "." then (Some (digits r), afterDigits r)
                      else (None, r1)
      | EmptyString => (None, r1)
      end in
    match frac with
    | Some EmptyString => None
    | _ =>
        let fracDigits := match frac with Some f => f | None => EmptyString end in
        match r2 with
        | EmptyString => Some (negative, int, fracDigits, 0%Z)
        | String c r =>
            if Uri.oneOf "eE" c then
              let (down, r3) := signed true true r in
              let e := digits r3 in
              if String.eqb e EmptyString
                 || negb (String.eqb (afterDigits r3) EmptyString)
              then None
              else Some (negative, int, fracDigits,
                         if down then (- Z.of_N (natural e))%Z
                         else Z.of_N (natural e))
            else None
        end
    end.

(** The number a literal denotes. *)
Definition numberOf (parts : bool * string * string * Z) : Double.t :=
  let '(negative, int, frac, e) := parts in
  Double.ofDecimal negative (natural (int ++ frac))
                   (e - Z.of_nat (String.length frac)).

Definition parseNumber (s : string) : option (json * string) :=
  match readNumber (token s) with
  | Some parts => Some (JNum (numberOf parts), afterToken s)
  | None => None
  end.

Definition literal (word : string) (v : json) (s : string)
  : option (json * string) :=
  match Uri.dropPrefix word s with
  | Some rest => Some (v, rest)
  | None => None
  end.

(** Properties are defined left to right: a repeated key keeps its first
    place and takes its last value. *)
Definition fromEntries (entries : list (string * json)) : list (string * json) :=
  fold_left (fun o kv => Js.set (fst kv) (snd kv) o) entries [].

(** Does the text, after white space, start with the character? *)
Definition next (c : ascii) (s : string) : option string :=
  match skipWs s with
  | String c' rest => if Ascii.eqb c' c then Some rest else None
  | EmptyString => None
  end.

Fixpoint parseValue (fuel : nat) (s : string) : option (json * string) :=
  match fuel with
  | O => None
  | S fuel' =>
      match skipWs s with
      | EmptyString => None
      | String c rest =>
          if Ascii.eqb c "n" then literal "ull" JNull rest
          else if Ascii.eqb c "t" then literal "rue" (JBool true) rest
          else if Ascii.eqb c "f" then literal "alse" (JBool false) rest
          else if Ascii.eqb c dquote then
            match parseStringBody rest with
            | Some (str, rest') => Some (JStr str, rest')
            | None => None
            end
          else if Ascii.eqb c "[" then
            match next "]" rest with
            | Some rest' => Some (JArr [], rest')
            | None =>
                match parseItems fuel' rest with
                | Some (items, rest') => Some (JArr items, rest')
                | None => None
                end
            end
          else if Ascii.eqb c "{" then
            match next "}" rest with
            | Some rest' => Some (JObj [], rest')
            | None =>
                match parseFields fuel' rest with
                | Some (entries, rest') => Some (JObj (fromEntries entries), rest')
                | None => None
                end
            end
          else parseNumber (String c rest)
      end
  end

with parseItems (fuel : nat) (s : string) : option (list json * string) :=
  match fuel with
  | O => None
  | S fuel' =>
      match parseValue fuel' s with
      | Some (v, rest) =>
          match next "," rest with
          | Some rest' =>
              match parseItems fuel' rest' with
              | Some (vs, rest'') => Some (v :: vs, rest'')
              | None => None
              end
          | None =>
              match next "]" rest with
              | Some rest' => Some ([v], rest')
              | None => None
              end
          end
      | None => None
      end
  end

with parseFields (fuel : nat) (s : string)
  : option (list (string * json) * string) :=
  match fuel with
  | O => None
  | S fuel' =>
      match next dquote s with
      | Some rest =>
          match parseStringBody rest with
          | Some (key, rest1) =>
              match next ":" rest1 with
              | Some rest2 =>
                  match parseValue fuel' rest2 with
                  | Some (v, rest3) =>
                      match next "," rest3 with
                      | Some rest4 =>
                          match parseFields fuel' rest4 with
                          | Some (kvs, rest5) => Some ((key, v) :: kvs, rest5)
                          | None => None
                          end
                      | None =>
                          match next "}" rest3 with
                          | Some rest4 => Some ([(key, v)], rest4)
                          | None => None
                          end
                      end
                  | None => None
                  end
              | None => None
              end
          | None => None
          end
      | None => None
      end
  end.

(** [JSON.parse(text)]; [None] is the [SyntaxError]. *)
Definition parse (text : string) : option json :=
  match parseValue (S (String.length text)) text with
  | Some (v, rest) =>
      match skipWs rest with
      | EmptyString => Some v
      | String _ _ => None
      end
  | None => None
  end.

(** [!v] *)
Definition falsy (v : json) : bool :=
  match v with
  | JNull => true
  | JBool b => negb b
  | JNum (S754_zero _) | JNum S754_nan => true
  | JNum _ => false
  | JStr s => String.eqb s EmptyString
  | JArr _ | JObj _ => false
  end.

(** A value [JSON.parse] can produce: every object has each key once. *)
Fixpoint wf (v : json) : Prop :=
  match v with
  | JArr items => fold_right (fun item rest => wf item /\ rest) True items
  | JObj fields =>
      NoDup (map fst fields)
      /\ fold_right (fun kv rest => wf (snd kv) /\ rest) True fields
  | _ => True
  end.

(** A number that [JSON.parse] reads back from the text [JSON.stringify]
    writes for it.  A number that is not finite does not (it is written
    [null]), nor does negative zero (it is written [0]). *)
Definition numberPrintsBack (x : Double.t) : Prop :=
  Double.isFinite x = true
  /\ parseNumber (Double.toString x) = Some (JNum x, EmptyString).

(** A value all of whose numbers do. *)
Fixpoint printsBack (v : json) : Prop :=
  match v with
  | JNum x => numberPrintsBack x
  | JArr items => fold_right (fun item rest => printsBack item /\ rest) True items
  | JObj fields => fold_right (fun kv rest => printsBack (snd kv) /\ rest) True fields
  | _ => True
  end.

(** A bound on the depth the parser descends to on the text of a
    value. *)
Fixpoint weight (v : json) : nat :=
  match v with
  | JArr items => S (fold_right (fun item n => S (weight item + n)) 0 items)
  | JObj fields => S (fold_right (fun kv n => S (weight (snd kv) + n)) 0 fields)
  | _ => 1
  end.

(** The characters the text of a value starts with. *)
Definition opens (c : ascii) : bool :=
  Uri.isDigit c || Uri.oneOf "ntf-[{" c || Ascii.eqb c dquote.

(** What may follow a value in a text: nothing, or a separator or a
    closing bracket. *)
Definition delimited (rest : string) : Prop :=
  match rest with
  | EmptyString => True
  | String c _ => Uri.oneOf ",]}" c = true
  end.

End Json.

(** The statement of the round trip for one value, inside a larger text
    and for any fuel that covers the value. *)
Definition roundtrips (v : json) : Prop :=
  Json.wf v -> Json.printsBack v ->
  forall rest fuel,
    Json.delimited rest -> Json.weight v <= fuel ->
    Json.parseValue fuel (Json.stringify v ++ rest) = Some (v, rest).


(** ** Semantic versions

    [semver] is an import, the collaborator that parses versions and
    ranges and orders versions, and it is a parameter here.  The interface
    below is what the module relies on; [semver.lt], [semver.gt] and
    [semver.maxSatisfying] are written over it the way the library writes
    them. *)

Class Semver : Type :=
  { (** a parsed version, [new SemVer(text)]; [None] when the constructor
        throws *)
    version : Type;
    parseVersion : string -> option version;
    (** [a.compare(b)] *)
    compareVersion : version -> version -> comparison;
    (** a parsed range, [new Range(text)]; [None] when the constructor
        throws *)
    range : Type;
    parseRange : string -> option range;
    (** [range.test(version)] *)
    test : range -> version -> bool }.

(** What the module assumes of the collaborator: precedence is a total
    preorder, and no property name of [Object.prototype] reads as a
    version or as a range. *)
Class SemverLaws (S : Semver) : Prop :=
  { compare_antisym :
      forall a b : version, compareVersion b a = CompOpp (compareVersion a b);
    compare_trans :
      forall a b c : version,
        compareVersion a b <> Gt -> compareVersion b c <> Gt ->
        compareVersion a c <> Gt;
    inherited_not_version :
      forall name, Js.inherited name = true -> parseVersion name = None;
    inherited_not_range :
      forall name, Js.inherited name = true -> parseRange name = None }.

Module semver.
Section Library.
Context {S : Semver}.

Definition isLt (c : comparison) : bool :=
  match c with Lt => true | _ => false end.

Definition isGt (c : comparison) : bool :=
  match c with Gt => true | _ => false end.

(** [semver.compare(a, b)]; [None] is the [TypeError] of an invalid
    version. *)
Definition compare (a b : string) : option comparison :=
  match parseVersion a, parseVersion b with
  | Some x, Some y => Some (compareVersion x y)
  | _, _ => None
  end.

Definition lt (a b : string) : option bool := option_map isLt (compare a b).
Definition gt (a b : string) : option bool := option_map isGt (compare a b).

(** [semver.satisfies(v, range)] for a parsed range: a text that is not
    a version satisfies nothing (older releases of the library throw on
    it; the statements on lists of versions take the versions to be
    valid). *)
Definition satisfies (v : string) (r : range) : bool :=
  match parseVersion v with
  | Some sv => test r sv
  | None => false
  end.

(** One step of the [forEach] of [maxSatisfying]: [best] is the pair
    [max], [maxSV]. *)
Definition maxStep (r : range) (best : option (string * version)) (v : string)
  : option (string * version) :=
  match parseVersion v with
  | Some sv =>
      if test r sv then
        match best with
        | None => Some (v, sv)
        | Some (_, maxSV) =>
            if isLt (compareVersion maxSV sv) then Some (v, sv) else best
        end
      else best
  | None => best
  end.

(** [semver.maxSatisfying(versions, range)]; [None] is [null]. *)
Definition maxSatisfying (versions : list string) (rangeText : string)
  : option string :=
  match parseRange rangeText with
  | None => None
  | Some r => option_map fst (fold_left (maxStep r) versions None)
  end.

End Library.
End semver.

Section Precedence.
Context {S : Semver}.

(** [a] precedes or equals [b] in semantic-version order. *)
Definition precedes (a b : string) : Prop :=
  exists x y, parseVersion a = Some x /\ parseVersion b = Some y
              /\ compareVersion x y <> Gt.

Definition valid (v : string) : Prop := parseVersion v <> None.

(** [semver.satisfies(v, rangeText)]: the text is a range and [v] is a
    version in it. *)
Definition satisfiesText (v rangeText : string) : Prop :=
  exists r, parseRange rangeText = Some r /\ semver.satisfies v r = true.

(** The invariant of the loop of [maxSatisfying] after the versions
    [seen]. *)
Definition best_so_far (r : range) (seen : list string)
           (best : option (string * version)) : Prop :=
  match best with
  | None => forall v, In v seen -> semver.satisfies v r = false
  | Some (m, sm) =>
      In m seen /\ parseVersion m = Some sm /\ test r sm = true
      /\ forall v, In v seen -> semver.satisfies v r = true -> precedes v m
  end.

End Precedence.

(** ** [Array.prototype.sort] with a comparison function

    The engine's sort is stable and, for a consistent comparison function,
    puts [a] before [b] whenever the function is negative on them.  It is
    an insertion sort here; a comparison that throws ends the sort. *)

Section Sort.
Variable A : Type.
Variable comparefn : A -> A -> option Z.

Fixpoint insert (x : A) (sorted : list A) : option (list A) :=
  match sorted with
  | [] => Some [x]
  | y :: rest =>
      match comparefn x y with
      | None => None
      | Some c =>
          if (c <=? 0)%Z then Some (x :: sorted)
          else option_map (cons y) (insert x rest)
      end
  end.

Fixpoint sort (a : list A) : option (list A) :=
  match a with
  | [] => Some []
  | x :: rest =>
      match sort rest with
      | Some sorted => insert x sorted
      | None => None
      end
  end.
End Sort.

(** ** The module *)

(** The registry's document, as the design gives its format: a map from
    version to that version's fields, and a map from tag to version. *)
Record PackageInfo : Type :=
  { info_versions : Js.object (Js.object json);
    info_dist_tags : Js.object string }.

(** The value of [fetchVersionsAndTags]. *)
Record VersionsAndTags : Type :=
  { versions : list string; tags : Js.object string }.

Definition asString (v : json) : option string :=
  match v with JStr s => Some s | _ => None end.

Definition asObject (v : json) : option (Js.object json) :=
  match v with JObj fields => Some fields | _ => None end.

Definition asStrings (v : json) : option (list string) :=
  match v with
  | JArr items =>
      fold_right (fun item acc =>
                    match asString item, acc with
                    | Some s, Some l => Some (s :: l)
                    | _, _ => None
                    end) (Some []) items
  | _ => None
  end.

Definition asObjectOf (A : Type) (read : json -> option A) (v : json)
  : option (Js.object A) :=
  match v with
  | JObj fields =>
      fold_right (fun kv acc =>
                    match read (snd kv), acc with
                    | Some a, Some o => Some ((fst kv, a) :: o)
                    | _, _ => None
                    end) (Some []) fields
  | _ => None
  end.

Definition packageInfo (doc : json) : option PackageInfo :=
  match doc with
  | JObj fields =>
      match Js.own "versions" fields, Js.own "dist-tags" fields with
      | Some vs, Some ts =>
          match asObjectOf asObject vs, asObjectOf asString ts with
          | Some v, Some t => Some {| info_versions := v; info_dist_tags := t |}
          | _, _ => None
          end
      | _, _ => None
      end
  | _ => None
  end.

(** The object literal of [fetchVersionsAndTags] as [JSON.stringify] sees
    it, and what [JSON.parse] of a cached text is read as. *)
Definition jsonOfVersionsAndTags (v : VersionsAndTags) : json :=
  JObj [ ("versions", JArr (map JStr (versions v)));
         ("tags", JObj (map (fun kv => (fst kv, JStr (snd kv))) (tags v))) ].

Definition versionsAndTagsOfJson (doc : json) : option VersionsAndTags :=
  match doc with
  | JObj fields =>
      match Js.own "versions" fields, Js.own "tags" fields with
      | Some vs, Some ts =>
          match asStrings vs, asObjectOf asString ts with
          | Some v, Some t => Some {| versions := v; tags := t |}
          | _, _ => None
          end
      | _, _ => None
      end
  | _ => None
  end.

Definition newline : string := String (ascii_of_N 10) EmptyString.

Definition notFound : string := EmptyString.

Section Npm.
Context {S : Semver}.
Variable registry : Registry.

Definition fetchPackageInfo (packageName : string) : Async json :=
  await res <- get registry (infoRequest packageName);
  let (statusCode, body) := res in
  if (statusCode =? 200)%N then
    match Json.parse body with
    | Some doc => ret doc
    | None => throw SyntaxError
    end
  else if (statusCode =? 404)%N then ret JNull
  else
    throw (Error ("Failed to fetch info for " ++ packageName ++ newline
                  ++ "status: " ++ Js.showN statusCode ++ newline
                  ++ "data: " ++ body)).

(** A document that is not in the registry's format has no [versions]
    to take the keys of; it is taken to fail there. *)
Definition fetchVersionsAndTags (packageName : string)
  : Async (option VersionsAndTags) :=
  await info <- fetchPackageInfo packageName;
  if Json.falsy info then ret None
  else
    match packageInfo info with
    | Some i =>
        ret (Some {| versions := Js.keys (info_versions i);
                     tags := info_dist_tags i |})
    | None => throw TypeError
    end.

(** [JSON.parse(cacheValue)], read at the type the caller uses it at. *)
Definition parseCached (A : Type) (read : json -> option A) (cacheValue : string)
  : Async (option A) :=
  match Json.parse cacheValue with
  | Some doc =>
      match read doc with
      | Some a => ret (Some a)
      | None => throw TypeError
      end
  | None => throw SyntaxError
  end.

Definition getVersionsAndTags (packageName : string)
  : Async (option VersionsAndTags) :=
  let cacheKey := "versions-" ++ packageName in
  await cacheValue <- cache_get cacheKey;
  match cacheValue with
  | Some text =>
      if String.eqb text notFound then ret None
      else parseCached versionsAndTagsOfJson text
  | None =>
      await value <- fetchVersionsAndTags packageName;
      match value with
      | None =>
          await _ <- cache_set cacheKey notFound (5 * oneMinute);
          ret None
      | Some v =>
          await _ <- cache_set cacheKey
                       (Json.stringify (jsonOfVersionsAndTags v)) oneMinute;
          ret (Some v)
      end
  end.

Definition byVersion (a b : string) : option Z :=
  match semver.lt a b with
  | None => None
  | Some true => Some (-1)%Z
  | Some false =>
      match semver.gt a b with
      | None => None
      | Some true => Some 1%Z
      | Some false => Some 0%Z
      end
  end.

Definition getAvailableVersions (packageName : string) : Async (list string) :=
  await versionsAndTags <- getVersionsAndTags packageName;
  match versionsAndTags with
  | Some v =>
      match sort byVersion (versions v) with
      | Some sorted => ret sorted
      | None => throw TypeError
      end
  | None => ret []
  end.

(** [range] after [if (range in tags) range = tags[range]] is a string or
    an inherited built-in.  A built-in is not in an array of strings, and
    [new Range] of it throws inside [maxSatisfying], which answers
    [null]. *)
Definition retag (range : string) (tags : Js.object string)
  : Js.property string :=
  if Js.has range tags then Js.get range tags else Js.Own range.

Definition resolveIn (v : VersionsAndTags) (range : string) : option string :=
  match retag range (tags v) with
  | Js.Own r =>
      if Js.includes (versions v) r then Some r
      else semver.maxSatisfying (versions v) r
  | Js.Inherited _ _ | Js.Undefined _ => None
  end.

Definition resolveVersion (packageName range : string) : Async (option string) :=
  await versionsAndTags <- getVersionsAndTags packageName;
  match versionsAndTags with
  | Some v => ret (resolveIn v range)
  | None => ret None
  end.

Definition packageConfigExcludeKeys : list string :=
  [ "browserify"; "bugs"; "directories"; "engines"; "files"; "homepage";
    "keywords"; "maintainers"; "scripts" ].

(** The test of the [reduce], named for the proofs. *)
Definition keeps (key : string) : bool :=
  negb (Js.startsWith key "_")
  && negb (Js.includes packageConfigExcludeKeys key).

(** The body of the [reduce]; a key of [Object.keys(doc)] is an own
    property of [doc]. *)
Definition cleanStep (doc memo : Js.object json) (key : string)
  : Js.object json :=
  if negb (Js.startsWith key "_")
     && negb (Js.includes packageConfigExcludeKeys key)
  then match Js.own key doc with
       | Some v => Js.set key v memo
       | None => memo
       end
  else memo.

Definition cleanPackageConfig (doc : Js.object json) : Js.object json :=
  fold_left (cleanStep doc) (Js.keys doc) [].

(** [version in info.versions] holds for an inherited name too, and
    [info.versions[version]] is then a built-in, whose [Object.keys] is
    empty. *)
Definition fetchPackageConfig (packageName version : string)
  : Async (option (Js.object json)) :=
  await info <- fetchPackageInfo packageName;
  if Json.falsy info then ret None
  else
    match packageInfo info with
    | Some i =>
        if negb (Js.has version (info_versions i)) then ret None
        else
          match Js.get version (info_versions i) with
          | Js.Own doc => ret (Some (cleanPackageConfig doc))
          | Js.Inherited _ _ => ret (Some [])
          | Js.Undefined _ => throw TypeError
          end
    | None => throw TypeError
    end.

Definition getPackageConfig (packageName version : string)
  : Async (option (Js.object json)) :=
  let cacheKey := "config-" ++ packageName ++ "-" ++ version in
  await cacheValue <- cache_get cacheKey;
  match cacheValue with
  | Some text =>
      if String.eqb text notFound then ret None
      else parseCached asObject text
  | None =>
      await value <- fetchPackageConfig packageName version;
      match value with
      | None =>
          await _ <- cache_set cacheKey notFound (5 * oneMinute);
          ret None
      | Some v =>
          await _ <- cache_set cacheKey (Json.stringify (JObj v)) oneMinute;
          ret (Some v)
      end
  end.

(** The stream [getPackage] returns is the response; its content is the
    body. *)
Definition getPackage (packageName version : string) : Async string :=
  await res <- get registry (tarballRequest packageName version);
  let (statusCode, body) := res in
  if (statusCode =? 200)%N then ret body
  else
    throw (Error ("Failed to fetch tarball for " ++ packageName ++ "@" ++ version
                  ++ newline ++ "status: " ++ Js.showN statusCode ++ newline
                  ++ "data: " ++ body)).

End Npm.

(** What the two cached functions store for a result, and for how long:
    named for the statements about the cache. *)
Definition versionsText (r : option VersionsAndTags) : string :=
  match r with
  | Some v => Json.stringify (jsonOfVersionsAndTags v)
  | None => notFound
  end.

Definition configText (r : option (Js.object json)) : string :=
  match r with
  | Some c => Json.stringify (JObj c)
  | None => notFound
  end.

Definition ttlOf (A : Type) (r : option A) : N :=
  match r with
  | Some _ => oneMinute
  | None => 5 * oneMinute
  end.

(** ** A semver collaborator to run the module with

    The grammar and the precedence of the semantic-versioning
    specification as the [semver] package implements them in strict mode:
    versions [MAJOR.MINOR.PATCH] with an optional prerelease and build;
    ranges that are alternatives ([||]) of comparator sets, with the
    operators, partial versions and wildcards, carets, tildes and hyphen
    ranges desugared to primitive comparators. *)

Module NodeSemver.

Inductive identifier : Type :=
| Numeric (n : N)
| Alphanumeric (s : string).

Record semver : Type :=
  { major : N; minor : N; patch : N; prerelease : list identifier }.

Definition MAX_LENGTH : nat := 256.
Definition MAX_SAFE_INTEGER : N := 9007199254740991.

Definition isSpace (c : ascii) : bool :=
  let n := Uri.code c in (n =? 32)%N || ((9 <=? n)%N && (n <=? 13)%N).

Fixpoint trimStart (s : string) : string :=
  match s with
  | EmptyString => EmptyString
  | String c rest => if isSpace c then trimStart rest else s
  end.

Fixpoint trimEnd (s : string) : string :=
  match s with
  | EmptyString => EmptyString
  | String c rest =>
      match trimEnd rest with
      | EmptyString => if isSpace c then EmptyString else String c EmptyString
      | kept => String c kept
      end
  end.

Definition trim (s : string) : string := trimEnd (trimStart s).

(** [0|[1-9]\d*], as a number. *)
Definition numericIdentifier (s : string) : option N :=
  match s with
  | EmptyString => None
  | String "0" (String _ _) => None
  | _ =>
      if Js.allChars Uri.isDigit s then
        option_map N.of_uint (NilEmpty.uint_of_string s)
      else None
  end.

Definition isIdChar (c : ascii) : bool := Uri.isAlnum c || Ascii.eqb c "-".

(** One prerelease identifier: numeric without leading zeros, or made of
    letters, digits and hyphens with a letter or a hyphen among them. *)
Definition prereleaseIdentifier (s : string) : option identifier :=
  match numericIdentifier s with
  | Some n => Some (Numeric n)
  | None =>
      match s with
      | EmptyString => None
      | _ => if Js.allChars isIdChar s && negb (Js.allChars Uri.isDigit s)
             then Some (Alphanumeric s) else None
      end
  end.

Definition buildIdentifier (s : string) : bool :=
  match s with
  | EmptyString => false
  | _ => Js.allChars isIdChar s
  end.

Fixpoint traverse (A B : Type) (f : A -> option B) (l : list A) : option (list B) :=
  match l with
  | [] => Some []
  | a :: rest =>
      match f a, traverse f rest with
      | Some b, Some bs => Some (b :: bs)
      | _, _ => None
      end
  end.

(** The text before the first [c], and the text after it when there is
    one. *)
Fixpoint splitFirst (c : ascii) (s : string) : string * option string :=
  match s with
  | EmptyString => (EmptyString, None)
  | String a rest =>
      if Ascii.eqb a c then (EmptyString, Some rest)
      else let (front, back) := splitFirst c rest in (String a front, back)
  end.

Definition parsePrerelease (pre : option string) : option (list identifier) :=
  match pre with
  | None => Some []
  | Some text => traverse prereleaseIdentifier (Js.split "." text)
  end.

Definition validBuild (build : option string) : bool :=
  match build with
  | None => true
  | Some text => forallb buildIdentifier (Js.split "." text)
  end.

Definition mainNumber (s : string) : option N :=
  match numericIdentifier s with
  | Some n => if (n <=? MAX_SAFE_INTEGER)%N then Some n else None
  | None => None
  end.

(** [MAJOR.MINOR.PATCH(-PRERELEASE)?(+BUILD)?] *)
Definition parsePlain (s : string) : option semver :=
  let (mainpre, build) := splitFirst "+" s in
  let (main, pre) := splitFirst "-" mainpre in
  if validBuild build then
    match Js.split "." main, parsePrerelease pre with
    | [a; b; c], Some ids =>
        match mainNumber a, mainNumber b, mainNumber c with
        | Some x, Some y, Some z =>
            Some {| major := x; minor := y; patch := z; prerelease := ids |}
        | _, _, _ => None
        end
    | _, _ => None
    end
  else None.

Definition dropV (s : string) : string :=
  match s with
  | String "v" rest => rest
  | _ => s
  end.

(** [new SemVer(text)] *)
Definition parseVersion (text : string) : option semver :=
  if Nat.ltb MAX_LENGTH (String.length text) then None
  else parsePlain (dropV (trim text)).

Definition compareIdentifiers (a b : identifier) : comparison :=
  match a, b with
  | Numeric x, Numeric y => N.compare x y
  | Numeric _, Alphanumeric _ => Lt
  | Alphanumeric _, Numeric _ => Gt
  | Alphanumeric x, Alphanumeric y => String.compare x y
  end.

Fixpoint compareIdentifierLists (a b : list identifier) : comparison :=
  match a, b with
  | [], [] => Eq
  | [], _ :: _ => Lt
  | _ :: _, [] => Gt
  | x :: a', y :: b' =>
      match compareIdentifiers x y with
      | Eq => compareIdentifierLists a' b'
      | c => c
      end
  end.

(** [comparePre]: a version without a prerelease comes after every
    version with one. *)
Definition comparePrereleases (pa pb : list identifier) : comparison :=
  match pa, pb with
  | [], [] => Eq
  | _ :: _, [] => Lt
  | [], _ :: _ => Gt
  | _, _ => compareIdentifierLists pa pb
  end.

Definition comparePre (a b : semver) : comparison :=
  comparePrereleases (prerelease a) (prerelease b).

Definition thenCompare (c d : comparison) : comparison :=
  match c with Eq => d | _ => c end.

Definition compareMain (a b : semver) : comparison :=
  thenCompare (N.compare (major a) (major b))
    (thenCompare (N.compare (minor a) (minor b))
       (N.compare (patch a) (patch b))).

(** [a.compare(b)] *)
Definition compareVersion (a b : semver) : comparison :=
  thenCompare (compareMain a b) (comparePre a b).

(** *** Ranges *)

Inductive operator : Type := OpLt | OpLe | OpGt | OpGe | OpEq.

Inductive comparator : Type :=
| Any
| Cmp (op : operator) (v : semver).

Definition range : Type := list (list comparator).

Inductive xid : Type :=
| X
| Num (n : N).

Record partial : Type :=
  { pM : xid; pm : xid; pp : xid; ppre : list identifier }.

Definition parseXid (s : string) : option xid :=
  if String.eqb s "x" || String.eqb s "X" || String.eqb s "*" then Some X
  else option_map Num (mainNumber s).

Fixpoint dropVEq (s : string) : string :=
  match s with
  | String c rest => if Uri.oneOf "v=" c then dropVEq rest else s
  | EmptyString => EmptyString
  end.

(** A partial version: one to three components, the prerelease and the
    build only after the third. *)
Definition parsePartialPlain (s : string) : option partial :=
  let (mainpre, build) := splitFirst "+" s in
  let (main, pre) := splitFirst "-" mainpre in
  match Js.split "." main with
  | [a] =>
      match build, pre, parseXid a with
      | None, None, Some x => Some {| pM := x; pm := X; pp := X; ppre := [] |}
      | _, _, _ => None
      end
  | [a; b] =>
      match build, pre, parseXid a, parseXid b with
      | None, None, Some x, Some y =>
          Some {| pM := x; pm := y; pp := X; ppre := [] |}
      | _, _, _, _ => None
      end
  | [a; b; c] =>
      if validBuild build then
        match parseXid a, parseXid b, parseXid c, parsePrerelease pre with
        | Some x, Some y, Some z, Some ids =>
            Some {| pM := x; pm := y; pp := z; ppre := ids |}
        | _, _, _, _ => None
        end
      else None
  | _ => None
  end.

Definition ver (M m p : N) (pre : list identifier) : semver :=
  {| major := M; minor := m; patch := p; prerelease := pre |}.

Definition between (lo hi : semver) : list comparator :=
  [Cmp OpGe lo; Cmp OpLt hi].

Definition replaceCaret (p : partial) : list comparator :=
  match pM p, pm p, pp p with
  | X, _, _ => [Any]
  | Num M, X, _ => between (ver M 0 0 []) (ver (M + 1) 0 0 [])
  | Num M, Num m, X =>
      if (M =? 0)%N then between (ver M m 0 []) (ver M (m + 1) 0 [])
      else between (ver M m 0 []) (ver (M + 1) 0 0 [])
  | Num M, Num m, Num q =>
      if (M =? 0)%N then
        if (m =? 0)%N then between (ver M m q (ppre p)) (ver M m (q + 1) [])
        else between (ver M m q (ppre p)) (ver M (m + 1) 0 [])
      else between (ver M m q (ppre p)) (ver (M + 1) 0 0 [])
  end.

Definition replaceTilde (p : partial) : list comparator :=
  match pM p, pm p, pp p with
  | X, _, _ => [Any]
  | Num M, X, _ => between (ver M 0 0 []) (ver (M + 1) 0 0 [])
  | Num M, Num m, X => between (ver M m 0 []) (ver M (m + 1) 0 [])
  | Num M, Num m, Num q => between (ver M m q (ppre p)) (ver M (m + 1) 0 [])
  end.

(** The operators of a comparator: [None] is the empty operator. *)
Definition replaceXRange (gtlt : option operator) (p : partial)
  : list comparator :=
  match pM p, pm p, pp p with
  | X, _, _ =>
      match gtlt with
      | Some OpGt | Some OpLt => [Cmp OpLt (ver 0 0 0 [])]
      | _ => [Any]
      end
  | Num M, X, _ =>
      match gtlt with
      | Some OpGt => [Cmp OpGe (ver (M + 1) 0 0 [])]
      | Some OpLe => [Cmp OpLt (ver (M + 1) 0 0 [])]
      | Some OpGe => [Cmp OpGe (ver M 0 0 [])]
      | Some OpLt => [Cmp OpLt (ver M 0 0 [])]
      | Some OpEq | None => between (ver M 0 0 []) (ver (M + 1) 0 0 [])
      end
  | Num M, Num m, X =>
      match gtlt with
      | Some OpGt => [Cmp OpGe (ver M (m + 1) 0 [])]
      | Some OpLe => [Cmp OpLt (ver M (m + 1) 0 [])]
      | Some OpGe => [Cmp OpGe (ver M m 0 [])]
      | Some OpLt => [Cmp OpLt (ver M m 0 [])]
      | Some OpEq | None => between (ver M m 0 []) (ver M (m + 1) 0 [])
      end
  | Num M, Num m, Num q =>
      match gtlt with
      | Some op => [Cmp op (ver M m q (ppre p))]
      | None => [Cmp OpEq (ver M m q (ppre p))]
      end
  end.

Definition hyphenFrom (p : partial) : list comparator :=
  match pM p, pm p, pp p with
  | X, _, _ => []
  | Num M, X, _ => [Cmp OpGe (ver M 0 0 [])]
  | Num M, Num m, X => [Cmp OpGe (ver M m 0 [])]
  | Num M, Num m, Num q => [Cmp OpGe (ver M m q (ppre p))]
  end.

Definition hyphenTo (p : partial) : list comparator :=
  match pM p, pm p, pp p with
  | X, _, _ => []
  | Num M, X, _ => [Cmp OpLt (ver (M + 1) 0 0 [])]
  | Num M, Num m, X => [Cmp OpLt (ver M (m + 1) 0 [])]
  | Num M, Num m, Num q => [Cmp OpLe (ver M m q (ppre p))]
  end.

Definition isFull (p : partial) : bool :=
  match pM p, pm p, pp p with
  | Num _, Num _, Num _ => true
  | _, _, _ => false
  end.

(** A version after an operator: any run of [v] and [=] before a
    partial version, at most one [v] before a full one. *)
Definition parsePartial (s : string) : option partial :=
  match parsePartialPlain (dropVEq s) with
  | Some p =>
      if isFull p then
        if String.eqb (dropV s) (dropVEq s) then Some p else None
      else Some p
  | None => None
  end.

Definition parseComparator (token : string) : option (list comparator) :=
  let after (n : nat) := String.substring n (String.length token - n) token in
  if String.eqb token EmptyString then Some [Any]
  else if Js.startsWith token "^" then
    option_map replaceCaret (parsePartialPlain (dropVEq (after 1)))
  else if Js.startsWith token "~>" then
    option_map replaceTilde (parsePartialPlain (dropVEq (after 2)))
  else if Js.startsWith token "~" then
    option_map replaceTilde (parsePartialPlain (dropVEq (after 1)))
  else if Js.startsWith token ">=" then
    option_map (replaceXRange (Some OpGe)) (parsePartial (after 2))
  else if Js.startsWith token "<=" then
    option_map (replaceXRange (Some OpLe)) (parsePartial (after 2))
  else if Js.startsWith token ">" then
    option_map (replaceXRange (Some OpGt)) (parsePartial (after 1))
  else if Js.startsWith token "<" then
    option_map (replaceXRange (Some OpLt)) (parsePartial (after 1))
  else if Js.startsWith token "=" then
    option_map (replaceXRange (Some OpEq)) (parsePartial (after 1))
  else option_map (replaceXRange None) (parsePartial token).

(** The words of a comparator set, an operator standing alone joined to
    the word after it. *)
Fixpoint words (s : string) : list string :=
  match s with
  | EmptyString => []
  | String c rest =>
      if isSpace c then
        match words rest with
        | EmptyString :: _ as ws => ws
        | ws => EmptyString :: ws
        end
      else
        match words rest with
        | [] => [String c EmptyString]
        | w :: ws => String c w :: ws
        end
  end.

Definition nonEmpty (s : string) : bool := negb (String.eqb s EmptyString).

Definition isOperator (w : string) : bool :=
  existsb (String.eqb w) ["<"; ">"; "<="; ">="; "="; "^"; "~"; "~>"].

Fixpoint joinOperators (ws : list string) : list string :=
  match ws with
  | [] => []
  | w :: rest =>
      match joinOperators rest with
      | next :: others =>
          if isOperator w then (w ++ next) :: others else w :: next :: others
      | [] => [w]
      end
  end.

Definition flatten (parts : option (list (list comparator)))
  : option (list comparator) :=
  option_map (@List.concat comparator) parts.

Definition parseSet (text : string) : option (list comparator) :=
  match filter nonEmpty (words text) with
  | [] => Some [Any]
  | [a; dash; b] =>
      if String.eqb dash "-" then
        match parsePartialPlain (dropVEq a), parsePartialPlain (dropVEq b) with
        | Some from, Some to =>
            match (hyphenFrom from ++ hyphenTo to)%list with
            | [] => Some [Any]
            | cs => Some cs
            end
        | _, _ => None
        end
      else flatten (traverse parseComparator (joinOperators [a; dash; b]))
  | ws => flatten (traverse parseComparator (joinOperators ws))
  end.

(** The alternatives of a range, separated by [||]. *)
Fixpoint alternatives (s : string) : list string :=
  match s with
  | EmptyString => [EmptyString]
  | String "|" (String "|" rest) => EmptyString :: alternatives rest
  | String c rest =>
      match alternatives rest with
      | [] => [String c EmptyString]
      | a :: others => String c a :: others
      end
  end.

(** [new Range(text)] *)
Definition parseRange (text : string) : option range :=
  traverse parseSet (alternatives (trim text)).

Definition holds (op : operator) (c : comparison) : bool :=
  match op, c with
  | OpLt, Lt | OpLe, Lt | OpLe, Eq | OpGt, Gt | OpGe, Gt | OpGe, Eq | OpEq, Eq => true
  | _, _ => false
  end.

Definition testComparator (v : semver) (c : comparator) : bool :=
  match c with
  | Any => true
  | Cmp op bound => holds op (compareVersion v bound)
  end.

Definition sameTuple (a b : semver) : bool :=
  (major a =? major b)%N && (minor a =? minor b)%N && (patch a =? patch b)%N.

Definition allowsPrerelease (v : semver) (c : comparator) : bool :=
  match c with
  | Any => false
  | Cmp _ bound =>
      match prerelease bound with
      | [] => false
      | _ :: _ => sameTuple bound v
      end
  end.

(** A prerelease satisfies a set only when a comparator of the set
    names a prerelease of the same [MAJOR.MINOR.PATCH]. *)
Definition testSet (v : semver) (set : list comparator) : bool :=
  forallb (testComparator v) set
  && match prerelease v with
     | [] => true
     | _ :: _ => existsb (allowsPrerelease v) set
     end.

(** [range.test(version)] *)
Definition test (r : range) (v : semver) : bool := existsb (testSet v) r.

End NodeSemver.

Definition nodeSemver : Semver :=
  {| version := NodeSemver.semver;
     parseVersion := NodeSemver.parseVersion;
     compareVersion := NodeSemver.compareVersion;
     range := NodeSemver.range;
     parseRange := NodeSemver.parseRange;
     test := NodeSemver.test |}.

(** A three-way comparison that decides a strict total order, and the
    lexicographic comparison of pairs; a version is compared as the tuple
    of its components. *)
Record ordering (A : Type) (cmp : A -> A -> comparison) : Prop :=
  { cmp_eq : forall a b, cmp a b = Eq -> a = b;
    cmp_refl : forall a, cmp a a = Eq;
    cmp_antisym : forall a b, cmp b a = CompOpp (cmp a b);
    cmp_lt_trans : forall a b c, cmp a b = Lt -> cmp b c = Lt -> cmp a c = Lt }.

Definition lex (A B : Type) (ca : A -> A -> comparison) (cb : B -> B -> comparison)
           (p q : A * B) : comparison :=
  NodeSemver.thenCompare (ca (fst p) (fst q)) (cb (snd p) (snd q)).

Definition tuple (v : NodeSemver.semver) : N * (N * (N * list NodeSemver.identifier)) :=
  (NodeSemver.major v, (NodeSemver.minor v, (NodeSemver.patch v, NodeSemver.prerelease v))).

(** ** A registry to run the module against *)

Module Example.

Definition fieldsOf (name v : string) : json :=
  JObj [ ("name", JStr name); ("version", JStr v);
         ("main", JStr "index.js"); ("_id", JStr (name ++ "@" ++ v));
         ("_npmVersion", JStr "6.4.1");
         ("scripts", JObj [("test", JStr "jest")]);
         ("keywords", JArr [JStr "ui"; JStr "dom"]);
         ("dependencies", JObj [("object-assign", JStr "^4.1.1")]) ].

(** A package with three versions whose tag points at the newest. *)
Definition react : json :=
  JObj [ ("name", JStr "react");
         ("dist-tags", JObj [("latest", JStr "2.0.0")]);
         ("versions",
          JObj [ ("2.0.0", fieldsOf "react" "2.0.0");
                 ("1.2.0", fieldsOf "react" "1.2.0");
                 ("1.3.0", fieldsOf "react" "1.3.0") ]) ].

(** A package whose tag names a version that is not in its list. *)
Definition ahead : json :=
  JObj [ ("name", JStr "ahead");
         ("dist-tags", JObj [("latest", JStr "3.0.0")]);
         ("versions", JObj [ ("1.0.0", fieldsOf "ahead" "1.0.0") ]) ].

(** A package whose versions are listed out of order. *)
Definition lodash : json :=
  JObj [ ("name", JStr "lodash");
         ("dist-tags", JObj [("latest", JStr "10.0.0"); ("next", JStr "11.x")]);
         ("versions",
          JObj [ ("2.0.0", fieldsOf "lodash" "2.0.0");
                 ("10.0.0", fieldsOf "lodash" "10.0.0");
                 ("1.0.0", fieldsOf "lodash" "1.0.0");
                 ("9.0.0", fieldsOf "lodash" "9.0.0");
                 ("1.2.0", fieldsOf "lodash" "1.2.0") ]) ].

Definition ok (doc : json) : Reply :=
  {| latency := 40; transport := Response 200 (Json.stringify doc) |}.

(** The registry answers for the three packages, fails on [/broken], is
    unreachable for [/offline] and knows no other name. *)
Definition registry : Registry :=
  fun request _ =>
    if String.eqb (req_path request) "/react" then ok react
    else if String.eqb (req_path request) "/ahead" then ok ahead
    else if String.eqb (req_path request) "/lodash" then ok lodash
    else if String.eqb (req_path request) "/broken" then
      {| latency := 40; transport := Response 500 "Internal Server Error" |}
    else if String.eqb (req_path request) "/offline" then
      {| latency := 40; transport := NetworkError "ECONNRESET" |}
    else {| latency := 40; transport := Response 404 "{}" |}.

Definition start : World := {| cache := Lru.empty; clock := 1000 |}.

(** The registry once it has gone down. *)
Definition down : Registry :=
  fun _ _ => {| latency := 40; transport := Response 503 "Service Unavailable" |}.

End Example.

(** ** Reading a request path back

    [decodeURIComponent] is the built-in inverse of [encodeURIComponent],
    on the bytes of the text: an escape [%XX] is the byte it names, any
    other character is itself, and a percent sign without two hexadecimal
    digits is a [URIError] ([None]); the check that the bytes read are
    well-formed UTF-8 is left out, the texts decoded here being names.  The
    module never calls it; it is what the registry does with the path, and
    the statements on the request paths are made with it. *)
Fixpoint decodeURIComponent (s : string) : option string :=
  match s with
  | EmptyString => Some EmptyString
  | String c rest =>
      if Ascii.eqb c "%" then
        match rest with
        | String h (String l rest') =>
            match Json.hexValue h, Json.hexValue l with
            | Some x, Some y =>
                option_map (String (ascii_of_N (x * 16 + y)))
                           (decodeURIComponent rest')
            | _, _ => None
            end
        | _ => None
        end
      else option_map (String c) (decodeURIComponent rest)
  end.

(** A text without a slash: one piece of [split('/')]. *)
Definition noSlash (s : string) : Prop :=
  Js.allChars (fun c => negb (Ascii.eqb c "/")) s = true.

(** ** The steps of the cached operations *)

(** The ways a cached operation can leave the cache and the clock: a
    lookup that hits moves the entry to the front and takes no time; a
    fetch that fails changes nothing but the clock; a fetch that comes
    back is followed by one write under the key. *)
Definition step_on (key : string) (w w' : World) : Prop :=
  (exists e, Lru.find key (cache w) = Some e
             /\ cache w' = e :: Lru.remove key (cache w) /\ clock w' = clock w)
  \/ (cache w' = cache w /\ (clock w <= clock w')%N)
  \/ (exists value ttl,
         cache w' = Lru.set key value ttl (clock w') (cache w)
         /\ (clock w <= clock w')%N).

(** ** An archive host to run [getPackage] against *)

Module Archive.

Definition bytes : string := "react-1.3.0.tgz: 1f 8b 08 00".

(** It holds one archive, does not answer for [offline] and knows no
    other. *)
Definition registry : Registry :=
  fun request _ =>
    if String.eqb (req_path request) "/react/-/react-1.3.0.tgz" then
      {| latency := 120; transport := Response 200 bytes |}
    else if String.eqb (req_path request) "/offline/-/offline-1.0.0.tgz" then
      {| latency := 30000; transport := NetworkError "ETIMEDOUT" |}
    else {| latency := 40; transport := Response 404 "{}" |}.

End Archive.

(** ** Two packages whose configurations share a cache key *)

Module Clash.

(** [lib] at its prerelease [2.0.0-next-1.0.0] and [lib-2.0.0-next] at
    [1.0.0]: name and version join to the same text. *)
Definition lib : json :=
  JObj [ ("name", JStr "lib");
         ("dist-tags", JObj [("latest", JStr "2.0.0-next-1.0.0")]);
         ("versions",
          JObj [ ("2.0.0-next-1.0.0", Example.fieldsOf "lib" "2.0.0-next-1.0.0") ]) ].

Definition libNext : json :=
  JObj [ ("name", JStr "lib-2.0.0-next");
         ("dist-tags", JObj [("latest", JStr "1.0.0")]);
         ("versions",
          JObj [ ("1.0.0", Example.fieldsOf "lib-2.0.0-next" "1.0.0") ]) ].

Definition registry : Registry :=
  fun request _ =>
    if String.eqb (req_path request) "/lib" then Example.ok lib
    else if String.eqb (req_path request) "/lib-2.0.0-next" then Example.ok libNext
    else {| latency := 40; transport := Response 404 "{}" |}.

End Clash.

(** ** A package with a version that is not a semantic version *)

Module Odd.

Definition banana : json :=
  JObj [ ("name", JStr "banana");
         ("dist-tags", JObj [("latest", JStr "1.0.0")]);
         ("versions",
          JObj [ ("1.0.0", Example.fieldsOf "banana" "1.0.0");
                 ("ripe", Example.fieldsOf "banana" "ripe");
                 ("1.1.0", Example.fieldsOf "banana" "1.1.0") ]) ].

Definition registry : Registry := fun _ _ => Example.ok banana.

End Odd.

(** ** A package whose versions are listed in order *)

Module Tidy.

(** Two of the versions differ in build metadata only and have the same
    precedence. *)
Definition tidy : json :=
  JObj [ ("name", JStr "tidy");
         ("dist-tags", JObj [("latest", JStr "1.10.0")]);
         ("versions",
          JObj [ ("1.2.0+linux", Example.fieldsOf "tidy" "1.2.0+linux");
                 ("1.2.0", Example.fieldsOf "tidy" "1.2.0");
                 ("1.10.0", Example.fieldsOf "tidy" "1.10.0") ]) ].

Definition registry : Registry := fun _ _ => Example.ok tidy.

End Tidy.

(** ** A package whose fields hold numbers *)

Module Heavy.

(** The registry's text for it.  Version [1.0.0] holds a count and a
    fraction; version [2.0.0] holds a number beyond the range of the
    floats. *)
Definition body : string :=
  "{" ++ Json.quote "name" ++ ":" ++ Json.quote "heavy" ++ ","
  ++ Json.quote "dist-tags" ++ ":{" ++ Json.quote "latest" ++ ":"
  ++ Json.quote "1.0.0" ++ "},"
  ++ Json.quote "versions" ++ ":{"
  ++ Json.quote "1.0.0" ++ ":{"
  ++ Json.quote "name" ++ ":" ++ Json.quote "heavy" ++ ","
  ++ Json.quote "version" ++ ":" ++ Json.quote "1.0.0" ++ ","
  ++ Json.quote "_id" ++ ":" ++ Json.quote "heavy@1.0.0" ++ ","
  ++ Json.quote "dist" ++ ":{" ++ Json.quote "fileCount" ++ ":12,"
  ++ Json.quote "unpackedSize" ++ ":1.5e3," ++ Json.quote "ratio" ++ ":0.1}},"
  ++ Json.quote "2.0.0" ++ ":{"
  ++ Json.quote "name" ++ ":" ++ Json.quote "heavy" ++ ","
  ++ Json.quote "version" ++ ":" ++ Json.quote "2.0.0" ++ ","
  ++ Json.quote "dist" ++ ":{" ++ Json.quote "fileCount" ++ ":12,"
  ++ Json.quote "unpackedSize" ++ ":1e999}}}}".

Definition registry : Registry :=
  fun _ _ => {| latency := 40; transport := Response 200 body |}.

End Heavy.

(** * Proofs *)

(** ** Strings *)

Lemma append_nil_r (s : string) : s ++ EmptyString = s.
Proof. induction s as [|c s IH]; simpl; [reflexivity | now rewrite IH]. Qed.

Lemma append_assoc (a b c : string) : (a ++ b) ++ c = a ++ (b ++ c).
Proof. induction a as [|x a IH]; simpl; [reflexivity | now rewrite IH]. Qed.

Lemma length_append (a b : string) :
  String.length (a ++ b) = String.length a + String.length b.
Proof. induction a as [|x a IH]; simpl; [reflexivity | now rewrite IH]. Qed.

Lemma allChars_append (p : ascii -> bool) (a b : string) :
  Js.allChars p (a ++ b) = Js.allChars p a && Js.allChars p b.
Proof.
  induction a as [|x a IH]; simpl; [reflexivity|].
  now rewrite IH, andb_assoc.
Qed.

Lemma allChars_weaken (p q : ascii -> bool) (s : string) :
  (forall c, p c = true -> q c = true) ->
  Js.allChars p s = true -> Js.allChars q s = true.
Proof.
  intros Hpq. induction s as [|c s IH]; simpl; [reflexivity|].
  intros H. apply andb_true_iff in H as [Hc Hs].
  now rewrite (Hpq _ Hc), IH.
Qed.

(** A property of characters that is decided by running it on all 256. *)
Ltac by_cases_on_ascii c :=
  destruct c as [[|] [|] [|] [|] [|] [|] [|] [|]]; vm_compute; intuition congruence.

(** ** URLs *)

Lemma takeUntil_all (stop keep : ascii -> bool) (s : string) :
  (forall c, keep c = true -> stop c = false) ->
  Js.allChars keep s = true -> Uri.takeUntil stop s = s.
Proof.
  intros Hk. induction s as [|c s IH]; simpl; [reflexivity|].
  intros H. apply andb_true_iff in H as [Hc Hs].
  now rewrite (Hk _ Hc), IH.
Qed.

Lemma dropUntil_all (stop keep : ascii -> bool) (s : string) :
  (forall c, keep c = true -> stop c = false) ->
  Js.allChars keep s = true -> Uri.dropUntil stop s = EmptyString.
Proof.
  intros Hk. induction s as [|c s IH]; simpl; [reflexivity|].
  intros H. apply andb_true_iff in H as [Hc Hs].
  now rewrite (Hk _ Hc), IH.
Qed.

Lemma slashes_all (keep : ascii -> bool) (s : string) :
  (forall c, keep c = true -> Ascii.eqb c "\" = false) ->
  Js.allChars keep s = true -> Uri.slashes s = s.
Proof.
  intros Hk. induction s as [|c s IH]; simpl; [reflexivity|].
  intros H. apply andb_true_iff in H as [Hc Hs].
  now rewrite (Hk _ Hc), IH.
Qed.

Lemma autoEscapeStr_all (keep : ascii -> bool) (s : string) :
  (forall c, keep c = true -> Uri.autoEscape c = false) ->
  Js.allChars keep s = true -> Uri.autoEscapeStr s = s.
Proof.
  intros Hk. induction s as [|c s IH]; simpl; [reflexivity|].
  intros H. apply andb_true_iff in H as [Hc Hs].
  now rewrite (Hk _ Hc), IH.
Qed.

Lemma written_not_query (c : ascii) :
  Uri.written c = true -> Ascii.eqb "?" c = false.
Proof. by_cases_on_ascii c. Qed.

Lemma written_not_pathEnd (c : ascii) :
  Uri.written c = true -> Uri.pathEnd c = false.
Proof. by_cases_on_ascii c. Qed.

Lemma written_not_backslash (c : ascii) :
  Uri.written c = true -> Ascii.eqb c "\" = false.
Proof. by_cases_on_ascii c. Qed.

Lemma plain_not_query (c : ascii) :
  Uri.plain c = true -> Ascii.eqb "?" c = false.
Proof. by_cases_on_ascii c. Qed.

Lemma plain_not_pathEnd (c : ascii) :
  Uri.plain c = true -> Uri.pathEnd c = false.
Proof. by_cases_on_ascii c. Qed.

Lemma plain_not_backslash (c : ascii) :
  Uri.plain c = true -> Ascii.eqb c "\" = false.
Proof. by_cases_on_ascii c. Qed.

Lemma plain_not_autoEscape (c : ascii) :
  Uri.plain c = true -> Uri.autoEscape c = false.
Proof. by_cases_on_ascii c. Qed.

Lemma autoEscapeStr_append (a b : string) :
  Uri.autoEscapeStr (a ++ b) = Uri.autoEscapeStr a ++ Uri.autoEscapeStr b.
Proof.
  induction a as [|c a IH]; simpl; [reflexivity|].
  now rewrite IH, append_assoc.
Qed.

(** The parser cuts the path at the first [?] or [#] and reads a backslash
    before it as a slash. *)
Lemma cut_step (c : ascii) (rest : string) :
  Uri.takeUntil Uri.pathEnd
    (Uri.slashes (Uri.takeUntil (Ascii.eqb "?") (String c rest))
       ++ Uri.dropUntil (Ascii.eqb "?") (String c rest))
  = if Uri.pathEnd c then EmptyString
    else String (if Ascii.eqb c "\" then "/"%char else c)
           (Uri.takeUntil Uri.pathEnd
              (Uri.slashes (Uri.takeUntil (Ascii.eqb "?") rest)
                 ++ Uri.dropUntil (Ascii.eqb "?") rest)).
Proof.
  destruct c as [[|] [|] [|] [|] [|] [|] [|] [|]]; reflexivity.
Qed.

Lemma cut_path (tail : string) :
  Uri.takeUntil Uri.pathEnd
    (Uri.slashes (Uri.takeUntil (Ascii.eqb "?") tail)
       ++ Uri.dropUntil (Ascii.eqb "?") tail)
  = Uri.slashes (Uri.takeUntil Uri.pathEnd tail).
Proof.
  induction tail as [|c tail IH]; [reflexivity|].
  rewrite cut_step, IH. cbn [Uri.takeUntil].
  now destruct (Uri.pathEnd c).
Qed.

(** The path of any URL under the registry. *)
Lemma pathname_of_any (tail : string) :
  Uri.pathname (Uri.parse (npmRegistryURL ++ "/" ++ tail))
  = "/" ++ Uri.autoEscapeStr (Uri.slashes (Uri.takeUntil Uri.pathEnd tail)).
Proof.
  unfold Uri.parse, npmRegistryURL.
  change (Uri.afterScheme ("https://registry.npmjs.org" ++ "/" ++ tail))
    with ("registry.npmjs.org" ++ "/" ++ tail).
  cbn [Uri.pathname].
  change (Uri.dropUntil (Ascii.eqb "?") ("registry.npmjs.org" ++ "/" ++ tail))
    with (Uri.dropUntil (Ascii.eqb "?") tail).
  change (Uri.takeUntil (Ascii.eqb "?") ("registry.npmjs.org" ++ "/" ++ tail))
    with ("registry.npmjs.org" ++ "/" ++ Uri.takeUntil (Ascii.eqb "?") tail).
  change (Uri.dropUntil Uri.hostEnd
            (Uri.slashes ("registry.npmjs.org" ++ "/"
                            ++ Uri.takeUntil (Ascii.eqb "?") tail)
               ++ Uri.dropUntil (Ascii.eqb "?") tail))
    with ("/" ++ (Uri.slashes (Uri.takeUntil (Ascii.eqb "?") tail)
                    ++ Uri.dropUntil (Ascii.eqb "?") tail)).
  change (Uri.takeUntil Uri.pathEnd
            ("/" ++ (Uri.slashes (Uri.takeUntil (Ascii.eqb "?") tail)
                       ++ Uri.dropUntil (Ascii.eqb "?") tail)))
    with (String "/"
            (Uri.takeUntil Uri.pathEnd
               (Uri.slashes (Uri.takeUntil (Ascii.eqb "?") tail)
                  ++ Uri.dropUntil (Ascii.eqb "?") tail))).
  rewrite cut_path. reflexivity.
Qed.

(** The parser on a URL under the registry whose path needs no cutting. *)
Lemma pathname_under_registry (keep : ascii -> bool) (path : string) :
  (forall c, keep c = true -> Ascii.eqb "?" c = false) ->
  (forall c, keep c = true -> Uri.pathEnd c = false) ->
  (forall c, keep c = true -> Ascii.eqb c "\" = false) ->
  Js.allChars keep path = true ->
  Uri.pathname (Uri.parse (npmRegistryURL ++ "/" ++ path))
  = "/" ++ Uri.autoEscapeStr path.
Proof.
  intros Hq He Hb Hp.
  unfold Uri.parse, npmRegistryURL.
  change (Uri.afterScheme ("https://registry.npmjs.org" ++ "/" ++ path))
    with ("registry.npmjs.org" ++ "/" ++ path).
  assert (Hcut : Uri.takeUntil (Ascii.eqb "?") ("registry.npmjs.org" ++ "/" ++ path)
                 = "registry.npmjs.org" ++ "/" ++ path).
  { simpl. do 19 f_equal. now apply takeUntil_all with keep. }
  assert (Hnone : Uri.dropUntil (Ascii.eqb "?") ("registry.npmjs.org" ++ "/" ++ path)
                  = EmptyString).
  { simpl. now apply dropUntil_all with keep. }
  rewrite Hcut, Hnone, append_nil_r.
  assert (Hs : Uri.slashes ("registry.npmjs.org" ++ "/" ++ path)
               = "registry.npmjs.org" ++ "/" ++ path).
  { simpl. do 19 f_equal. now apply slashes_all with keep. }
  rewrite Hs. cbn [Uri.pathname].
  change (Uri.dropUntil Uri.hostEnd ("registry.npmjs.org" ++ "/" ++ path))
    with ("/" ++ path).
  change (Uri.takeUntil Uri.pathEnd ("/" ++ path))
    with (String "/" (Uri.takeUntil Uri.pathEnd path)).
  rewrite (takeUntil_all Uri.pathEnd keep path He Hp).
  reflexivity.
Qed.

(** ** The request paths *)

Lemma percent_written (c : ascii) : Js.allChars Uri.written (Uri.percent c) = true.
Proof. by_cases_on_ascii c. Qed.

Lemma encodeURIComponent_written (s : string) :
  Js.allChars Uri.written (Uri.encodeURIComponent s) = true.
Proof.
  induction s as [|c s IH]; simpl; [reflexivity|].
  rewrite allChars_append, IH, andb_true_r.
  destruct (Uri.unreserved c) eqn:Hc.
  - simpl. unfold Uri.written. now rewrite Hc.
  - apply percent_written.
Qed.

Lemma encodePackageName_written (packageName : string) :
  Js.allChars Uri.written (encodePackageName packageName) = true.
Proof.
  unfold encodePackageName.
  destruct (isScopedPackageName packageName).
  - simpl. apply encodeURIComponent_written.
  - apply encodeURIComponent_written.
Qed.

Lemma infoRequest_path (packageName : string) :
  req_path (infoRequest packageName)
  = "/" ++ Uri.autoEscapeStr (encodePackageName packageName).
Proof.
  unfold infoRequest, infoURL. cbn [req_path].
  apply pathname_under_registry with Uri.written;
    auto using written_not_query, written_not_pathEnd, written_not_backslash,
               encodePackageName_written.
Qed.

Lemma tarballRequest_path (packageName version : string) :
  Uri.plainText packageName -> Uri.plainText (tarballName packageName) ->
  Uri.plainText version ->
  req_path (tarballRequest packageName version)
  = "/" ++ packageName ++ "/-/" ++ tarballName packageName ++ "-" ++ version ++ ".tgz".
Proof.
  unfold Uri.plainText. intros Hn Ht Hv.
  assert (Hall : Js.allChars Uri.plain
                   (packageName ++ "/-/" ++ tarballName packageName ++ "-"
                      ++ version ++ ".tgz") = true).
  { repeat rewrite allChars_append. now rewrite Hn, Ht, Hv. }
  unfold tarballRequest, tarballURL. cbn [req_path].
  rewrite pathname_under_registry with (keep := Uri.plain);
    auto using plain_not_query, plain_not_pathEnd, plain_not_backslash.
  now rewrite (autoEscapeStr_all Uri.plain _ plain_not_autoEscape Hall).
Qed.

Lemma segment_plain (s : string) : Uri.segment s -> Uri.plainText s.
Proof.
  apply allChars_weaken. intros c H. now apply andb_true_iff in H as [H _].
Qed.

Lemma split_segment (s : string) : Uri.segment s -> Js.split "/" s = [s].
Proof.
  unfold Uri.segment. induction s as [|c s IH]; simpl; [reflexivity|].
  intros H. apply andb_true_iff in H as [Hc Hs].
  apply andb_true_iff in Hc as [_ Hc]. apply negb_true_iff in Hc.
  now rewrite Hc, (IH Hs).
Qed.

Lemma split_at_slash (a b : string) :
  Uri.segment a -> Js.split "/" (a ++ "/" ++ b) = a :: Js.split "/" b.
Proof.
  unfold Uri.segment. induction a as [|c a IH]; simpl in *; [reflexivity|].
  intros H. apply andb_true_iff in H as [Hc Ha].
  apply andb_true_iff in Hc as [_ Hc]. apply negb_true_iff in Hc.
  now rewrite Hc, (IH Ha).
Qed.

Lemma tarballName_scoped (scope pkg : string) :
  Uri.segment scope -> Uri.segment pkg ->
  tarballName ("@" ++ scope ++ "/" ++ pkg) = pkg.
Proof.
  intros Hs Hp.
  assert (Hsplit : Js.split "/" ("@" ++ scope ++ "/" ++ pkg) = ["@" ++ scope; pkg]).
  { rewrite <- (split_segment Hp).
    apply (@split_at_slash ("@" ++ scope) pkg). exact Hs. }
  unfold tarballName.
  change (isScopedPackageName ("@" ++ scope ++ "/" ++ pkg)) with true.
  now rewrite Hsplit.
Qed.

Lemma endsWith_append (front suffix : string) : Js.endsWith (front ++ suffix) suffix.
Proof. now exists front. Qed.

(** C7.  For a scoped name [@scope/pkg] the path of the archive request
    that [getPackage] sends ends in [/pkg-v.tgz], the base name being the
    segment after the scope; for an unscoped name the whole name is the
    base name.  Names and versions are registry identifiers: texts the URL
    parser hands through unchanged. *)
Theorem getPackage_tarball_base_name (scope pkg name v : string) :
  Uri.segment scope -> Uri.segment pkg ->
  Uri.plainText name -> isScopedPackageName name = false ->
  Uri.plainText v ->
  (tarballName ("@" ++ scope ++ "/" ++ pkg) = pkg
   /\ Js.endsWith (req_path (tarballRequest ("@" ++ scope ++ "/" ++ pkg) v))
                  ("/" ++ pkg ++ "-" ++ v ++ ".tgz"))
  /\ (tarballName name = name
      /\ Js.endsWith (req_path (tarballRequest name v))
                     ("/" ++ name ++ "-" ++ v ++ ".tgz")).
Proof.
  intros Hs Hp Hn Hu Hv.
  pose proof (tarballName_scoped Hs Hp) as Ht.
  assert (Hu' : tarballName name = name) by (unfold tarballName; now rewrite Hu).
  repeat split; auto.
  - rewrite tarballRequest_path; rewrite ?Ht; auto using segment_plain.
    + exists ("/" ++ ("@" ++ scope ++ "/" ++ pkg) ++ "/-").
      now rewrite !append_assoc.
    + unfold Uri.plainText. simpl.
      rewrite allChars_append. rewrite (segment_plain Hs). simpl.
      apply (segment_plain Hp).
  - rewrite tarballRequest_path; rewrite ?Hu'; auto.
    exists ("/" ++ name ++ "/-"). now rewrite !append_assoc.
Qed.

Lemma getPackage_tarball_base_name_witness :
  Js.endsWith (req_path (tarballRequest "@scope/pkg" "1.0.0")) "/pkg-1.0.0.tgz"
  /\ Js.endsWith (req_path (tarballRequest "lodash" "4.17.21")) "/lodash-4.17.21.tgz".
Proof.
  pose proof (@getPackage_tarball_base_name "scope" "pkg" "lodash" "1.0.0"
                eq_refl eq_refl eq_refl eq_refl eq_refl) as [[_ H1] _].
  pose proof (@getPackage_tarball_base_name "scope" "pkg" "lodash" "4.17.21"
                eq_refl eq_refl eq_refl eq_refl eq_refl) as [_ [_ H2]].
  split; [exact H1 | exact H2].
Defined.

(** C9, as stated, fails: the archive request of [getPackage] carries the
    identifier as it is, so the path of a scoped name keeps its slash where
    the encoding writes [%2F]. *)
Lemma archive_path_is_not_encoded :
  ~ (forall packageName version : string,
        Js.startsWith (req_path (tarballRequest packageName version))
                      ("/" ++ encodePackageName packageName) = true).
Proof.
  intros H. specialize (H "@scope/pkg" "1.0.0"). vm_compute in H. discriminate H.
Qed.

Lemma pathSafe_char (c : ascii) :
  Uri.autoEscapeStr (if Uri.unreserved c then String c EmptyString else Uri.percent c)
  = if Uri.pathSafe c then String c EmptyString else Uri.percent c.
Proof.
  destruct c as [[|] [|] [|] [|] [|] [|] [|] [|]]; reflexivity.
Qed.

(** What the URL parser leaves of [encodeURIComponent] is a
    percent-encoding again, with the apostrophe escaped too. *)
Lemma autoEscapeStr_encodeURIComponent (s : string) :
  Uri.autoEscapeStr (Uri.encodeURIComponent s) = Uri.percentEncoded Uri.pathSafe s.
Proof.
  induction s as [|c s IH]; [reflexivity|].
  cbn [Uri.encodeURIComponent Uri.percentEncoded].
  now rewrite autoEscapeStr_append, pathSafe_char, IH.
Qed.

(** C9, amended.  The path of the metadata request is a slash and the
    identifier percent-encoded: every byte other than a letter, a digit or
    one of the marks [-_.!~*()] is written [%XX], a leading [@] being
    written as it is before the encoding of the rest.  The archive request
    does not encode the identifier: its path is the text
    [/name/-/base-version.tgz] as the URL parser reads it, which cuts it at
    the first [?] or [#], reads a backslash as a slash and escapes only the
    characters it never leaves in a URL; a name and a version of other
    characters, the slash of a scoped name included, are in the path as
    they are.  Each function reaches the registry through that request
    only. *)
Theorem request_paths (packageName version : string) :
  req_path (infoRequest packageName)
  = "/" ++ (if isScopedPackageName packageName
            then "@" ++ Uri.percentEncoded Uri.pathSafe (Js.substring1 packageName)
            else Uri.percentEncoded Uri.pathSafe packageName)
  /\ req_path (tarballRequest packageName version)
     = "/" ++ Uri.autoEscapeStr
                (Uri.slashes
                   (Uri.takeUntil Uri.pathEnd
                      (packageName ++ "/-/" ++ tarballName packageName
                         ++ "-" ++ version ++ ".tgz")))
  /\ (Uri.plainText packageName -> Uri.plainText (tarballName packageName) ->
      Uri.plainText version ->
      req_path (tarballRequest packageName version)
      = "/" ++ packageName ++ "/-/" ++ tarballName packageName
            ++ "-" ++ version ++ ".tgz")
  /\ (forall (registry registry' : Registry) (w : World),
        registry (infoRequest packageName) (clock w)
        = registry' (infoRequest packageName) (clock w) ->
        fetchPackageInfo registry packageName w
        = fetchPackageInfo registry' packageName w)
  /\ (forall (registry registry' : Registry) (w : World),
        registry (tarballRequest packageName version) (clock w)
        = registry' (tarballRequest packageName version) (clock w) ->
        getPackage registry packageName version w
        = getPackage registry' packageName version w).
Proof.
  split; [|split; [|split; [apply tarballRequest_path|]]].
  - rewrite infoRequest_path. unfold encodePackageName.
    destruct (isScopedPackageName packageName).
    + change (Uri.autoEscapeStr ("@" ++ ?x)) with ("@" ++ Uri.autoEscapeStr x).
      now rewrite autoEscapeStr_encodeURIComponent.
    + now rewrite autoEscapeStr_encodeURIComponent.
  - unfold tarballRequest, tarballURL. cbn [req_path]. apply pathname_of_any.
  - split; intros registry registry' w H.
    + unfold fetchPackageInfo, bind, get. now rewrite H.
    + unfold getPackage, bind, get. now rewrite H.
Qed.

Lemma request_paths_witness :
  req_path (infoRequest "@scope/pkg") = "/@scope%2Fpkg"
  /\ req_path (tarballRequest "@scope/pkg" "1.0.0") = "/@scope/pkg/-/pkg-1.0.0.tgz"
  /\ req_path (infoRequest "it's") = "/it%27s"
  /\ req_path (tarballRequest "it's" "1.0.0 beta?x") = "/it%27s/-/it%27s-1.0.0%20beta".
Proof.
  destruct (request_paths "@scope/pkg" "1.0.0") as (Hinfo & _ & Hplain & _).
  destruct (request_paths "it's" "1.0.0 beta?x") as (Hinfo' & Hany & _).
  split; [|split; [|split]].
  - rewrite Hinfo. reflexivity.
  - rewrite Hplain; reflexivity.
  - rewrite Hinfo'. reflexivity.
  - rewrite Hany. reflexivity.
Defined.

(** ** Objects *)

Section ObjectFacts.
Variable V : Type.
Implicit Types (o : Js.object V) (k : string) (v : V).


Lemma own_keys k o : In k (Js.keys o) <-> Js.own k o <> None.
Proof.
  induction o as [|[k0 v0] o IH]; simpl.
  - split; [tauto | congruence].
  - destruct (String.eqb_spec k k0) as [->|Hne].
    + split; [congruence | auto].
    + rewrite <- IH. split; [intros [E|H]; [congruence|exact H] | auto].
Qed.

Lemma keys_set k v o :
  Js.keys (Js.set k v o)
  = if Js.includes (Js.keys o) k then Js.keys o else (Js.keys o ++ [k])%list.
Proof.
  induction o as [|[k0 v0] o IH]; simpl.
  - reflexivity.
  - destruct (String.eqb_spec k k0) as [->|Hne]; simpl.
    + reflexivity.
    + rewrite IH. unfold Js.includes. now destruct (existsb (String.eqb k) (Js.keys o)).
Qed.
End ObjectFacts.

Lemma includes_In (a : list string) (x : string) :
  Js.includes a x = true <-> In x a.
Proof.
  unfold Js.includes. rewrite existsb_exists. split.
  - intros (y & Hy & E). apply String.eqb_eq in E. now subst.
  - intros H. exists x. split; [exact H | apply String.eqb_refl].
Qed.

Lemma includes_not_In (a : list string) (x : string) :
  Js.includes a x = false <-> ~ In x a.
Proof.
  rewrite <- includes_In. destruct (Js.includes a x); intuition congruence.
Qed.

(** ** The cache *)

Lemma get_miss (key : string) (now : N) (c : Lru.t) :
  fst (Lru.get key now c) = None -> Lru.get key now c = (None, c).
Proof.
  unfold Lru.get. destruct (Lru.find key c) as [e|]; [|reflexivity].
  destruct (Lru.isStale now e); [reflexivity | discriminate].
Qed.

Lemma find_remove (key : string) (c : Lru.t) : Lru.find key (Lru.remove key c) = None.
Proof.
  induction c as [|e c IH]; simpl; [reflexivity|].
  destruct (String.eqb key (Lru.e_key e)) eqn:E; simpl; [exact IH|].
  now rewrite E.
Qed.

Lemma find_prefix (key : string) (front back : Lru.t) (e : Lru.entry) :
  Lru.find key front = Some e -> Lru.find key (front ++ back)%list = Some e.
Proof.
  induction front as [|x front IH]; simpl; [discriminate|].
  destruct (String.eqb key (Lru.e_key x)); auto.
Qed.

Lemma find_of_prefix (key : string) (front back : Lru.t) :
  Lru.find key (front ++ back)%list = None -> Lru.find key front = None.
Proof.
  induction front as [|x front IH]; simpl; [reflexivity|].
  destruct (String.eqb key (Lru.e_key x)); auto.
Qed.

Lemma total_app (a b : Lru.t) : Lru.total (a ++ b)%list = (Lru.total a + Lru.total b)%N.
Proof.
  unfold Lru.total. induction a as [|e a IH]; simpl; [reflexivity|].
  fold (Lru.total (a ++ b)%list) in *. fold (Lru.total a) in *. fold (Lru.total b) in *.
  rewrite IH. lia.
Qed.

Lemma total_rev (c : Lru.t) : Lru.total (rev c) = Lru.total c.
Proof.
  induction c as [|e c IH]; simpl; [reflexivity|].
  rewrite total_app, IH. unfold Lru.total at 2 3. simpl. fold (Lru.total c). lia.
Qed.

(** Eviction keeps a tail of the list it walks. *)
Lemma evict_suffix (l : list Lru.entry) (size : N) :
  exists dropped, l = (dropped ++ Lru.evict l size)%list.
Proof.
  revert size. induction l as [|e l IH]; intros size; simpl.
  - now exists [].
  - destruct (Lru.max <? size)%N.
    + destruct (IH (size - Lru.e_length e)%N) as [d Hd].
      exists (e :: d). simpl. now rewrite <- Hd.
    + now exists [].
Qed.

(** It stops before an entry that fits the budget on its own. *)
Lemma evict_keeps_last (l : list Lru.entry) (e : Lru.entry) :
  (Lru.e_length e <= Lru.max)%N ->
  exists kept, Lru.evict (l ++ [e])%list (Lru.total (l ++ [e])%list) = (kept ++ [e])%list.
Proof.
  intros Hfit. induction l as [|x l IH]; simpl.
  - assert (E : (Lru.max <? Lru.e_length e + 0)%N = false) by (apply N.ltb_ge; lia).
    rewrite E. now exists [].
  - fold (Lru.total (l ++ [e])%list).
    destruct (Lru.max <? _)%N.
    + replace (Lru.e_length x + Lru.total (l ++ [e])%list - Lru.e_length x)%N
        with (Lru.total (l ++ [e])%list) by lia.
      exact IH.
    + now exists (x :: l).
Qed.

Lemma trim_prefix (c : Lru.t) : exists dropped, c = (Lru.trim c ++ dropped)%list.
Proof.
  unfold Lru.trim.
  destruct (evict_suffix (rev c) (Lru.total c)) as [d Hd].
  exists (rev d).
  rewrite <- rev_app_distr, <- Hd. now rewrite rev_involutive.
Qed.

Lemma trim_keeps_head (e : Lru.entry) (c : Lru.t) :
  (Lru.e_length e <= Lru.max)%N ->
  exists kept, Lru.trim (e :: c) = e :: kept.
Proof.
  intros Hfit. unfold Lru.trim.
  rewrite <- total_rev. simpl rev.
  destruct (evict_keeps_last (rev c) e Hfit) as [kept Hk].
  rewrite Hk, rev_app_distr. simpl. now exists (rev kept).
Qed.

(** A value that fits is at the head of the cache after [set], with the
    time to live it was set with. *)
Lemma set_head (key value : string) (ttl now : N) (c : Lru.t) :
  ttl <> 0%N -> (Lru.length value <= Lru.max)%N ->
  exists rest, Lru.set key value ttl now c = Lru.written key value ttl now :: rest.
Proof.
  intros Httl Hfit. unfold Lru.set.
  apply N.eqb_neq in Httl. rewrite Httl.
  assert (E : (Lru.max <? Lru.length value)%N = false) by (apply N.ltb_ge; lia).
  rewrite E. apply trim_keeps_head. exact Hfit.
Qed.

(** After [set], a lookup of the key finds the value set or nothing. *)
Lemma find_after_set (key value : string) (ttl now : N) (c : Lru.t) (e : Lru.entry) :
  Lru.find key (Lru.set key value ttl now c) = Some e ->
  e = Lru.written key value (if (ttl =? 0)%N then Lru.maxAge else ttl) now.
Proof.
  unfold Lru.set.
  destruct (Lru.max <? Lru.length value)%N.
  - now rewrite find_remove.
  - set (new := Lru.written key value _ now).
    destruct (trim_prefix (new :: Lru.remove key c)) as [d Hd].
    intros H. pose proof (@find_prefix key _ d e H) as H'.
    rewrite <- Hd in H'. simpl in H'. rewrite String.eqb_refl in H'.
    now injection H' as <-.
Qed.


(** ** Fetching *)

Ltac run :=
  unfold bind, ret, throw, cache_get, cache_set, get; simpl.

Lemma fetchPackageInfo_world (registry : Registry) (packageName : string) (w : World) :
  snd (fetchPackageInfo registry packageName w)
  = {| cache := cache w;
       clock := (clock w + latency (registry (infoRequest packageName) (clock w)))%N |}.
Proof.
  unfold fetchPackageInfo. run.
  destruct (transport _) as [m|status body]; [reflexivity|].
  destruct (status =? 200)%N.
  - now destruct (Json.parse body).
  - now destruct (status =? 404)%N.
Qed.

Lemma fetchVersionsAndTags_world (registry : Registry) (packageName : string) (w : World) :
  snd (fetchVersionsAndTags registry packageName w)
  = snd (fetchPackageInfo registry packageName w).
Proof.
  unfold fetchVersionsAndTags, bind.
  destruct (fetchPackageInfo registry packageName w) as [[info|e] w1]; [|reflexivity].
  destruct (Json.falsy info); [reflexivity|].
  now destruct (packageInfo info).
Qed.

Lemma fetchPackageConfig_world (registry : Registry) (packageName version : string)
      (w : World) :
  snd (fetchPackageConfig registry packageName version w)
  = snd (fetchPackageInfo registry packageName w).
Proof.
  unfold fetchPackageConfig, bind.
  destruct (fetchPackageInfo registry packageName w) as [[info|e] w1]; [|reflexivity].
  destruct (Json.falsy info); [reflexivity|].
  destruct (packageInfo info) as [i|]; [|reflexivity].
  destruct (negb _); [reflexivity|].
  now destruct (Js.get version (info_versions i)).
Qed.

Lemma packageInfo_truthy (doc : json) (i : PackageInfo) :
  packageInfo doc = Some i -> Json.falsy doc = false.
Proof. destruct doc; simpl; congruence. Qed.

(** What a lookup that misses leaves to do. *)
Lemma getVersionsAndTags_miss (registry : Registry) (packageName : string)
      (w : World) :
  fst (Lru.get ("versions-" ++ packageName) (clock w) (cache w)) = None ->
  getVersionsAndTags registry packageName w
  = match fetchVersionsAndTags registry packageName w with
    | (Returned None, w1) =>
        (Returned None,
         {| cache := Lru.set ("versions-" ++ packageName) notFound (5 * oneMinute)
                             (clock w1) (cache w1);
            clock := clock w1 |})
    | (Returned (Some v), w1) =>
        (Returned (Some v),
         {| cache := Lru.set ("versions-" ++ packageName)
                             (Json.stringify (jsonOfVersionsAndTags v)) oneMinute
                             (clock w1) (cache w1);
            clock := clock w1 |})
    | (Thrown e, w1) => (Thrown e, w1)
    end.
Proof.
  intros Hmiss. apply get_miss in Hmiss.
  unfold getVersionsAndTags, bind at 1, cache_get. rewrite Hmiss.
  destruct w as [c t]. simpl. unfold bind at 1.
  destruct (fetchVersionsAndTags registry packageName _) as [[[v|]|e] w1]; reflexivity.
Qed.

Lemma getPackageConfig_miss (registry : Registry) (packageName version : string)
      (w : World) :
  fst (Lru.get ("config-" ++ packageName ++ "-" ++ version) (clock w) (cache w)) = None ->
  getPackageConfig registry packageName version w
  = match fetchPackageConfig registry packageName version w with
    | (Returned None, w1) =>
        (Returned None,
         {| cache := Lru.set ("config-" ++ packageName ++ "-" ++ version) notFound
                             (5 * oneMinute) (clock w1) (cache w1);
            clock := clock w1 |})
    | (Returned (Some v), w1) =>
        (Returned (Some v),
         {| cache := Lru.set ("config-" ++ packageName ++ "-" ++ version)
                             (Json.stringify (JObj v)) oneMinute
                             (clock w1) (cache w1);
            clock := clock w1 |})
    | (Thrown e, w1) => (Thrown e, w1)
    end.
Proof.
  intros Hmiss. apply get_miss in Hmiss.
  unfold getPackageConfig, bind at 1, cache_get. rewrite Hmiss.
  destruct w as [c t]. simpl. unfold bind at 1.
  destruct (fetchPackageConfig registry packageName version _) as [[[v|]|e] w1];
    reflexivity.
Qed.

(** C4.  On a metadata fetch a response of status 200 gives the parsed
    document, a response of status 404 gives [null] and is no error, and
    any other status throws an error whose message carries the status code
    and the text of the body; it never turns into a returned value. *)
Theorem fetchPackageInfo_by_status (registry : Registry) (packageName : string)
        (w : World) (statusCode : N) (body : string) :
  transport (registry (infoRequest packageName) (clock w)) = Response statusCode body ->
  let w' := {| cache := cache w;
               clock := (clock w + latency (registry (infoRequest packageName)
                                                     (clock w)))%N |} in
  (statusCode = 200%N ->
   forall doc, Json.parse body = Some doc ->
               fetchPackageInfo registry packageName w = (Returned doc, w'))
  /\ (statusCode = 404%N ->
      fetchPackageInfo registry packageName w = (Returned JNull, w'))
  /\ (statusCode <> 200%N -> statusCode <> 404%N ->
      fetchPackageInfo registry packageName w
      = (Thrown (Error ("Failed to fetch info for " ++ packageName ++ newline
                        ++ "status: " ++ Js.showN statusCode ++ newline
                        ++ "data: " ++ body)), w')
      /\ forall value, fst (fetchPackageInfo registry packageName w) <> Returned value).
Proof.
  intros Hreply w'. subst w'.
  unfold fetchPackageInfo. run. rewrite Hreply.
  split; [|split].
  - intros -> doc ->. reflexivity.
  - intros ->. reflexivity.
  - intros Hok Hmissing. apply N.eqb_neq in Hok, Hmissing.
    rewrite Hok, Hmissing. split; [reflexivity | discriminate].
Qed.

Lemma fetchPackageInfo_by_status_witness :
  let registry : Registry :=
    fun _ _ => {| latency := 7; transport := Response 500 "Internal Server Error" |} in
  let w := {| cache := Lru.empty; clock := 0 |} in
  fetchPackageInfo registry "react" w
  = (Thrown (Error ("Failed to fetch info for react" ++ newline ++ "status: 500"
                    ++ newline ++ "data: Internal Server Error")),
     {| cache := Lru.empty; clock := 7 |}).
Proof.
  intros registry w.
  destruct (@fetchPackageInfo_by_status registry "react" w 500 "Internal Server Error"
              eq_refl) as (_ & _ & H).
  destruct H as [H _]; [discriminate | discriminate |].
  exact H.
Defined.

(** ** The cache policy *)

Lemma notFound_fits : (Lru.length notFound <= Lru.max)%N.
Proof. vm_compute. discriminate. Qed.

(** C5.  When a lookup misses and the fetch comes back, a positive result
    (the version list with the tag map, or the filtered configuration) is
    written to the cache with a time to live of 60 seconds and a negative
    one ([null]: no such package, no such version) with a time to live of
    5 minutes.  The cache after the call is the cache before it after that
    one [set]; the entry written heads it whenever the text fits the byte
    budget, which the empty marker always does.  A response of status 404
    makes both results negative, and so does a version that is no key of
    the document's versions (nor a name every object inherits, for which
    the [in] test of the source succeeds). *)
Theorem results_are_cached_with_their_ttl (registry : Registry)
        (packageName version : string) (w : World) :
  let vkey := "versions-" ++ packageName in
  let ckey := "config-" ++ packageName ++ "-" ++ version in
  let after := fun (w1 : World) (c : Lru.t) => {| cache := c; clock := clock w1 |} in
  (fst (Lru.get vkey (clock w) (cache w)) = None ->
   (forall v w1,
       fetchVersionsAndTags registry packageName w = (Returned (Some v), w1) ->
       let text := Json.stringify (jsonOfVersionsAndTags v) in
       getVersionsAndTags registry packageName w
       = (Returned (Some v),
          after w1 (Lru.set vkey text (60 * oneSecond) (clock w1) (cache w)))
       /\ ((Lru.length text <= Lru.max)%N ->
           exists rest,
             Lru.set vkey text (60 * oneSecond) (clock w1) (cache w)
             = Lru.written vkey text (60 * oneSecond) (clock w1) :: rest))
   /\ (forall w1,
         fetchVersionsAndTags registry packageName w = (Returned None, w1) ->
         getVersionsAndTags registry packageName w
         = (Returned None,
            after w1 (Lru.set vkey notFound (5 * 60 * oneSecond) (clock w1) (cache w)))
         /\ exists rest,
             Lru.set vkey notFound (5 * 60 * oneSecond) (clock w1) (cache w)
             = Lru.written vkey notFound (5 * 60 * oneSecond) (clock w1) :: rest))
  /\ (fst (Lru.get ckey (clock w) (cache w)) = None ->
      (forall c w1,
          fetchPackageConfig registry packageName version w = (Returned (Some c), w1) ->
          let text := Json.stringify (JObj c) in
          getPackageConfig registry packageName version w
          = (Returned (Some c),
             after w1 (Lru.set ckey text (60 * oneSecond) (clock w1) (cache w)))
          /\ ((Lru.length text <= Lru.max)%N ->
              exists rest,
                Lru.set ckey text (60 * oneSecond) (clock w1) (cache w)
                = Lru.written ckey text (60 * oneSecond) (clock w1) :: rest))
      /\ (forall w1,
            fetchPackageConfig registry packageName version w = (Returned None, w1) ->
            getPackageConfig registry packageName version w
            = (Returned None,
               after w1 (Lru.set ckey notFound (5 * 60 * oneSecond) (clock w1) (cache w)))
            /\ exists rest,
                Lru.set ckey notFound (5 * 60 * oneSecond) (clock w1) (cache w)
                = Lru.written ckey notFound (5 * 60 * oneSecond) (clock w1) :: rest))
  /\ (forall body,
        transport (registry (infoRequest packageName) (clock w)) = Response 404 body ->
        fst (fetchVersionsAndTags registry packageName w) = Returned None
        /\ fst (fetchPackageConfig registry packageName version w) = Returned None)
  /\ (forall body doc info,
        transport (registry (infoRequest packageName) (clock w)) = Response 200 body ->
        Json.parse body = Some doc -> packageInfo doc = Some info ->
        Js.own version (info_versions info) = None -> Js.inherited version = false ->
        fst (fetchPackageConfig registry packageName version w) = Returned None).
Proof.
  intros vkey ckey after.
  assert (Ev : forall value w1,
             fetchVersionsAndTags registry packageName w = (Returned value, w1) ->
             cache w1 = cache w).
  { intros value w1 Hf.
    pose proof (fetchVersionsAndTags_world registry packageName w) as E.
    rewrite Hf, fetchPackageInfo_world in E. simpl in E. now rewrite E. }
  assert (Ec : forall value w1,
             fetchPackageConfig registry packageName version w = (Returned value, w1) ->
             cache w1 = cache w).
  { intros value w1 Hf.
    pose proof (fetchPackageConfig_world registry packageName version w) as E.
    rewrite Hf, fetchPackageInfo_world in E. simpl in E. now rewrite E. }
  assert (H60 : (60 * oneSecond)%N <> 0%N) by (vm_compute; discriminate).
  assert (H300 : (5 * 60 * oneSecond)%N <> 0%N) by (vm_compute; discriminate).
  split; [|split; [|split]].
  - intros Hmiss. split.
    + intros v w1 Hfetch text. split.
      * rewrite (getVersionsAndTags_miss registry packageName w Hmiss), Hfetch.
        now rewrite (Ev _ _ Hfetch).
      * intros Hfit. now apply set_head.
    + intros w1 Hfetch. split.
      * rewrite (getVersionsAndTags_miss registry packageName w Hmiss), Hfetch.
        now rewrite (Ev _ _ Hfetch).
      * apply set_head; [exact H300 | apply notFound_fits].
  - intros Hmiss. split.
    + intros c w1 Hfetch text. split.
      * rewrite (getPackageConfig_miss registry packageName version w Hmiss), Hfetch.
        now rewrite (Ec _ _ Hfetch).
      * intros Hfit. now apply set_head.
    + intros w1 Hfetch. split.
      * rewrite (getPackageConfig_miss registry packageName version w Hmiss), Hfetch.
        now rewrite (Ec _ _ Hfetch).
      * apply set_head; [exact H300 | apply notFound_fits].
  - intros body Hreply.
    unfold fetchVersionsAndTags, fetchPackageConfig, fetchPackageInfo. run.
    now rewrite Hreply.
  - intros body doc info Hreply Hparse Hinfo Hown Hinherited.
    unfold fetchPackageConfig, fetchPackageInfo. run.
    rewrite Hreply. simpl. rewrite Hparse, (packageInfo_truthy _ Hinfo), Hinfo.
    unfold Js.has. now rewrite Hown, Hinherited.
Qed.

(** C8.  When the fetch fails (an unexpected status, a transport error)
    after a lookup that missed, every operation throws that same error and
    nothing is written: the cache after the call is the cache before
    it. *)
Theorem failures_are_not_cached {S : Semver} (registry : Registry)
        (packageName version range : string) (w w1 : World) (e : Exception) :
  fetchPackageInfo registry packageName w = (Thrown e, w1) ->
  cache w1 = cache w
  /\ (fst (Lru.get ("versions-" ++ packageName) (clock w) (cache w)) = None ->
      getVersionsAndTags registry packageName w = (Thrown e, w1)
      /\ getAvailableVersions registry packageName w = (Thrown e, w1)
      /\ resolveVersion registry packageName range w = (Thrown e, w1))
  /\ (fst (Lru.get ("config-" ++ packageName ++ "-" ++ version) (clock w) (cache w))
      = None ->
      getPackageConfig registry packageName version w = (Thrown e, w1)).
Proof.
  intros Hfetch. split; [|split].
  - pose proof (fetchPackageInfo_world registry packageName w) as E.
    rewrite Hfetch in E. simpl in E. now rewrite E.
  - intros Hmiss.
    assert (Hvt : getVersionsAndTags registry packageName w = (Thrown e, w1)).
    { rewrite (getVersionsAndTags_miss registry packageName w Hmiss).
      unfold fetchVersionsAndTags, bind. now rewrite Hfetch. }
    split; [exact Hvt|]. split.
    + unfold getAvailableVersions, bind. now rewrite Hvt.
    + unfold resolveVersion, bind. now rewrite Hvt.
  - intros Hmiss.
    rewrite (getPackageConfig_miss registry packageName version w Hmiss).
    unfold fetchPackageConfig, bind. now rewrite Hfetch.
Qed.

(** ** The configuration filter *)







(** ** Precedence of the semver collaborator is a total order *)

Section Orderings.

Lemma ordering_le_trans (A : Type) (cmp : A -> A -> comparison) :
  ordering cmp ->
  forall a b c, cmp a b <> Gt -> cmp b c <> Gt -> cmp a c <> Gt.
Proof.
  intros O a b c Hab Hbc.
  destruct (cmp a b) eqn:Eab; [| |congruence].
  - apply (cmp_eq O) in Eab. now subst.
  - destruct (cmp b c) eqn:Ebc; [| |congruence].
    + apply (cmp_eq O) in Ebc. subst. now rewrite Eab.
    + now rewrite (cmp_lt_trans O _ _ _ Eab Ebc).
Qed.

Lemma ordering_N : ordering N.compare.
Proof.
  split.
  - intros a b. apply N.compare_eq_iff.
  - apply N.compare_refl.
  - intros a b. apply N.compare_antisym.
  - intros a b c. rewrite !N.compare_lt_iff. lia.
Qed.

Lemma ordering_ascii : ordering Ascii.compare.
Proof.
  split.
  - apply Ascii.compare_eq_iff.
  - intros a. unfold Ascii.compare. apply N.compare_refl.
  - intros a b. unfold Ascii.compare. apply N.compare_antisym.
  - intros a b c. unfold Ascii.compare. rewrite !N.compare_lt_iff. lia.
Qed.

Lemma ordering_string : ordering String.compare.
Proof.
  pose proof ordering_ascii as OA.
  split.
  - intros a b E. now apply String.compare_eq_iff.
  - induction a as [|x a IH]; simpl; [reflexivity|].
    now rewrite (cmp_refl OA).
  - intros a b. apply String.compare_antisym.
  - induction a as [|x a IH]; intros [|y b] [|z c]; simpl; try congruence.
    destruct (Ascii.compare x y) eqn:Exy; try congruence.
    + apply (cmp_eq OA) in Exy. subst y.
      destruct (Ascii.compare x z); try congruence. apply IH.
    + destruct (Ascii.compare y z) eqn:Eyz; try congruence.
      * apply (cmp_eq OA) in Eyz. subst z. now rewrite Exy.
      * now rewrite (cmp_lt_trans OA _ _ _ Exy Eyz).
Qed.

Lemma ordering_lex (A B : Type) (ca : A -> A -> comparison)
      (cb : B -> B -> comparison) :
  ordering ca -> ordering cb -> ordering (lex ca cb).
Proof.
  intros OA OB. unfold lex, NodeSemver.thenCompare. split.
  - intros [a1 b1] [a2 b2]. simpl.
    destruct (ca a1 a2) eqn:Ea; try discriminate.
    intros Eb. apply (cmp_eq OA) in Ea. apply (cmp_eq OB) in Eb. now subst.
  - intros [a b]. simpl. now rewrite (cmp_refl OA), (cmp_refl OB).
  - intros [a1 b1] [a2 b2]. simpl.
    rewrite (cmp_antisym OA a1 a2).
    destruct (ca a1 a2); simpl; auto. apply (cmp_antisym OB).
  - intros [a1 b1] [a2 b2] [a3 b3]. simpl.
    destruct (ca a1 a2) eqn:E12; try discriminate.
    + apply (cmp_eq OA) in E12. subst a2.
      destruct (ca a1 a3); auto. apply (cmp_lt_trans OB).
    + intros _. destruct (ca a2 a3) eqn:E23; try discriminate.
      * apply (cmp_eq OA) in E23. subst a3. now rewrite E12.
      * now rewrite (cmp_lt_trans OA _ _ _ E12 E23).
Qed.

Lemma ordering_identifiers : ordering NodeSemver.compareIdentifiers.
Proof.
  pose proof ordering_N as ON. pose proof ordering_string as OS.
  split.
  - intros [x|x] [y|y]; simpl; try discriminate; intros E.
    + now rewrite (cmp_eq ON _ _ E).
    + now rewrite (cmp_eq OS _ _ E).
  - intros [x|x]; simpl; [apply (cmp_refl ON) | apply (cmp_refl OS)].
  - intros [x|x] [y|y]; simpl; auto; [apply (cmp_antisym ON) | apply (cmp_antisym OS)].
  - intros [x|x] [y|y] [z|z]; simpl; try congruence;
      [apply (cmp_lt_trans ON) | apply (cmp_lt_trans OS)].
Qed.

Lemma ordering_identifier_lists : ordering NodeSemver.compareIdentifierLists.
Proof.
  pose proof ordering_identifiers as OI.
  split.
  - induction a as [|x a IH]; intros [|y b]; simpl; try congruence.
    destruct (NodeSemver.compareIdentifiers x y) eqn:E; try discriminate.
    intros H. apply (cmp_eq OI) in E. now rewrite E, (IH _ H).
  - induction a as [|x a IH]; simpl; [reflexivity|].
    now rewrite (cmp_refl OI).
  - induction a as [|x a IH]; intros [|y b]; simpl; auto.
    rewrite (cmp_antisym OI x y).
    destruct (NodeSemver.compareIdentifiers x y); simpl; auto.
  - induction a as [|x a IH]; intros [|y b] [|z c]; simpl; try congruence.
    destruct (NodeSemver.compareIdentifiers x y) eqn:Exy; try congruence.
    + apply (cmp_eq OI) in Exy. subst y.
      destruct (NodeSemver.compareIdentifiers x z); try congruence. apply IH.
    + destruct (NodeSemver.compareIdentifiers y z) eqn:Eyz; try congruence.
      * apply (cmp_eq OI) in Eyz. subst z. now rewrite Exy.
      * now rewrite (cmp_lt_trans OI _ _ _ Exy Eyz).
Qed.

Lemma ordering_prereleases : ordering NodeSemver.comparePrereleases.
Proof.
  pose proof ordering_identifier_lists as OL.
  split.
  - intros [|x a] [|y b]; simpl; try congruence.
    apply (cmp_eq OL (x :: a) (y :: b)).
  - intros [|x a]; [reflexivity|]. apply (cmp_refl OL (x :: a)).
  - intros [|x a] [|y b]; try reflexivity.
    apply (cmp_antisym OL (x :: a) (y :: b)).
  - intros [|x a] [|y b] [|z c]; try (simpl; congruence).
    apply (cmp_lt_trans OL (x :: a) (y :: b) (z :: c)).
Qed.

Lemma compareVersion_lex (a b : NodeSemver.semver) :
  NodeSemver.compareVersion a b
  = lex N.compare (lex N.compare (lex N.compare NodeSemver.comparePrereleases))
        (tuple a) (tuple b).
Proof.
  unfold NodeSemver.compareVersion, NodeSemver.compareMain, NodeSemver.comparePre,
    lex, tuple, NodeSemver.thenCompare. simpl.
  destruct (NodeSemver.major a ?= NodeSemver.major b)%N;
    destruct (NodeSemver.minor a ?= NodeSemver.minor b)%N;
    destruct (NodeSemver.patch a ?= NodeSemver.patch b)%N; reflexivity.
Qed.

Lemma ordering_versions : ordering NodeSemver.compareVersion.
Proof.
  pose proof (ordering_lex ordering_N
                (ordering_lex ordering_N
                   (ordering_lex ordering_N ordering_prereleases))) as O.
  split.
  - intros a b. rewrite compareVersion_lex. intros E.
    apply (cmp_eq O) in E. destruct a, b. unfold tuple in E. simpl in E.
    now injection E as -> -> -> ->.
  - intros a. rewrite compareVersion_lex. apply (cmp_refl O).
  - intros a b. rewrite !compareVersion_lex. apply (cmp_antisym O).
  - intros a b c. rewrite !compareVersion_lex. apply (cmp_lt_trans O).
Qed.

End Orderings.

Lemma inherited_names (name : string) :
  Js.inherited name = true -> In name Js.objectPrototypeNames.
Proof. apply includes_In. Qed.

Lemma nodeSemver_laws : SemverLaws nodeSemver.
Proof.
  split.
  - apply (cmp_antisym ordering_versions).
  - apply (ordering_le_trans ordering_versions).
  - intros name H. apply inherited_names in H. simpl in H.
    repeat (destruct H as [<-|H]; [vm_compute; reflexivity|]). elim H.
  - intros name H. apply inherited_names in H. simpl in H.
    repeat (destruct H as [<-|H]; [vm_compute; reflexivity|]). elim H.
Qed.

(** ** Sorting and resolving versions *)

Section Versions.
Context {S : Semver} {L : SemverLaws S}.

Lemma compareVersion_refl (a : version) : compareVersion a a = Eq.
Proof.
  pose proof (compare_antisym a a) as H.
  destruct (compareVersion a a); simpl in H; congruence.
Qed.

Lemma precedes_refl (a : string) : valid a -> precedes a a.
Proof.
  unfold valid, precedes. destruct (parseVersion a) as [x|] eqn:E; [|congruence].
  intros _. exists x, x. rewrite compareVersion_refl. repeat split; congruence.
Qed.

Lemma precedes_trans (a b c : string) : precedes a b -> precedes b c -> precedes a c.
Proof.
  intros (x & y & Ha & Hb & Hxy) (y' & z & Hb' & Hc & Hyz).
  rewrite Hb in Hb'. injection Hb' as <-.
  exists x, z. repeat split; auto. eapply compare_trans; eauto.
Qed.

Lemma precedes_total (a b : string) :
  valid a -> valid b -> precedes a b \/ precedes b a.
Proof.
  unfold valid, precedes.
  destruct (parseVersion a) as [x|] eqn:Ea; [|congruence].
  destruct (parseVersion b) as [y|] eqn:Eb; [|congruence].
  intros _ _. destruct (compareVersion x y) eqn:E.
  - left. exists x, y. rewrite E. repeat split; congruence.
  - left. exists x, y. rewrite E. repeat split; congruence.
  - right. exists y, x. rewrite (compare_antisym x y), E. repeat split; simpl; congruence.
Qed.

(** What [byVersion] answers on versions. *)
Lemma byVersion_valid (a b : string) :
  valid a -> valid b ->
  exists c, byVersion a b = Some c
            /\ ((c <= 0)%Z -> precedes a b)
            /\ ((0 < c)%Z -> precedes b a).
Proof.
  unfold valid, byVersion, semver.lt, semver.gt, semver.compare, precedes.
  destruct (parseVersion a) as [x|] eqn:Ea; [|congruence].
  destruct (parseVersion b) as [y|] eqn:Eb; [|congruence].
  intros _ _. simpl. destruct (compareVersion x y) eqn:E; simpl.
  - exists 0%Z. repeat split; try lia. intros _. exists x, y. rewrite E.
    repeat split; congruence.
  - exists (-1)%Z. repeat split; try lia. intros _. exists x, y. rewrite E.
    repeat split; congruence.
  - exists 1%Z. repeat split; try lia. intros _. exists y, x.
    rewrite (compare_antisym x y), E. repeat split; simpl; congruence.
Qed.

Lemma insert_sorted (x : string) (sorted : list string) :
  valid x -> Forall valid sorted -> StronglySorted precedes sorted ->
  exists l, insert byVersion x sorted = Some l
            /\ Permutation (x :: sorted) l
            /\ StronglySorted precedes l.
Proof.
  intros Hx. induction sorted as [|y rest IH]; intros Hvalid Hsorted.
  - exists [x]. repeat split; auto. constructor; [constructor | constructor].
  - inversion Hvalid as [|? ? Hy Hrest]; subst.
    inversion Hsorted as [|? ? Hsr Hall]; subst.
    destruct (byVersion_valid Hx Hy) as (c & Ec & Hle & Hgt).
    simpl. rewrite Ec. destruct (c <=? 0)%Z eqn:Hc.
    + exists (x :: y :: rest). repeat split; auto.
      apply Z.leb_le in Hc. specialize (Hle Hc).
      constructor; [exact Hsorted|].
      constructor; [exact Hle|].
      eapply Forall_impl; [|exact Hall].
      intros z Hz. eapply precedes_trans; eauto.
    + apply Z.leb_gt in Hc. specialize (Hgt Hc).
      destruct (IH Hrest Hsr) as (l & El & Hperm & Hl).
      rewrite El. exists (y :: l). repeat split.
      * rewrite perm_swap. now constructor.
      * constructor; [exact Hl|].
        apply Forall_forall. intros z Hz.
        apply (Permutation_in _ (Permutation_sym Hperm)) in Hz.
        destruct Hz as [<-|Hz]; [exact Hgt|].
        rewrite Forall_forall in Hall. now apply Hall.
Qed.

Lemma sort_sorted (a : list string) :
  Forall valid a ->
  exists l, sort byVersion a = Some l
            /\ Permutation a l
            /\ StronglySorted precedes l.
Proof.
  induction a as [|x rest IH]; intros Hvalid.
  - exists []. repeat split; auto. constructor.
  - inversion Hvalid as [|? ? Hx Hrest]; subst.
    destruct (IH Hrest) as (l & El & Hperm & Hl).
    assert (Hvl : Forall valid l).
    { apply Forall_forall. intros z Hz. rewrite Forall_forall in Hrest.
      apply Hrest. eapply Permutation_in; [apply Permutation_sym|]; eauto. }
    destruct (insert_sorted Hx Hvl Hl) as (l' & El' & Hperm' & Hl').
    simpl. rewrite El. exists l'. repeat split; auto.
    eapply perm_trans; [|exact Hperm']. now constructor.
Qed.

(** *** [maxSatisfying] *)

Lemma maxStep_best (r : range) (seen : list string)
      (best : option (string * version)) (v : string) :
  best_so_far r seen best ->
  best_so_far r (seen ++ [v])%list (semver.maxStep r best v).
Proof.
  intros Hbest. unfold semver.maxStep.
  assert (Hkeep : semver.satisfies v r = false -> best_so_far r (seen ++ [v])%list best).
  { intros Hv. destruct best as [[m sm]|]; simpl in *.
    - destruct Hbest as (Hin & Hp & Ht & Hmax). repeat split; auto.
      + apply in_or_app. now left.
      + intros u Hu Hs. apply in_app_or in Hu as [Hu|[<-|[]]]; auto. congruence.
    - intros u Hu. apply in_app_or in Hu as [Hu|[<-|[]]]; auto. }
  destruct (parseVersion v) as [sv|] eqn:Ev.
  2:{ apply Hkeep. unfold semver.satisfies. now rewrite Ev. }
  destruct (test r sv) eqn:Et.
  2:{ apply Hkeep. unfold semver.satisfies. now rewrite Ev. }
  assert (Hvv : precedes v v) by (apply precedes_refl; unfold valid; congruence).
  assert (Hnew : (forall u, In u seen -> semver.satisfies u r = true -> precedes u v) ->
                 best_so_far r (seen ++ [v])%list (Some (v, sv))).
  { intros Hall. simpl. repeat split; auto.
    - apply in_or_app. right. now left.
    - intros u Hu Hs. apply in_app_or in Hu as [Hu|[<-|[]]]; auto. }
  destruct best as [[m sm]|]; simpl in Hbest.
  - destruct Hbest as (Hin & Hp & Ht & Hmax).
    destruct (compareVersion sm sv) eqn:Ec; simpl.
    + repeat split; auto.
      * apply in_or_app. now left.
      * intros u Hu Hs. apply in_app_or in Hu as [Hu|[<-|[]]]; auto.
        exists sv, sm. rewrite (compare_antisym sm sv), Ec. repeat split; simpl; congruence.
    + apply Hnew. intros u Hu Hs. eapply precedes_trans; [now apply Hmax|].
      exists sm, sv. rewrite Ec. repeat split; congruence.
    + repeat split; auto.
      * apply in_or_app. now left.
      * intros u Hu Hs. apply in_app_or in Hu as [Hu|[<-|[]]]; auto.
        exists sv, sm. rewrite (compare_antisym sm sv), Ec. repeat split; simpl; congruence.
  - apply Hnew. intros u Hu Hs. rewrite (Hbest u Hu) in Hs. discriminate.
Qed.

Lemma fold_maxStep_best (r : range) (rest seen : list string)
      (best : option (string * version)) :
  best_so_far r seen best ->
  best_so_far r (seen ++ rest)%list (fold_left (semver.maxStep r) rest best).
Proof.
  revert seen best. induction rest as [|v rest IH]; intros seen best Hbest; simpl.
  - now rewrite List.app_nil_r.
  - replace (seen ++ v :: rest)%list with ((seen ++ [v]) ++ rest)%list
      by (now rewrite <- List.app_assoc).
    apply IH. now apply maxStep_best.
Qed.

(** [maxSatisfying] answers a greatest version of the list among those
    that satisfy the range, and [null] when none does. *)
Lemma maxSatisfying_greatest (versions : list string) (rangeText : string) :
  match semver.maxSatisfying versions rangeText with
  | Some m =>
      In m versions /\ satisfiesText m rangeText
      /\ forall v, In v versions -> satisfiesText v rangeText -> precedes v m
  | None => forall v, In v versions -> ~ satisfiesText v rangeText
  end.
Proof.
  unfold semver.maxSatisfying, satisfiesText.
  destruct (parseRange rangeText) as [r|] eqn:Er.
  - pose proof (@fold_maxStep_best r versions [] None) as H. simpl in H.
    specialize (H (fun v (F : False) => match F with end)).
    destruct (fold_left (semver.maxStep r) versions None) as [[m sm]|]; simpl in *.
    + destruct H as (Hin & Hp & Ht & Hmax). repeat split; auto.
      * exists r. split; [reflexivity|]. unfold semver.satisfies. now rewrite Hp.
      * intros v Hv (r' & [= <-] & Hs). now apply Hmax.
    + intros v Hv (r' & [= <-] & Hs). rewrite (H v Hv) in Hs. discriminate.
  - intros v _ (r & Hr & _). discriminate.
Qed.

End Versions.

(** ** The claims on versions *)

Section Resolution.
Context {S : Semver} {L : SemverLaws S}.
Variable registry : Registry.

(** [resolveIn], case by case. *)
Lemma resolveIn_tag (v : VersionsAndTags) (tag target : string) :
  Js.own tag (tags v) = Some target ->
  resolveIn v tag
  = if Js.includes (versions v) target then Some target
    else semver.maxSatisfying (versions v) target.
Proof.
  intros H. unfold resolveIn, retag, Js.has, Js.get. now rewrite H.
Qed.

Lemma resolveIn_plain (v : VersionsAndTags) (range : string) :
  Js.own range (tags v) = None -> Js.inherited range = false ->
  resolveIn v range
  = if Js.includes (versions v) range then Some range
    else semver.maxSatisfying (versions v) range.
Proof.
  intros H Hi. unfold resolveIn, retag, Js.has, Js.get. now rewrite H, Hi.
Qed.

Lemma resolveIn_inherited (v : VersionsAndTags) (range : string) :
  Js.own range (tags v) = None -> Js.inherited range = true ->
  resolveIn v range = None.
Proof.
  intros H Hi. unfold resolveIn, retag, Js.has, Js.get. now rewrite H, Hi.
Qed.

(** C1.  For a package whose versions and tags are at hand,
    [resolveVersion] first replaces a known tag name by the tag's target;
    if the text it then holds is one of the version strings, that text is
    the answer, with no range semantics applied; otherwise the text is
    read as a range and the answer is a greatest version of the list that
    satisfies it, or [null] when none does. *)
Theorem resolveVersion_tag_exact_range
        (packageName rangeOrTag : string) (w w' : World) (v : VersionsAndTags) :
  getVersionsAndTags registry packageName w = (Returned (Some v), w') ->
  Forall valid (versions v) ->
  let r := match Js.own rangeOrTag (tags v) with
           | Some target => target
           | None => rangeOrTag
           end in
  exists result,
    resolveVersion registry packageName rangeOrTag w = (Returned result, w')
    /\ (In r (versions v) -> result = Some r)
    /\ (~ In r (versions v) ->
        match result with
        | Some m =>
            In m (versions v) /\ satisfiesText m r
            /\ forall u, In u (versions v) -> satisfiesText u r -> precedes u m
        | None => forall u, In u (versions v) -> ~ satisfiesText u r
        end).
Proof.
  intros Hvt Hvalid r.
  exists (resolveIn v rangeOrTag).
  split; [unfold resolveVersion, bind; now rewrite Hvt|].
  assert (Hcases :
            resolveIn v rangeOrTag
            = (if Js.includes (versions v) r then Some r
               else semver.maxSatisfying (versions v) r)
            \/ (resolveIn v rangeOrTag = None
                /\ ~ In r (versions v) /\ parseRange r = None)).
  { subst r. destruct (Js.own rangeOrTag (tags v)) as [target|] eqn:Eown.
    - left. now apply resolveIn_tag.
    - destruct (Js.inherited rangeOrTag) eqn:Ei.
      + right. split; [now apply resolveIn_inherited|]. split.
        * intros Hin. rewrite Forall_forall in Hvalid.
          apply (Hvalid _ Hin). now apply inherited_not_version.
        * now apply inherited_not_range.
      + left. now apply resolveIn_plain. }
  destruct Hcases as [-> | (-> & Hnot & Hrange)].
  - split.
    + intros Hin. apply includes_In in Hin. now rewrite Hin.
    + intros Hnot. apply includes_not_In in Hnot. rewrite Hnot.
      apply maxSatisfying_greatest.
  - split; [intros Hin; now elim Hnot|].
    intros _ u _ (r' & Hr' & _). congruence.
Qed.

(** C2.  [getAvailableVersions] returns all the version strings of the
    package in non-decreasing order of semantic-version precedence: the
    result is a permutation of the list in which every version precedes
    or equals all that follow it; for an unknown package it is empty. *)
Theorem getAvailableVersions_sorted
        (packageName : string) (w w' : World) (found : option VersionsAndTags) :
  getVersionsAndTags registry packageName w = (Returned found, w') ->
  (forall v, found = Some v -> Forall valid (versions v)) ->
  (exists sorted,
      getAvailableVersions registry packageName w = (Returned sorted, w')
      /\ StronglySorted precedes sorted
      /\ match found with
         | Some v => Permutation (versions v) sorted
         | None => sorted = []
         end)
  /\ (forall a b, valid a -> valid b -> precedes a b \/ precedes b a)
  /\ (forall a b c, precedes a b -> precedes b c -> precedes a c).
Proof.
  intros Hvt Hvalid. split; [|split; [apply precedes_total | apply precedes_trans]].
  unfold getAvailableVersions, bind. rewrite Hvt.
  destruct found as [v|].
  - destruct (sort_sorted (Hvalid v eq_refl)) as (l & El & Hperm & Hsorted).
    rewrite El. now exists l.
  - exists []. repeat split. constructor.
Qed.

(** C3, amended.  When the tag map has [latest], [resolveVersion] of
    [latest] returns the version the map assigns to it exactly when that
    version occurs in the version list; otherwise the assigned text is
    read as a range, and the answer is what [maxSatisfying] gives for it:
    a version of the list, or [null]. *)
Theorem resolveVersion_latest
        (packageName : string) (w w' : World) (v : VersionsAndTags) (target : string) :
  getVersionsAndTags registry packageName w = (Returned (Some v), w') ->
  Forall valid (versions v) ->
  Js.own "latest" (tags v) = Some target ->
  exists result,
    resolveVersion registry packageName "latest" w = (Returned result, w')
    /\ (In target (versions v) <-> result = Some target)
    /\ (~ In target (versions v) ->
        result = semver.maxSatisfying (versions v) target
        /\ match result with
           | Some m =>
               In m (versions v) /\ satisfiesText m target
               /\ forall u, In u (versions v) -> satisfiesText u target ->
                            precedes u m
           | None => forall u, In u (versions v) -> ~ satisfiesText u target
           end).
Proof.
  intros Hvt _ Hown. exists (resolveIn v "latest").
  split; [unfold resolveVersion, bind; now rewrite Hvt|].
  rewrite (resolveIn_tag v "latest" Hown).
  pose proof (maxSatisfying_greatest (versions v) target) as Hmax.
  destruct (Js.includes (versions v) target) eqn:Ein.
  - apply includes_In in Ein. split; [tauto|]. intros Hnot. now elim Hnot.
  - apply includes_not_In in Ein. split.
    + split; [intros Hin; now elim Ein|].
      intros E. rewrite E in Hmax. now destruct Hmax as (Hin & _).
    + intros _. split; [reflexivity | exact Hmax].
Qed.

End Resolution.

Lemma example_versions_valid :
  forall name, In name ["react"; "ahead"; "lodash"] ->
    forall v w', getVersionsAndTags Example.registry name Example.start
                 = (Returned (Some v), w') ->
                 Forall (@valid nodeSemver) (versions v).
Proof.
  intros name Hin v w' H. simpl in Hin.
  destruct Hin as [<-|[<-|[<-|[]]]]; vm_compute in H; injection H as <- <-;
    repeat constructor; vm_compute; discriminate.
Qed.

Lemma resolveVersion_tag_exact_range_witness :
  fst (@resolveVersion nodeSemver Example.registry "react" "^1.2.0" Example.start)
  = Returned (Some "1.3.0")
  /\ fst (@resolveVersion nodeSemver Example.registry "react" "latest" Example.start)
     = Returned (Some "2.0.0")
  /\ fst (@resolveVersion nodeSemver Example.registry "react" "9.9.9" Example.start)
     = Returned None.
Proof.
  pose (v := {| versions := ["2.0.0"; "1.2.0"; "1.3.0"]; tags := [("latest", "2.0.0")] |}).
  pose (w' := snd (getVersionsAndTags Example.registry "react" Example.start)).
  assert (Hvt : getVersionsAndTags Example.registry "react" Example.start
                = (Returned (Some v), w')) by (vm_compute; reflexivity).
  assert (Hvalid : Forall (@valid nodeSemver) (versions v))
    by (apply (@example_versions_valid "react" (or_introl eq_refl) v w' Hvt)).
  assert (Hrun : forall range,
             exists result,
               @resolveVersion nodeSemver Example.registry "react" range Example.start
               = (Returned result, w')).
  { intros range.
    destruct (@resolveVersion_tag_exact_range nodeSemver nodeSemver_laws
                Example.registry "react" range Example.start w' v Hvt Hvalid)
      as (result & Hres & _).
    now exists result. }
  split; [|split].
  - destruct (Hrun "^1.2.0") as (result & Hres). rewrite Hres.
    vm_compute in Hres. injection Hres as <-. reflexivity.
  - destruct (Hrun "latest") as (result & Hres). rewrite Hres.
    vm_compute in Hres. injection Hres as <-. reflexivity.
  - destruct (Hrun "9.9.9") as (result & Hres). rewrite Hres.
    vm_compute in Hres. injection Hres as <-. reflexivity.
Defined.

Lemma getAvailableVersions_sorted_witness :
  fst (@getAvailableVersions nodeSemver Example.registry "lodash" Example.start)
  = Returned ["1.0.0"; "1.2.0"; "2.0.0"; "9.0.0"; "10.0.0"]
  /\ fst (@getAvailableVersions nodeSemver Example.registry "left-pad" Example.start)
     = Returned [].
Proof.
  split.
  - pose (v := {| versions := ["2.0.0"; "10.0.0"; "1.0.0"; "9.0.0"; "1.2.0"];
                  tags := [("latest", "10.0.0"); ("next", "11.x")] |}).
    pose (w' := snd (getVersionsAndTags Example.registry "lodash"
                       Example.start)).
    assert (Hvt : getVersionsAndTags Example.registry "lodash" Example.start
                  = (Returned (Some v), w')) by (vm_compute; reflexivity).
    destruct (@getAvailableVersions_sorted nodeSemver nodeSemver_laws Example.registry
                "lodash" Example.start w' (Some v) Hvt)
      as ((sorted & Hres & _) & _).
    { intros v0 [= <-].
      apply (@example_versions_valid "lodash" (or_intror (or_intror (or_introl eq_refl)))
               v w' Hvt). }
    rewrite Hres. vm_compute in Hres. injection Hres as <-. reflexivity.
  - pose (w' := snd (getVersionsAndTags Example.registry "left-pad"
                       Example.start)).
    destruct (@getAvailableVersions_sorted nodeSemver nodeSemver_laws Example.registry
                "left-pad" Example.start w' None)
      as ((sorted & Hres & _ & Hnil) & _).
    + vm_compute. reflexivity.
    + intros v0 [=].
    + rewrite Hres. now rewrite Hnil.
Defined.

(** C3, as stated, fails: the tag of the package [ahead] names [3.0.0],
    its only version is [1.0.0], and [resolveVersion] of [latest] answers
    [null], not the tag's version. *)
Lemma latest_outside_the_list_is_not_returned :
  ~ (forall (registry : Registry) (packageName : string) (w w' : World)
            (v : VersionsAndTags) (target : string),
        getVersionsAndTags registry packageName w = (Returned (Some v), w') ->
        Forall (@valid nodeSemver) (versions v) ->
        Js.own "latest" (tags v) = Some target ->
        fst (@resolveVersion nodeSemver registry packageName "latest" w)
        = Returned (Some target)).
Proof.
  intros H.
  specialize (H Example.registry "ahead" Example.start
                (snd (getVersionsAndTags Example.registry "ahead"
                        Example.start))
                {| versions := ["1.0.0"]; tags := [("latest", "3.0.0")] |} "3.0.0").
  assert (Hvalid : Forall (@valid nodeSemver) ["1.0.0"])
    by (repeat constructor; vm_compute; discriminate).
  specialize (H eq_refl Hvalid eq_refl). vm_compute in H. discriminate H.
Qed.

Lemma resolveVersion_latest_witness :
  fst (@resolveVersion nodeSemver Example.registry "ahead" "latest" Example.start)
  = Returned None
  /\ fst (@resolveVersion nodeSemver Example.registry "react" "latest" Example.start)
     = Returned (Some "2.0.0").
Proof.
  assert (Hrun : forall name v target,
             In name ["react"; "ahead"; "lodash"] ->
             getVersionsAndTags Example.registry name Example.start
             = (Returned (Some v),
                snd (getVersionsAndTags Example.registry name Example.start)) ->
             Js.own "latest" (tags v) = Some target ->
             exists result,
               @resolveVersion nodeSemver Example.registry name "latest" Example.start
               = (Returned result,
                  snd (getVersionsAndTags Example.registry name Example.start))).
  { intros name v target Hname Hvt Hown.
    destruct (@resolveVersion_latest nodeSemver nodeSemver_laws Example.registry
                name Example.start _ v target Hvt
                (@example_versions_valid name Hname v _ Hvt) Hown)
      as (result & Hres & _).
    now exists result. }
  split.
  - destruct (Hrun "ahead" {| versions := ["1.0.0"]; tags := [("latest", "3.0.0")] |}
                "3.0.0" (or_intror (or_introl eq_refl)) eq_refl eq_refl)
      as (result & Hres).
    rewrite Hres. vm_compute in Hres. injection Hres as <-. reflexivity.
  - destruct (Hrun "react"
                {| versions := ["2.0.0"; "1.2.0"; "1.3.0"]; tags := [("latest", "2.0.0")] |}
                "2.0.0" (or_introl eq_refl) eq_refl eq_refl) as (result & Hres).
    rewrite Hres. vm_compute in Hres. injection Hres as <-. reflexivity.
Defined.

(** ** [JSON.parse] undoes [JSON.stringify] *)

Lemma delimiter_cases (c : ascii) :
  Uri.oneOf ",]}" c = true -> c = ","%char \/ c = "]"%char \/ c = "}"%char.
Proof. by_cases_on_ascii c. Qed.

Lemma delimited_token (rest : string) :
  Json.delimited rest -> Json.token rest = EmptyString /\ Json.afterToken rest = rest.
Proof.
  destruct rest as [|c rest]; simpl; [auto|].
  intros H. apply delimiter_cases in H as [ -> | [ -> | -> ] ]; auto.
Qed.

(** A text that is one run of the characters of a number is its own
    token. *)
Lemma token_all (s : string) :
  Json.afterToken s = EmptyString -> Json.token s = s.
Proof.
  induction s as [|c s IH]; simpl; [reflexivity|].
  destruct (Json.numChar c); [|discriminate].
  intros H. now rewrite (IH H).
Qed.

Lemma token_append (tok rest : string) :
  Json.token tok = tok -> Json.delimited rest ->
  Json.token (tok ++ rest) = tok /\ Json.afterToken (tok ++ rest) = rest.
Proof.
  intros Htok Hrest. induction tok as [|c tok IH]; simpl in *.
  - now apply delimited_token.
  - destruct (Json.numChar c); [|discriminate].
    injection Htok as Htok. destruct (IH Htok) as [-> ->]. auto.
Qed.

(** A number that prints back is read back in front of what may follow
    a value. *)
Lemma parseNumber_showNumber (x : Double.t) (rest : string) :
  Json.numberPrintsBack x -> Json.delimited rest ->
  Json.parseNumber (Json.showNumber x ++ rest) = Some (JNum x, rest).
Proof.
  intros [Hfinite Hback] Hrest. unfold Json.showNumber. rewrite Hfinite.
  unfold Json.parseNumber in *.
  destruct (Json.readNumber (Json.token (Double.toString x))) as [parts|] eqn:E;
    [|discriminate].
  injection Hback as Hx Hend.
  pose proof (token_all _ Hend) as Htok.
  destruct (@token_append (Double.toString x) rest Htok Hrest) as [-> ->].
  now rewrite <- Htok, E, Hx.
Qed.

(** Its text starts with a digit or with the minus sign. *)
Lemma showNumber_head (x : Double.t) :
  Json.numberPrintsBack x ->
  exists c tail,
    Json.showNumber x = String c tail /\ (Uri.isDigit c = true \/ c = "-"%char).
Proof.
  intros [Hfinite Hback]. unfold Json.showNumber. rewrite Hfinite.
  destruct (Double.toString x) as [|c tail]; [discriminate|].
  exists c, tail. split; [reflexivity|].
  destruct c as [[|] [|] [|] [|] [|] [|] [|] [|]];
    first [ left; reflexivity | right; reflexivity
          | exfalso; vm_compute in Hback; discriminate ].
Qed.

(** Strings *)

Lemma parseStringBody_quoteChar (c : ascii) (tail : string) :
  Json.parseStringBody (Json.quoteChar c ++ tail)
  = Json.consTo (String c EmptyString) (Json.parseStringBody tail).
Proof.
  destruct c as [[|] [|] [|] [|] [|] [|] [|] [|]]; reflexivity.
Qed.

Lemma parseStringBody_quoteBody (s rest : string) :
  Json.parseStringBody (Json.quoteBody s ++ String Json.dquote rest) = Some (s, rest).
Proof.
  induction s as [|c s IH]; simpl.
  - reflexivity.
  - rewrite append_assoc, parseStringBody_quoteChar, IH. reflexivity.
Qed.

Lemma parseStringBody_quote (s rest : string) :
  exists tail,
    Json.quote s ++ rest = String Json.dquote tail
    /\ Json.parseStringBody tail = Some (s, rest).
Proof.
  exists (Json.quoteBody s ++ String Json.dquote rest). split.
  - unfold Json.quote. cbn [append]. now rewrite append_assoc.
  - apply parseStringBody_quoteBody.
Qed.

(** Values *)

Lemma json_induction (P : json -> Prop) :
  P JNull -> (forall b, P (JBool b)) -> (forall z, P (JNum z)) ->
  (forall s, P (JStr s)) ->
  (forall items, Forall P items -> P (JArr items)) ->
  (forall fields, Forall (fun kv => P (snd kv)) fields -> P (JObj fields)) ->
  forall v, P v.
Proof.
  intros Hnull Hbool Hnum Hstr Harr Hobj.
  refine (fix IH (v : json) : P v :=
            match v with
            | JNull => Hnull
            | JBool b => Hbool b
            | JNum z => Hnum z
            | JStr s => Hstr s
            | JArr items =>
                Harr items
                  ((fix all (l : list json) : Forall P l :=
                      match l with
                      | [] => Forall_nil _
                      | x :: xs => Forall_cons x (IH x) (all xs)
                      end) items)
            | JObj fields =>
                Hobj fields
                  ((fix all (l : list (string * json))
                    : Forall (fun kv => P (snd kv)) l :=
                      match l with
                      | [] => Forall_nil _
                      | (k, x) :: xs =>
                          @Forall_cons _ (fun kv => P (snd kv)) (k, x) xs (IH x) (all xs)
                      end) fields)
            end).
Qed.

Lemma opens_facts (c : ascii) :
  Json.opens c = true ->
  Json.isWs c = false /\ Ascii.eqb c "]" = false /\ Ascii.eqb c "}" = false
  /\ Ascii.eqb c "," = false.
Proof. by_cases_on_ascii c. Qed.

Lemma number_opens (c : ascii) :
  Uri.isDigit c = true \/ c = "-"%char ->
  Json.opens c = true /\ Ascii.eqb c "n" = false /\ Ascii.eqb c "t" = false
  /\ Ascii.eqb c "f" = false /\ Ascii.eqb c Json.dquote = false
  /\ Ascii.eqb c "[" = false /\ Ascii.eqb c "{" = false.
Proof. by_cases_on_ascii c. Qed.

Lemma stringify_head (v : json) :
  Json.printsBack v ->
  exists c tail, Json.stringify v = String c tail /\ Json.opens c = true.
Proof.
  destruct v as [|[|]|x|s|items|fields]; cbn [Json.stringify]; intros Hback.
  - exists "n"%char, "ull". now split.
  - exists "t"%char, "rue". now split.
  - exists "f"%char, "alse". now split.
  - destruct (showNumber_head Hback) as (c & tail & -> & Hc).
    exists c, tail. split; [reflexivity|]. now apply number_opens.
  - unfold Json.quote. eexists _, _. split; [reflexivity|reflexivity].
  - cbn [append]. eexists _, _. split; [reflexivity|reflexivity].
  - cbn [append]. eexists _, _. split; [reflexivity|reflexivity].
Qed.

Lemma next_opens (stop : ascii) (text rest : string) (c : ascii) (tail : string) :
  text = String c tail -> Json.opens c = true ->
  Ascii.eqb c stop = false -> Json.next stop (text ++ rest) = None.
Proof.
  intros -> Hc Hstop. unfold Json.next. cbn [append Json.skipWs].
  destruct (@opens_facts c Hc) as (-> & _). now rewrite Hstop.
Qed.

Lemma next_here (c : ascii) (rest : string) :
  Json.isWs c = false -> Json.next c (String c rest) = Some rest.
Proof.
  intros H. unfold Json.next. cbn [Json.skipWs]. now rewrite H, Ascii.eqb_refl.
Qed.

Lemma commaSep_cons (p q : string) (r : list string) :
  Json.commaSep (p :: q :: r) = p ++ "," ++ Json.commaSep (q :: r).
Proof. reflexivity. Qed.

Lemma parseItems_stringify (items : list json) :
  items <> [] -> Forall roundtrips items ->
  fold_right (fun item rest => Json.wf item /\ rest) True items ->
  fold_right (fun item rest => Json.printsBack item /\ rest) True items ->
  forall rest fuel,
    fold_right (fun item n => S (Json.weight item + n)) 0 items <= fuel ->
    Json.parseItems fuel
      (Json.commaSep (map Json.stringify items) ++ String "]" rest)
    = Some (items, rest).
Proof.
  induction items as [|x xs IH]; [congruence|].
  intros _ Hall Hwf Hback rest fuel Hfuel.
  inversion Hall as [|? ? Hx Hxs]; subst. destruct Hwf as [Hwx Hwxs].
  destruct Hback as [Hbx Hbxs].
  cbn [fold_right] in Hfuel.
  destruct fuel as [|fuel]; [lia|]. cbn [Json.parseItems].
  destruct xs as [|y ys].
  - cbn [map Json.commaSep].
    rewrite (Hx Hwx Hbx (String "]" rest) fuel); [|reflexivity|simpl in Hfuel; lia].
    reflexivity.
  - cbn [map]. rewrite commaSep_cons, !append_assoc. cbn [append].
    rewrite (Hx Hwx Hbx (String "," _) fuel); [|reflexivity|lia].
    rewrite next_here by reflexivity.
    change (Json.stringify y :: map Json.stringify ys)
      with (map Json.stringify (y :: ys)).
    rewrite IH; auto; [congruence | lia].
Qed.

Lemma parseFields_stringify (fields : list (string * json)) :
  fields <> [] -> Forall (fun kv => roundtrips (snd kv)) fields ->
  fold_right (fun kv rest => Json.wf (snd kv) /\ rest) True fields ->
  fold_right (fun kv rest => Json.printsBack (snd kv) /\ rest) True fields ->
  forall rest fuel,
    fold_right (fun kv n => S (Json.weight (snd kv) + n)) 0 fields <= fuel ->
    Json.parseFields fuel
      (Json.commaSep
         (map (fun kv => Json.quote (fst kv) ++ ":" ++ Json.stringify (snd kv)) fields)
         ++ String "}" rest)
    = Some (fields, rest).
Proof.
  induction fields as [|[k x] xs IH]; [congruence|].
  intros _ Hall Hwf Hback rest fuel Hfuel.
  inversion Hall as [|? ? Hx Hxs]; subst. destruct Hwf as [Hwx Hwxs].
  destruct Hback as [Hbx Hbxs].
  cbn [fold_right snd] in Hfuel. cbn [snd] in Hx, Hwx, Hbx.
  destruct fuel as [|fuel]; [lia|]. cbn [Json.parseFields].
  destruct xs as [|y ys].
  - cbn [map Json.commaSep fst snd]. rewrite !append_assoc.
    destruct (parseStringBody_quote k (":" ++ Json.stringify x ++ String "}" rest))
      as (tail & -> & Hbody).
    rewrite next_here by reflexivity. rewrite Hbody. cbn [append].
    rewrite next_here by reflexivity.
    rewrite (Hx Hwx Hbx (String "}" rest) fuel); [|reflexivity|simpl in Hfuel; lia].
    reflexivity.
  - cbn [map fst snd]. rewrite commaSep_cons, !append_assoc.
    destruct (parseStringBody_quote k
                (":" ++ Json.stringify x ++ "," ++
                 Json.commaSep
                   (map (fun kv => Json.quote (fst kv) ++ ":" ++ Json.stringify (snd kv))
                        (y :: ys)) ++ String "}" rest))
      as (tail & E & Hbody).
    cbn [map] in E. rewrite E.
    rewrite next_here by reflexivity. rewrite Hbody. cbn [append].
    rewrite next_here by reflexivity.
    rewrite (Hx Hwx Hbx (String "," _) fuel); [|reflexivity|lia].
    rewrite next_here by reflexivity.
    change ((Json.quote (fst y) ++ String ":" (Json.stringify (snd y)))
              :: map (fun kv => Json.quote (fst kv) ++ ":" ++ Json.stringify (snd kv)) ys)
      with (map (fun kv => Json.quote (fst kv) ++ ":" ++ Json.stringify (snd kv))
                (y :: ys)).
    rewrite IH; auto; [congruence | lia].
Qed.

Lemma set_fresh (V : Type) (k : string) (v : V) (o : Js.object V) :
  ~ In k (Js.keys o) -> Js.set k v o = (o ++ [(k, v)])%list.
Proof.
  induction o as [|[k' v'] o IH]; simpl; [reflexivity|].
  intros H. destruct (String.eqb_spec k k') as [->|Hne]; [tauto|].
  rewrite IH; tauto.
Qed.

Lemma fromEntries_fresh (entries acc : list (string * json)) :
  NoDup (map fst acc ++ map fst entries)%list ->
  fold_left (fun o kv => Js.set (fst kv) (snd kv) o) entries acc
  = (acc ++ entries)%list.
Proof.
  revert acc. induction entries as [|[k v] entries IH]; intros acc Hnd; simpl.
  - now rewrite List.app_nil_r.
  - rewrite set_fresh.
    + rewrite IH; [now rewrite <- List.app_assoc|].
      rewrite map_app. simpl. now rewrite <- List.app_assoc.
    + simpl in Hnd. apply NoDup_remove_2 in Hnd.
      intros Hin. apply Hnd. apply in_or_app. now left.
Qed.

Lemma fromEntries_nodup (fields : list (string * json)) :
  NoDup (map fst fields) -> Json.fromEntries fields = fields.
Proof. intros H. unfold Json.fromEntries. now rewrite fromEntries_fresh. Qed.

Lemma append_cons (c : ascii) (s t : string) : String c s ++ t = String c (s ++ t).
Proof. reflexivity. Qed.

Lemma stringify_object (fields : list (string * json)) :
  Json.stringify (JObj fields)
  = String "{"
      (Json.commaSep
         (map (fun kv => Json.quote (fst kv) ++ ":" ++ Json.stringify (snd kv)) fields)
         ++ "}").
Proof. reflexivity. Qed.

Lemma parseValue_stringify (v : json) : roundtrips v.
Proof.
  induction v as [|b|x|s|items IH|fields IH] using json_induction;
    intros Hwf Hback rest fuel Hrest Hfuel;
    (destruct fuel as [|fuel]; [simpl in Hfuel; lia|]).
  - reflexivity.
  - destruct b; reflexivity.
  - destruct (showNumber_head Hback) as (c & tail & Hs & Hc).
    destruct (@number_opens c Hc) as (Ho & Hn & Ht & Hf & Hq & Ha & Hb).
    destruct (@opens_facts c Ho) as (Hws & _).
    pose proof (@parseNumber_showNumber x rest Hback Hrest) as Hnum.
    cbn [Json.stringify] in *. rewrite Hs in *. cbn [append] in *.
    cbn [Json.parseValue Json.skipWs]. now rewrite Hws, Hn, Ht, Hf, Hq, Ha, Hb.
  - cbn [Json.stringify].
    destruct (parseStringBody_quote s rest) as (tail & -> & Hbody).
    cbn [Json.parseValue Json.skipWs]. change (Json.isWs Json.dquote) with false.
    cbv iota. change (Ascii.eqb Json.dquote "n") with false.
    change (Ascii.eqb Json.dquote "t") with false.
    change (Ascii.eqb Json.dquote "f") with false.
    rewrite Ascii.eqb_refl. cbv iota. now rewrite Hbody.
  - cbn [Json.stringify append]. cbn [Json.parseValue Json.skipWs].
    change (Json.isWs "[") with false. cbv iota.
    change (Ascii.eqb "[" "n") with false. change (Ascii.eqb "[" "t") with false.
    change (Ascii.eqb "[" "f") with false. change (Ascii.eqb "[" Json.dquote) with false.
    change (Ascii.eqb "[" "[") with true. cbv iota.
    rewrite !append_assoc. cbn [append].
    destruct items as [|x xs].
    + reflexivity.
    + destruct (@stringify_head x (proj1 Hback)) as (c & tail & Hs & Hc).
      destruct (@opens_facts c Hc) as (_ & Hclose & _).
      assert (Hnext : Json.next "]"
                        (Json.commaSep (map Json.stringify (x :: xs)) ++ String "]" rest)
                      = None).
      { destruct xs as [|y ys].
        - cbn [map Json.commaSep]. now apply next_opens with c tail.
        - cbn [map]. rewrite commaSep_cons, append_assoc.
          now apply next_opens with c tail. }
      rewrite Hnext, parseItems_stringify; auto; [congruence|].
      cbn [Json.weight] in Hfuel. lia.
  - rewrite stringify_object, append_cons, append_assoc.
    change ("}" ++ rest) with (String "}" rest).
    cbn [Json.parseValue Json.skipWs].
    change (Json.isWs "{") with false. cbv iota.
    change (Ascii.eqb "{" "n") with false. change (Ascii.eqb "{" "t") with false.
    change (Ascii.eqb "{" "f") with false. change (Ascii.eqb "{" Json.dquote) with false.
    change (Ascii.eqb "{" "[") with false. change (Ascii.eqb "{" "{") with true.
    cbv iota.
    destruct Hwf as [Hnd Hwf].
    destruct fields as [|[k x] xs].
    + reflexivity.
    + assert (Hnext : Json.next "}"
                        (Json.commaSep
                           (map (fun kv => Json.quote (fst kv) ++ ":"
                                             ++ Json.stringify (snd kv))
                                ((k, x) :: xs)) ++ String "}" rest)
                      = None).
      { destruct xs as [|y ys]; cbn [map fst snd].
        - cbn [Json.commaSep]. rewrite !append_assoc. reflexivity.
        - rewrite commaSep_cons, !append_assoc. reflexivity. }
      rewrite Hnext, parseFields_stringify; auto; [|congruence|].
      * now rewrite fromEntries_nodup.
      * cbn [Json.weight] in Hfuel. lia.
Qed.

(** The fuel [JSON.parse] gives covers every value it printed. *)

Lemma all_values (P : json -> Prop) (items : list json) :
  fold_right (fun item rest => P item /\ rest) True items <-> Forall P items.
Proof.
  induction items as [|x xs IH]; simpl.
  - split; auto.
  - rewrite IH. split; [intros [? ?]; now constructor | now inversion 1].
Qed.

Lemma all_fields (P : json -> Prop) (fields : list (string * json)) :
  fold_right (fun kv rest => P (snd kv) /\ rest) True fields
  <-> Forall (fun kv => P (snd kv)) fields.
Proof.
  induction fields as [|x xs IH]; simpl.
  - split; auto.
  - rewrite IH. split; [intros [? ?]; now constructor | now inversion 1].
Qed.

Lemma Forall_apply (A : Type) (P Q : A -> Prop) (l : list A) :
  Forall (fun a => P a -> Q a) l -> Forall P l -> Forall Q l.
Proof.
  induction 1 as [|a l Ha Hl IH]; [constructor|].
  inversion 1; subst. constructor; auto.
Qed.

Lemma quote_length (s : string) : 2 <= String.length (Json.quote s).
Proof. unfold Json.quote. simpl. rewrite length_append. simpl. lia. Qed.

Lemma items_weight (items : list json) :
  Forall (fun v => Json.weight v <= String.length (Json.stringify v)) items ->
  fold_right (fun item n => S (Json.weight item + n)) 0 items
  <= S (String.length (Json.commaSep (map Json.stringify items))).
Proof.
  induction 1 as [|x xs Hx Hxs IH]; [simpl; lia|].
  destruct xs as [|y ys].
  - simpl in *. lia.
  - cbn [map fold_right] in *. rewrite commaSep_cons, !length_append.
    cbn [map] in IH. change (String.length ",") with 1. lia.
Qed.

Lemma fields_weight (fields : list (string * json)) :
  Forall (fun kv => Json.weight (snd kv) <= String.length (Json.stringify (snd kv)))
         fields ->
  fold_right (fun kv n => S (Json.weight (snd kv) + n)) 0 fields
  <= S (String.length
          (Json.commaSep
             (map (fun kv => Json.quote (fst kv) ++ ":" ++ Json.stringify (snd kv))
                  fields))).
Proof.
  induction 1 as [|x xs Hx Hxs IH]; [simpl; lia|].
  destruct xs as [|y ys].
  - cbn [map fold_right Json.commaSep]. rewrite !length_append.
    change (String.length ":") with 1. lia.
  - cbn [map fold_right] in *. rewrite commaSep_cons, !length_append.
    cbn [map] in IH. change (String.length ":") with 1.
    change (String.length ",") with 1. lia.
Qed.

Lemma weight_le_length (v : json) :
  Json.printsBack v -> Json.weight v <= String.length (Json.stringify v).
Proof.
  induction v as [|b|x|s|items IH|fields IH] using json_induction; intros Hback.
  - simpl. lia.
  - destruct b; simpl; lia.
  - destruct (showNumber_head Hback) as (c & tail & E & _).
    cbn [Json.weight Json.stringify]. rewrite E. simpl. lia.
  - pose proof (quote_length s). simpl Json.weight. cbn [Json.stringify]. lia.
  - cbn [Json.printsBack] in Hback. apply all_values in Hback.
    pose proof (items_weight (@Forall_apply _ Json.printsBack _ _ IH Hback)).
    cbn [Json.weight Json.stringify].
    rewrite !length_append. change (String.length "[") with 1.
    change (String.length "]") with 1. lia.
  - cbn [Json.printsBack] in Hback. apply all_fields in Hback.
    pose proof (fields_weight
                  (@Forall_apply _ (fun kv => Json.printsBack (snd kv)) _ _ IH Hback)).
    cbn [Json.weight]. rewrite stringify_object.
    cbn [String.length]. rewrite !length_append.
    change (String.length "}") with 1. lia.
Qed.

(** [JSON.parse(JSON.stringify(v))] is [v], for a value whose numbers
    print back. *)
Lemma parse_stringify (v : json) :
  Json.wf v -> Json.printsBack v -> Json.parse (Json.stringify v) = Some v.
Proof.
  intros Hwf Hback. unfold Json.parse.
  pose proof (@parseValue_stringify v Hwf Hback EmptyString
                (S (String.length (Json.stringify v))) I) as H.
  rewrite append_nil_r in H. rewrite H; [reflexivity|].
  pose proof (weight_le_length v Hback). lia.
Qed.

(** The text of an object is never the marker of an absent package. *)
Lemma stringify_not_empty (fields : list (string * json)) :
  String.eqb (Json.stringify (JObj fields)) notFound = false.
Proof. reflexivity. Qed.

(** What the parser produces is well formed. *)

Lemma wf_array (items : list json) : Json.wf (JArr items) <-> Forall Json.wf items.
Proof.
  simpl. induction items as [|x xs IH]; simpl.
  - split; auto.
  - rewrite IH. split; [intros [? ?]; now constructor | now inversion 1].
Qed.

Lemma wf_values (fields : list (string * json)) :
  fold_right (fun kv rest => Json.wf (snd kv) /\ rest) True fields
  <-> Forall (fun kv => Json.wf (snd kv)) fields.
Proof.
  induction fields as [|x xs IH]; simpl.
  - split; auto.
  - rewrite IH. split; [intros [? ?]; now constructor | now inversion 1].
Qed.

Lemma wf_object (fields : list (string * json)) :
  Json.wf (JObj fields)
  <-> NoDup (Js.keys fields) /\ Forall (fun kv => Json.wf (snd kv)) fields.
Proof. simpl. now rewrite wf_values. Qed.

Lemma values_set (P : json -> Prop) (k : string) (v : json) (o : Js.object json) :
  P v -> Forall (fun kv => P (snd kv)) o ->
  Forall (fun kv => P (snd kv)) (Js.set k v o).
Proof.
  intros Hv. induction 1 as [|[k' v'] o Hx Ho IH]; simpl.
  - now constructor.
  - destruct (String.eqb k k'); constructor; auto.
Qed.

Lemma keys_set_nodup (V : Type) (k : string) (v : V) (o : Js.object V) :
  NoDup (Js.keys o) -> NoDup (Js.keys (Js.set k v o)).
Proof.
  intros H. rewrite keys_set.
  destruct (Js.includes (Js.keys o) k) eqn:E; [exact H|].
  apply includes_not_In in E.
  apply NoDup_rev in H. rewrite <- (rev_involutive (Js.keys o ++ [k])%list).
  apply NoDup_rev. rewrite rev_app_distr. simpl. constructor; [|exact H].
  now rewrite <- in_rev.
Qed.

Lemma wf_set (k : string) (v : json) (o : Js.object json) :
  Json.wf (JObj o) -> Json.wf v -> Json.wf (JObj (Js.set k v o)).
Proof.
  rewrite !wf_object. intros [Hnd Hall] Hv. split.
  - now apply keys_set_nodup.
  - now apply values_set.
Qed.

Lemma wf_fromEntries (entries : list (string * json)) :
  Forall (fun kv => Json.wf (snd kv)) entries -> Json.wf (JObj (Json.fromEntries entries)).
Proof.
  unfold Json.fromEntries.
  assert (H : forall acc, Json.wf (JObj acc) ->
                          Forall (fun kv => Json.wf (snd kv)) entries ->
                          Json.wf (JObj (fold_left (fun o kv => Js.set (fst kv) (snd kv) o)
                                                   entries acc))).
  { induction entries as [|[k v] entries IH]; intros acc Hacc Hall; simpl; [exact Hacc|].
    inversion Hall; subst. apply IH; auto. now apply wf_set. }
  apply H. simpl. split; [constructor | exact I].
Qed.

Lemma parseNumber_wf (s : string) (v : json) (rest : string) :
  Json.parseNumber s = Some (v, rest) -> Json.wf v.
Proof.
  unfold Json.parseNumber.
  destruct (Json.readNumber (Json.token s)) as [parts|]; [|discriminate].
  now intros [= <- _].
Qed.

Lemma literal_wf (word : string) (v v' : json) (s rest : string) :
  Json.wf v -> Json.literal word v s = Some (v', rest) -> Json.wf v'.
Proof.
  unfold Json.literal. destruct (Uri.dropPrefix word s); [|discriminate].
  now intros H [= <- _].
Qed.

Lemma parser_wf (fuel : nat) :
  (forall s v rest, Json.parseValue fuel s = Some (v, rest) -> Json.wf v)
  /\ (forall s vs rest, Json.parseItems fuel s = Some (vs, rest) -> Forall Json.wf vs)
  /\ (forall s kvs rest, Json.parseFields fuel s = Some (kvs, rest) ->
                         Forall (fun kv => Json.wf (snd kv)) kvs).
Proof.
  induction fuel as [|fuel (IHv & IHi & IHf)]; [repeat split; discriminate|].
  split; [|split].
  - intros s v rest. cbn [Json.parseValue].
    destruct (Json.skipWs s) as [|c tail]; [discriminate|].
    destruct (Ascii.eqb c "n"); [apply literal_wf; exact I|].
    destruct (Ascii.eqb c "t"); [apply literal_wf; exact I|].
    destruct (Ascii.eqb c "f"); [apply literal_wf; exact I|].
    destruct (Ascii.eqb c Json.dquote).
    { destruct (Json.parseStringBody tail) as [[str r]|]; [|discriminate].
      now intros [= <- _]. }
    destruct (Ascii.eqb c "[").
    { destruct (Json.next "]" tail); [now intros [= <- _]|].
      destruct (Json.parseItems fuel tail) as [[items r]|] eqn:E; [|discriminate].
      intros [= <- _]. apply wf_array. eapply IHi; eauto. }
    destruct (Ascii.eqb c "{").
    { destruct (Json.next "}" tail); [intros [= <- _]; simpl; split; [constructor|exact I]|].
      destruct (Json.parseFields fuel tail) as [[entries r]|] eqn:E; [|discriminate].
      intros [= <- _]. apply wf_fromEntries. eapply IHf; eauto. }
    apply parseNumber_wf.
  - intros s vs rest. cbn [Json.parseItems].
    destruct (Json.parseValue fuel s) as [[v r]|] eqn:Ev; [|discriminate].
    apply IHv in Ev.
    destruct (Json.next "," r).
    + destruct (Json.parseItems fuel s0) as [[vs' r']|] eqn:Ei; [|discriminate].
      intros [= <- _]. constructor; [exact Ev | eapply IHi; eauto].
    + destruct (Json.next "]" r); [|discriminate].
      intros [= <- _]. now constructor.
  - intros s kvs rest. cbn [Json.parseFields].
    destruct (Json.next Json.dquote s) as [r0|]; [|discriminate].
    destruct (Json.parseStringBody r0) as [[key r1]|]; [|discriminate].
    destruct (Json.next ":" r1) as [r2|]; [|discriminate].
    destruct (Json.parseValue fuel r2) as [[v r3]|] eqn:Ev; [|discriminate].
    apply IHv in Ev.
    destruct (Json.next "," r3) as [r4|].
    + destruct (Json.parseFields fuel r4) as [[kvs' r5]|] eqn:Ef; [|discriminate].
      intros [= <- _]. constructor; [exact Ev | eapply IHf; eauto].
    + destruct (Json.next "}" r3); [|discriminate].
      intros [= <- _]. now constructor.
Qed.

Lemma parse_wf (text : string) (v : json) : Json.parse text = Some v -> Json.wf v.
Proof.
  unfold Json.parse.
  destruct (Json.parseValue (S (String.length text)) text) as [[v' r]|] eqn:E;
    [|discriminate].
  destruct (Json.skipWs r); [|discriminate].
  intros [= <-]. eapply (proj1 (parser_wf _)); eauto.
Qed.

(** ** What the cache gives back *)




Lemma wf_jsonOfVersionsAndTags (v : VersionsAndTags) :
  NoDup (Js.keys (tags v)) -> Json.wf (jsonOfVersionsAndTags v).
Proof.
  intros Hnd. unfold jsonOfVersionsAndTags. apply wf_object. split.
  - simpl. constructor; [simpl; intuition discriminate|].
    constructor; [simpl; tauto | constructor].
  - constructor; [|constructor; [|constructor]]; cbn [snd].
    + apply wf_array. apply Forall_forall. intros x Hx.
      apply in_map_iff in Hx as (s & <- & _). exact I.
    + apply wf_object. split.
      * unfold Js.keys. rewrite map_map. exact Hnd.
      * apply Forall_forall. intros x Hx.
        apply in_map_iff in Hx as (kv & <- & _). exact I.
Qed.

Lemma asObjectOf_keys (A : Type) (read : json -> option A)
      (fields : list (string * json)) (o : Js.object A) :
  asObjectOf read (JObj fields) = Some o -> Js.keys o = Js.keys fields.
Proof.
  unfold asObjectOf. revert o. induction fields as [|[k v] fields IH]; intros o; simpl.
  - now intros [= <-].
  - destruct (read v) as [a|]; [|discriminate].
    destruct (fold_right _ _ fields) as [o'|]; [|discriminate].
    intros [= <-]. simpl. now rewrite (IH o' eq_refl).
Qed.

Lemma asObjectOf_own (A : Type) (read : json -> option A)
      (fields : list (string * json)) (o : Js.object A) (k : string) (a : A) :
  asObjectOf read (JObj fields) = Some o -> Js.own k o = Some a ->
  exists j, Js.own k fields = Some j /\ read j = Some a.
Proof.
  unfold asObjectOf. revert o. induction fields as [|[k' v] fields IH]; intros o; simpl.
  - intros [= <-]. discriminate.
  - destruct (read v) as [a'|] eqn:Er; [|discriminate].
    destruct (fold_right _ _ fields) as [o'|]; [|discriminate].
    intros [= <-]. simpl. destruct (String.eqb k k').
    + intros [= <-]. eauto.
    + now apply IH.
Qed.

Lemma own_wf (fields : list (string * json)) (k : string) (j : json) :
  Json.wf (JObj fields) -> Js.own k fields = Some j -> Json.wf j.
Proof.
  rewrite wf_object. intros [_ Hall].
  induction Hall as [|[k' v] fields Hv Hall IH]; simpl; [discriminate|].
  destruct (String.eqb k k'); [now intros [= <-] | exact IH].
Qed.

Lemma fetchPackageInfo_wf (registry : Registry) (packageName : string)
      (w w1 : World) (info : json) :
  fetchPackageInfo registry packageName w = (Returned info, w1) -> Json.wf info.
Proof.
  unfold fetchPackageInfo. run.
  destruct (transport _) as [m|status body]; [discriminate|].
  destruct (status =? 200)%N.
  - destruct (Json.parse body) as [doc|] eqn:E; [|discriminate].
    intros [= <- _]. now apply parse_wf with body.
  - destruct (status =? 404)%N; [|discriminate]. now intros [= <- _].
Qed.

Lemma packageInfo_wf (doc : json) (i : PackageInfo) :
  Json.wf doc -> packageInfo doc = Some i ->
  NoDup (Js.keys (info_dist_tags i))
  /\ forall version fields,
      Js.own version (info_versions i) = Some fields -> Json.wf (JObj fields).
Proof.
  intros Hwf. unfold packageInfo.
  destruct doc as [| | | | |fields]; try discriminate.
  destruct (Js.own "versions" fields) as [vs|] eqn:Ev; [|discriminate].
  destruct (Js.own "dist-tags" fields) as [ts|] eqn:Et; [|discriminate].
  destruct (asObjectOf asObject vs) as [v|] eqn:Eov; [|discriminate].
  destruct (asObjectOf asString ts) as [t|] eqn:Eot; [|discriminate].
  intros [= <-]. cbn [info_dist_tags info_versions].
  pose proof (own_wf _ Hwf Ev) as Hvs. pose proof (own_wf _ Hwf Et) as Hts.
  split.
  - destruct ts as [| | | | |tfields]; try discriminate.
    rewrite (asObjectOf_keys _ _ Eot). now apply wf_object in Hts.
  - intros version f Hown.
    destruct vs as [| | | | |vfields]; try discriminate.
    destruct (asObjectOf_own _ _ _ Eov Hown) as (j & Hj & Hread).
    destruct j; try discriminate. injection Hread as <-.
    now apply own_wf with vfields version.
Qed.

Lemma fetchVersionsAndTags_nodup (registry : Registry) (packageName : string)
      (w w1 : World) (v : VersionsAndTags) :
  fetchVersionsAndTags registry packageName w = (Returned (Some v), w1) ->
  NoDup (Js.keys (tags v)).
Proof.
  unfold fetchVersionsAndTags, bind.
  destruct (fetchPackageInfo registry packageName w) as [[info|e] w0] eqn:E;
    [|discriminate].
  apply fetchPackageInfo_wf in E.
  destruct (Json.falsy info); [discriminate|].
  destruct (packageInfo info) as [i|] eqn:Ei; [|discriminate].
  intros [= <- _]. cbn [tags]. now apply (@packageInfo_wf info i E Ei).
Qed.

Lemma cleanPackageConfig_wf (doc : Js.object json) :
  Json.wf (JObj doc) -> Json.wf (JObj (cleanPackageConfig doc)).
Proof.
  intros Hdoc. unfold cleanPackageConfig.
  assert (H : forall ks memo, Json.wf (JObj memo) ->
                              Json.wf (JObj (fold_left (cleanStep doc) ks memo))).
  { induction ks as [|k ks IH]; intros memo Hmemo; [exact Hmemo|].
    cbn [fold_left]. apply IH. unfold cleanStep.
    destruct (negb _ && negb _); [|exact Hmemo].
    destruct (Js.own k doc) as [v|] eqn:E; [|exact Hmemo].
    apply wf_set; [exact Hmemo | now apply own_wf with doc k]. }
  apply H. simpl. split; [constructor | exact I].
Qed.

Lemma fetchPackageConfig_wf (registry : Registry) (packageName version : string)
      (w w1 : World) (c : Js.object json) :
  fetchPackageConfig registry packageName version w = (Returned (Some c), w1) ->
  Json.wf (JObj c).
Proof.
  unfold fetchPackageConfig, bind.
  destruct (fetchPackageInfo registry packageName w) as [[info|e] w0] eqn:E;
    [|discriminate].
  apply fetchPackageInfo_wf in E.
  destruct (Json.falsy info); [discriminate|].
  destruct (packageInfo info) as [i|] eqn:Ei; [|discriminate].
  destruct (negb _); [discriminate|].
  destruct (Js.get version (info_versions i)) as [doc|name|] eqn:Eg; [| |discriminate].
  - intros [= <- _]. apply cleanPackageConfig_wf.
    apply (proj2 (@packageInfo_wf info i E Ei) version).
    unfold Js.get in Eg. destruct (Js.own version (info_versions i)).
    + now injection Eg as ->.
    + now destruct (Js.inherited version).
  - intros [= <- _]. simpl. split; [constructor | exact I].
Qed.

(** The path of a lookup that hits. *)
Lemma getVersionsAndTags_hit (registry : Registry) (packageName : string)
      (w : World) (text : string) :
  fst (Lru.get ("versions-" ++ packageName) (clock w) (cache w)) = Some text ->
  fst (getVersionsAndTags registry packageName w)
  = if String.eqb text notFound then Returned None
    else match Json.parse text with
         | Some doc =>
             match versionsAndTagsOfJson doc with
             | Some v => Returned (Some v)
             | None => Thrown TypeError
             end
         | None => Thrown SyntaxError
         end.
Proof.
  intros Hhit. unfold getVersionsAndTags, bind, cache_get.
  destruct (Lru.get _ (clock w) (cache w)) as [found c']. simpl in Hhit. subst found.
  destruct (String.eqb text notFound); [reflexivity|].
  unfold parseCached. destruct (Json.parse text) as [doc|]; [|reflexivity].
  now destruct (versionsAndTagsOfJson doc).
Qed.

Lemma getPackageConfig_hit (registry : Registry) (packageName version : string)
      (w : World) (text : string) :
  fst (Lru.get ("config-" ++ packageName ++ "-" ++ version) (clock w) (cache w))
  = Some text ->
  fst (getPackageConfig registry packageName version w)
  = if String.eqb text notFound then Returned None
    else match Json.parse text with
         | Some doc =>
             match asObject doc with
             | Some v => Returned (Some v)
             | None => Thrown TypeError
             end
         | None => Thrown SyntaxError
         end.
Proof.
  intros Hhit. unfold getPackageConfig, bind, cache_get.
  destruct (Lru.get _ (clock w) (cache w)) as [found c']. simpl in Hhit. subst found.
  destruct (String.eqb text notFound); [reflexivity|].
  unfold parseCached. destruct (Json.parse text) as [doc|]; [|reflexivity].
  now destruct (asObject doc).
Qed.

(** An entry that fits is found until its time to live has elapsed. *)
Lemma get_within_ttl (key value : string) (ttl now dt : N) (c : Lru.t) :
  ttl <> 0%N -> (Lru.length value <= Lru.max)%N -> (dt <= ttl)%N ->
  fst (Lru.get key (now + dt) (Lru.set key value ttl now c)) = Some value.
Proof.
  intros Httl Hfit Hdt.
  destruct (@set_head key value ttl now c Httl Hfit) as [rest ->].
  unfold Lru.get, Lru.written. cbn [Lru.find Lru.e_key]. rewrite String.eqb_refl.
  unfold Lru.isStale. cbn [Lru.e_maxAge Lru.e_now Lru.e_value fst].
  replace (now + dt - now)%N with dt by lia.
  assert (E : (ttl <? dt)%N = false) by (apply N.ltb_ge; lia).
  now rewrite E.
Qed.

Lemma getVersionsAndTags_stored (registry : Registry) (packageName : string)
      (w w1 : World) (r : option VersionsAndTags) :
  fst (Lru.get ("versions-" ++ packageName) (clock w) (cache w)) = None ->
  getVersionsAndTags registry packageName w = (Returned r, w1) ->
  cache w1 = Lru.set ("versions-" ++ packageName) (versionsText r) (ttlOf r)
                     (clock w1) (cache w)
  /\ forall v, r = Some v -> Json.wf (jsonOfVersionsAndTags v).
Proof.
  intros Hmiss. rewrite (getVersionsAndTags_miss registry packageName w Hmiss).
  pose proof (fetchVersionsAndTags_world registry packageName w) as Hw.
  rewrite fetchPackageInfo_world in Hw.
  destruct (fetchVersionsAndTags registry packageName w) as [[[v|]|e] w0] eqn:Ef;
    [| |discriminate]; simpl in Hw; subst w0; intros [= <- <-]; simpl; split; auto.
  - intros v' [= <-]. apply wf_jsonOfVersionsAndTags.
    now apply fetchVersionsAndTags_nodup with registry packageName w
      {| cache := cache w;
         clock := (clock w + latency (registry (infoRequest packageName) (clock w)))%N |}.
  - discriminate.
Qed.

Lemma getPackageConfig_stored (registry : Registry) (packageName version : string)
      (w w1 : World) (r : option (Js.object json)) :
  fst (Lru.get ("config-" ++ packageName ++ "-" ++ version) (clock w) (cache w)) = None ->
  getPackageConfig registry packageName version w = (Returned r, w1) ->
  cache w1 = Lru.set ("config-" ++ packageName ++ "-" ++ version) (configText r)
                     (ttlOf r) (clock w1) (cache w)
  /\ forall c, r = Some c -> Json.wf (JObj c).
Proof.
  intros Hmiss. rewrite (getPackageConfig_miss registry packageName version w Hmiss).
  pose proof (fetchPackageConfig_world registry packageName version w) as Hw.
  rewrite fetchPackageInfo_world in Hw.
  destruct (fetchPackageConfig registry packageName version w) as [[[c|]|e] w0] eqn:Ef;
    [| |discriminate]; simpl in Hw; subst w0; intros [= <- <-]; simpl; split; auto.
  - intros c' [= <-].
    now apply fetchPackageConfig_wf with registry packageName version w
      {| cache := cache w;
         clock := (clock w + latency (registry (infoRequest packageName) (clock w)))%N |}.
  - discriminate.
Qed.

Lemma ttlOf_positive (A : Type) (r : option A) : ttlOf r <> 0%N.
Proof. destruct r; vm_compute; discriminate. Qed.





(** ** The cache claims on the example registry *)

Lemma results_are_cached_with_their_ttl_witness :
  map Lru.e_maxAge
      (cache (snd (getVersionsAndTags Example.registry "react" Example.start)))
  = [60000%N]
  /\ map Lru.e_maxAge
         (cache (snd (getVersionsAndTags Example.registry "left-pad" Example.start)))
     = [300000%N]
  /\ map Lru.e_maxAge
         (cache (snd (getPackageConfig Example.registry "react" "1.3.0" Example.start)))
     = [60000%N]
  /\ map Lru.e_maxAge
         (cache (snd (getPackageConfig Example.registry "react" "0.0.1" Example.start)))
     = [300000%N].
Proof.
  destruct (@results_are_cached_with_their_ttl Example.registry "react" "1.3.0"
              Example.start) as (Hv & Hc & _).
  destruct (Hv eq_refl) as (Hpos & _). destruct (Hc eq_refl) as (Hcpos & _).
  destruct (@results_are_cached_with_their_ttl Example.registry "left-pad" "1.0.0"
              Example.start) as (Hvn & _).
  destruct (Hvn eq_refl) as (_ & Hneg).
  destruct (@results_are_cached_with_their_ttl Example.registry "react" "0.0.1"
              Example.start) as (_ & Hcn & _).
  destruct (Hcn eq_refl) as (_ & Hcneg).
  split; [|split; [|split]].
  - destruct (Hpos {| versions := ["2.0.0"; "1.2.0"; "1.3.0"];
                      tags := [("latest", "2.0.0")] |}
                   {| cache := Lru.empty; clock := 1040 |} eq_refl) as [E _].
    rewrite E. reflexivity.
  - destruct (Hneg {| cache := Lru.empty; clock := 1040 |} eq_refl) as [E _].
    rewrite E. reflexivity.
  - destruct (Hcpos [ ("name", JStr "react"); ("version", JStr "1.3.0");
                      ("main", JStr "index.js");
                      ("dependencies", JObj [("object-assign", JStr "^4.1.1")]) ]
                    {| cache := Lru.empty; clock := 1040 |} eq_refl) as [E _].
    rewrite E. reflexivity.
  - destruct (Hcneg {| cache := Lru.empty; clock := 1040 |} eq_refl) as [E _].
    rewrite E. reflexivity.
Defined.

Lemma failures_are_not_cached_witness :
  @resolveVersion nodeSemver Example.registry "broken" "latest" Example.start
  = (Thrown (Error ("Failed to fetch info for broken" ++ newline ++ "status: 500"
                    ++ newline ++ "data: Internal Server Error")),
     {| cache := Lru.empty; clock := 1040 |})
  /\ getPackageConfig Example.registry "offline" "1.0.0" Example.start
     = (Thrown (TransportError "ECONNRESET"), {| cache := Lru.empty; clock := 1040 |}).
Proof.
  split.
  - destruct (@failures_are_not_cached nodeSemver Example.registry "broken" "1.0.0"
                "latest" Example.start {| cache := Lru.empty; clock := 1040 |} _ eq_refl)
      as (_ & Hv & _).
    now destruct (Hv eq_refl) as (_ & _ & Hresolve).
  - destruct (@failures_are_not_cached nodeSemver Example.registry "offline" "1.0.0"
                "latest" Example.start {| cache := Lru.empty; clock := 1040 |} _ eq_refl)
      as (_ & _ & Hc).
    exact (Hc eq_refl).
Defined.


(** ** The examples of the design, run *)

Example sort_example :
  sort (@byVersion nodeSemver) ["2.0.0"; "1.0.0"; "1.2.0"]
  = Some ["1.0.0"; "1.2.0"; "2.0.0"].
Proof. reflexivity. Qed.

Example sort_is_not_lexicographic :
  sort (@byVersion nodeSemver) ["10.0.0"; "9.0.0"; "1.0.0-rc.10"; "1.0.0-rc.2"]
  = Some ["1.0.0-rc.2"; "1.0.0-rc.10"; "9.0.0"; "10.0.0"].
Proof. reflexivity. Qed.

Example caret_example :
  @semver.maxSatisfying nodeSemver ["1.2.0"; "1.3.0"; "2.0.0"] "^1.2.0" = Some "1.3.0".
Proof. reflexivity. Qed.

Example unknown_version_example :
  @semver.maxSatisfying nodeSemver ["1.2.0"; "1.3.0"; "2.0.0"] "9.9.9" = None.
Proof. reflexivity. Qed.

Example scoped_tarball_example :
  req_path (tarballRequest "@scope/pkg" "1.0.0") = "/@scope/pkg/-/pkg-1.0.0.tgz".
Proof. reflexivity. Qed.

Example scoped_info_example :
  req_path (infoRequest "@scope/pkg") = "/@scope%2Fpkg".
Proof. reflexivity. Qed.

(** A second call within the minute is served from the cache and does not
    reach the registry; after the five minutes of a negative entry the
    registry is asked again. *)
Example second_call_is_a_hit :
  let w1 := snd (getVersionsAndTags Example.registry "react" Example.start) in
  getVersionsAndTags Example.down "react" (later 59000 w1)
  = (Returned (Some {| versions := ["2.0.0"; "1.2.0"; "1.3.0"];
                       tags := [("latest", "2.0.0")] |}),
     later 59000 w1).
Proof. reflexivity. Qed.

Example negative_entry_expires :
  let w1 := snd (getVersionsAndTags Example.registry "left-pad" Example.start) in
  fst (getVersionsAndTags Example.down "left-pad" (later 300000 w1)) = Returned None
  /\ exists message,
      fst (getVersionsAndTags Example.down "left-pad" (later 300001 w1))
      = Thrown (Error message).
Proof. split; [reflexivity | eexists; reflexivity]. Qed.

(** A name every object inherits is in the tag map for the [in] test of
    the source, and resolves to [null] as any text that is no range. *)
Example inherited_name_example :
  fst (@resolveVersion nodeSemver Example.registry "react" "constructor" Example.start)
  = Returned None
  /\ fst (getPackageConfig Example.registry "react" "constructor" Example.start)
     = Returned (Some []).
Proof. split; reflexivity. Qed.

(** ** More on the requests *)

(** One character of a name, written by [encodeURIComponent] and passed
    through the URL parser, reads back as itself. *)
Lemma decode_encoded_char (c : ascii) (rest : string) :
  decodeURIComponent
    (Uri.autoEscapeStr (if Uri.unreserved c then String c EmptyString
                        else Uri.percent c) ++ rest)
  = option_map (String c) (decodeURIComponent rest).
Proof.
  destruct c as [[|] [|] [|] [|] [|] [|] [|] [|]]; reflexivity.
Qed.

Lemma decode_encodeURIComponent (s : string) :
  decodeURIComponent (Uri.autoEscapeStr (Uri.encodeURIComponent s)) = Some s.
Proof.
  induction s as [|c s IH]; [reflexivity|].
  cbn [Uri.encodeURIComponent].
  rewrite autoEscapeStr_append, decode_encoded_char, IH. reflexivity.
Qed.

Lemma scoped_name (packageName : string) :
  isScopedPackageName packageName = true ->
  packageName = String "@" (Js.substring1 packageName).
Proof.
  unfold isScopedPackageName. destruct packageName as [|c rest]; [discriminate|].
  cbn [Js.startsWith Js.substring1]. rewrite andb_true_r.
  intros H. apply Ascii.eqb_eq in H. now subst c.
Qed.

Lemma decode_encodePackageName (packageName : string) :
  decodeURIComponent (Uri.autoEscapeStr (encodePackageName packageName))
  = Some packageName.
Proof.
  unfold encodePackageName.
  destruct (isScopedPackageName packageName) eqn:E.
  - apply scoped_name in E. rewrite E at 2.
    change (Uri.autoEscapeStr ("@" ++ ?x)) with (String "@" (Uri.autoEscapeStr x)).
    cbn [decodeURIComponent]. change (Ascii.eqb "@" "%") with false. cbv iota.
    now rewrite decode_encodeURIComponent.
  - apply decode_encodeURIComponent.
Qed.

Lemma written_noSlash (s : string) :
  Js.allChars Uri.written s = true -> noSlash (Uri.autoEscapeStr s).
Proof.
  unfold noSlash. induction s as [|c s IH]; simpl; [reflexivity|].
  intros H. apply andb_true_iff in H as [Hc Hs].
  rewrite allChars_append, (IH Hs), andb_true_r.
  revert Hc. by_cases_on_ascii c.
Qed.

(** X1.  The path of the metadata request reads back as the package
    name: decoding its percent escapes gives a slash followed by the name
    that was asked for, whatever characters the name has.  The name is one
    path segment (the only slash is the leading one), and two different
    names are never asked for under the same path. *)
Theorem metadata_path_reads_back :
  (forall packageName,
      decodeURIComponent (req_path (infoRequest packageName))
      = Some ("/" ++ packageName))
  /\ (forall packageName,
         exists piece, req_path (infoRequest packageName) = "/" ++ piece
                       /\ noSlash piece)
  /\ (forall a b,
         req_path (infoRequest a) = req_path (infoRequest b) -> a = b).
Proof.
  assert (Hback : forall packageName,
             decodeURIComponent (req_path (infoRequest packageName))
             = Some ("/" ++ packageName)).
  { intros packageName. rewrite infoRequest_path.
    change (decodeURIComponent ("/" ++ ?x))
      with (option_map (String "/") (decodeURIComponent x)).
    now rewrite decode_encodePackageName. }
  split; [exact Hback|]. split.
  - intros packageName. exists (Uri.autoEscapeStr (encodePackageName packageName)).
    split; [apply infoRequest_path|].
    apply written_noSlash, encodePackageName_written.
  - intros a b E. pose proof (Hback a) as Ha. rewrite E, Hback in Ha.
    now injection Ha as ->.
Qed.

Lemma metadata_path_reads_back_witness :
  decodeURIComponent (req_path (infoRequest "@babel/core")) = Some "/@babel/core"
  /\ req_path (infoRequest "@babel/core") = "/@babel%2Fcore"
  /\ "react" = "react".
Proof.
  destruct metadata_path_reads_back as (Hback & _ & Hinj).
  split; [exact (Hback "@babel/core")|]. split; [reflexivity|].
  exact (Hinj "react" "react" eq_refl).
Defined.

Lemma split_noSlash (s : string) : noSlash s -> Js.split "/" s = [s].
Proof.
  unfold noSlash. induction s as [|c s IH]; simpl; [reflexivity|].
  intros H. apply andb_true_iff in H as [Hc Hs].
  apply negb_true_iff in Hc. now rewrite Hc, (IH Hs).
Qed.

Lemma split_at_first_slash (a b : string) :
  noSlash a -> Js.split "/" (a ++ "/" ++ b) = a :: Js.split "/" b.
Proof.
  unfold noSlash. induction a as [|c a IH]; simpl in *; [reflexivity|].
  intros H. apply andb_true_iff in H as [Hc Ha].
  apply negb_true_iff in Hc. now rewrite Hc, (IH Ha).
Qed.

(** X2.  The base name [getPackage] gives the archive of a scoped package
    is the second piece of the name cut at its slashes, whatever follows:
    for [@scope/pkg] it is [pkg], for a name with more slashes it is still
    the piece after the scope, and for a scoped name without a slash there
    is no second piece and the base name is the word [undefined]. *)
Theorem tarballName_second_piece (scope pkg rest : string) :
  noSlash scope -> noSlash pkg ->
  tarballName ("@" ++ scope ++ "/" ++ pkg) = pkg
  /\ tarballName ("@" ++ scope ++ "/" ++ pkg ++ "/" ++ rest) = pkg
  /\ tarballName ("@" ++ scope) = "undefined".
Proof.
  intros Hs Hp.
  assert (Hat : noSlash ("@" ++ scope)) by exact Hs.
  assert (E1 : Js.split "/" ("@" ++ scope ++ "/" ++ pkg) = ["@" ++ scope; pkg]).
  { rewrite <- (split_noSlash Hp).
    exact (@split_at_first_slash ("@" ++ scope) pkg Hat). }
  assert (E2 : Js.split "/" ("@" ++ scope ++ "/" ++ pkg ++ "/" ++ rest)
               = ("@" ++ scope) :: pkg :: Js.split "/" rest).
  { rewrite <- (@split_at_first_slash pkg rest Hp).
    exact (@split_at_first_slash ("@" ++ scope) (pkg ++ "/" ++ rest) Hat). }
  unfold tarballName.
  change (isScopedPackageName ("@" ++ ?x)) with true. cbv iota.
  rewrite E1, E2, (split_noSlash Hat). now split.
Qed.

Lemma tarballName_second_piece_witness :
  tarballName "@babel/core" = "core"
  /\ tarballName "@babel/core/lib" = "core"
  /\ tarballName "@babel" = "undefined".
Proof.
  exact (@tarballName_second_piece "babel" "core" "lib" eq_refl eq_refl).
Defined.

Lemma parse_under_registry (tail : string) :
  Uri.hostname (Uri.parse (npmRegistryURL ++ "/" ++ tail)) = "registry.npmjs.org"
  /\ exists p, Uri.pathname (Uri.parse (npmRegistryURL ++ "/" ++ tail)) = "/" ++ p.
Proof.
  split; [reflexivity|].
  unfold Uri.parse, npmRegistryURL.
  change (Uri.afterScheme ("https://registry.npmjs.org" ++ "/" ++ tail))
    with ("registry.npmjs.org" ++ "/" ++ tail).
  cbn [Uri.pathname].
  set (q := Uri.takeUntil (Ascii.eqb "?") tail).
  set (d := Uri.dropUntil (Ascii.eqb "?") ("registry.npmjs.org" ++ "/" ++ tail)).
  change (Uri.takeUntil (Ascii.eqb "?") ("registry.npmjs.org" ++ "/" ++ tail))
    with ("registry.npmjs.org" ++ "/" ++ q).
  change (Uri.dropUntil Uri.hostEnd
            (Uri.slashes ("registry.npmjs.org" ++ "/" ++ q) ++ d))
    with ("/" ++ (Uri.slashes q ++ d)).
  change (Uri.autoEscapeStr (Uri.takeUntil Uri.pathEnd ("/" ++ (Uri.slashes q ++ d))))
    with ("/" ++ Uri.autoEscapeStr (Uri.takeUntil Uri.pathEnd (Uri.slashes q ++ d))).
  now eexists.
Qed.

(** X3.  Whatever the package name and the version are, both requests go
    to the host of the registry and ask for an absolute path: no character
    of a name or of a version can move a request to another host.  The
    metadata request asks for JSON, the archive request sends no [Accept]
    header. *)
Theorem requests_stay_on_the_registry (packageName version : string) :
  (req_hostname (infoRequest packageName) = "registry.npmjs.org"
   /\ req_accept (infoRequest packageName) = Some "application/json"
   /\ exists p, req_path (infoRequest packageName) = "/" ++ p)
  /\ (req_hostname (tarballRequest packageName version) = "registry.npmjs.org"
      /\ req_accept (tarballRequest packageName version) = None
      /\ exists p, req_path (tarballRequest packageName version) = "/" ++ p).
Proof.
  unfold infoRequest, tarballRequest, infoURL, tarballURL.
  cbn [req_hostname req_path req_accept].
  split; (split; [|split; [reflexivity|]]); apply parse_under_registry.
Qed.

(** ** The archive fetch *)

(** X4.  [getPackage] sends one request and never touches the cache: the
    world after the call is the world before it with the clock advanced by
    the time the answer took.  A response of status 200 gives the body;
    every other status, 404 included, throws an error that carries the
    name, the version, the status and the body; a transport error is
    thrown as it is. *)
Theorem getPackage_by_status (registry : Registry) (packageName version : string)
        (w : World) :
  let reply := registry (tarballRequest packageName version) (clock w) in
  snd (getPackage registry packageName version w)
  = {| cache := cache w; clock := (clock w + latency reply)%N |}
  /\ (forall body,
         transport reply = Response 200 body ->
         fst (getPackage registry packageName version w) = Returned body)
  /\ (forall statusCode body,
         transport reply = Response statusCode body -> statusCode <> 200%N ->
         fst (getPackage registry packageName version w)
         = Thrown (Error ("Failed to fetch tarball for " ++ packageName ++ "@"
                          ++ version ++ newline ++ "status: "
                          ++ Js.showN statusCode ++ newline ++ "data: " ++ body)))
  /\ (forall message,
         transport reply = NetworkError message ->
         fst (getPackage registry packageName version w)
         = Thrown (TransportError message)).
Proof.
  intros reply. subst reply. unfold getPackage. run.
  destruct (transport _) as [m|status body] eqn:E.
  - split; [reflexivity|]. split; [discriminate|]. split; [discriminate|].
    now intros message [= <-].
  - destruct (N.eqb_spec status 200) as [->|Hne]; simpl.
    + split; [reflexivity|]. split; [now intros b [= <-]|].
      split; [|discriminate]. intros s b [= <- <-] H. now elim H.
    + split; [reflexivity|]. split; [intros b [= Hs _]; now elim Hne|].
      split; [|discriminate]. now intros s b [= <- <-] _.
Qed.

Lemma getPackage_by_status_witness :
  getPackage Example.registry "left-pad" "1.3.0" Example.start
  = (Thrown (Error ("Failed to fetch tarball for left-pad@1.3.0" ++ newline
                    ++ "status: 404" ++ newline ++ "data: {}")),
     {| cache := Lru.empty; clock := 1040 |})
  /\ fst (getPackage Archive.registry "react" "1.3.0" Example.start)
     = Returned Archive.bytes
  /\ fst (getPackage Archive.registry "offline" "1.0.0" Example.start)
     = Thrown (TransportError "ETIMEDOUT").
Proof.
  split; [|split].
  - destruct (@getPackage_by_status Example.registry "left-pad" "1.3.0" Example.start)
      as (Hworld & _ & Hother & _).
    rewrite (surjective_pairing (getPackage _ _ _ _)), Hworld.
    rewrite (Hother 404%N "{}" eq_refl); [reflexivity | discriminate].
  - destruct (@getPackage_by_status Archive.registry "react" "1.3.0" Example.start)
      as (_ & Hok & _).
    exact (Hok Archive.bytes eq_refl).
  - destruct (@getPackage_by_status Archive.registry "offline" "1.0.0" Example.start)
      as (_ & _ & _ & Hnet).
    exact (Hnet "ETIMEDOUT" eq_refl).
Defined.

(** ** More on the cache *)

Lemma find_key (key : string) (c : Lru.t) (e : Lru.entry) :
  Lru.find key c = Some e -> Lru.e_key e = key.
Proof.
  induction c as [|x c IH]; simpl; [discriminate|].
  destruct (String.eqb_spec key (Lru.e_key x)) as [->|_]; [|exact IH].
  now intros [= <-].
Qed.

Lemma find_remove_other (key key' : string) (c : Lru.t) :
  key' <> key -> Lru.find key' (Lru.remove key c) = Lru.find key' c.
Proof.
  intros Hne. induction c as [|x c IH]; simpl; [reflexivity|].
  destruct (String.eqb_spec key (Lru.e_key x)) as [->|Hx]; simpl.
  - apply String.eqb_neq in Hne. now rewrite Hne.
  - now rewrite IH.
Qed.

(** A write under one key brings no entry under another. *)
Lemma find_set_other (key key' value : string) (ttl now : N) (c : Lru.t)
      (e : Lru.entry) :
  key' <> key ->
  Lru.find key' (Lru.set key value ttl now c) = Some e -> Lru.find key' c = Some e.
Proof.
  intros Hne. unfold Lru.set.
  destruct (Lru.max <? Lru.length value)%N.
  - now rewrite find_remove_other.
  - set (new := Lru.written key value _ now).
    destruct (trim_prefix (new :: Lru.remove key c)) as [d Hd].
    intros H. pose proof (@find_prefix key' _ d e H) as H'.
    rewrite <- Hd in H'. simpl in H'.
    apply String.eqb_neq in Hne. rewrite Hne in H'.
    apply String.eqb_neq in Hne. now rewrite find_remove_other in H'.
Qed.

Lemma isStale_later (now now' : N) (e : Lru.entry) :
  (now <= now')%N -> Lru.isStale now e = true -> Lru.isStale now' e = true.
Proof.
  unfold Lru.isStale. intros Hle H. apply N.ltb_lt in H. apply N.ltb_lt. lia.
Qed.

(** An entry is not served once its time to live has elapsed. *)
Lemma get_after_ttl (key value : string) (ttl now dt : N) (c : Lru.t) :
  ttl <> 0%N -> (ttl < dt)%N ->
  fst (Lru.get key (now + dt) (Lru.set key value ttl now c)) = None.
Proof.
  intros Httl Hdt. unfold Lru.get.
  destruct (Lru.find key (Lru.set key value ttl now c)) as [e|] eqn:E; [|reflexivity].
  apply find_after_set in E. apply N.eqb_neq in Httl. rewrite Httl in E. subst e.
  unfold Lru.isStale, Lru.written. cbn [Lru.e_maxAge Lru.e_now].
  assert (H : (ttl <? now + dt - now)%N = true) by (apply N.ltb_lt; lia).
  now rewrite H.
Qed.

Lemma miss_stays_miss (key : string) (now now' : N) (c c' : Lru.t) :
  (now <= now')%N ->
  (forall e, Lru.find key c' = Some e -> Lru.find key c = Some e) ->
  fst (Lru.get key now c) = None -> fst (Lru.get key now' c') = None.
Proof.
  intros Hle Hsub. unfold Lru.get.
  destruct (Lru.find key c') as [e|] eqn:E; [|reflexivity].
  rewrite (Hsub e eq_refl).
  destruct (Lru.isStale now e) eqn:Es; [|discriminate].
  now rewrite (isStale_later e Hle Es).
Qed.

Lemma get_hit (key text : string) (now : N) (c : Lru.t) :
  fst (Lru.get key now c) = Some text ->
  exists e, Lru.find key c = Some e
            /\ Lru.get key now c = (Some text, e :: Lru.remove key c).
Proof.
  unfold Lru.get. destruct (Lru.find key c) as [e|]; [|discriminate].
  destruct (Lru.isStale now e); [discriminate|].
  simpl. intros [= <-]. now exists e.
Qed.

Lemma getVersionsAndTags_step (registry : Registry) (packageName : string)
      (w : World) :
  step_on ("versions-" ++ packageName) w
          (snd (getVersionsAndTags registry packageName w)).
Proof.
  destruct (fst (Lru.get ("versions-" ++ packageName) (clock w) (cache w)))
    as [text|] eqn:E.
  - left. destruct (get_hit _ _ _ E) as (e & Hfind & Hget). exists e.
    split; [exact Hfind|].
    unfold getVersionsAndTags, bind, cache_get. rewrite Hget.
    destruct (String.eqb text notFound); [now split|].
    unfold parseCached. destruct (Json.parse text) as [doc|]; [|now split].
    destruct (versionsAndTagsOfJson doc); now split.
  - right. rewrite (getVersionsAndTags_miss registry packageName w E).
    pose proof (fetchVersionsAndTags_world registry packageName w) as Hw.
    rewrite fetchPackageInfo_world in Hw.
    destruct (fetchVersionsAndTags registry packageName w) as [[[v|]|x] w1];
      simpl in Hw; subst w1; cbn [snd cache clock].
    + right. eexists _, _. split; [reflexivity | lia].
    + right. eexists _, _. split; [reflexivity | lia].
    + left. split; [reflexivity | lia].
Qed.

Lemma getPackageConfig_step (registry : Registry) (packageName version : string)
      (w : World) :
  step_on ("config-" ++ packageName ++ "-" ++ version) w
          (snd (getPackageConfig registry packageName version w)).
Proof.
  destruct (fst (Lru.get ("config-" ++ packageName ++ "-" ++ version)
                         (clock w) (cache w))) as [text|] eqn:E.
  - left. destruct (get_hit _ _ _ E) as (e & Hfind & Hget). exists e.
    split; [exact Hfind|].
    unfold getPackageConfig, bind, cache_get. rewrite Hget.
    destruct (String.eqb text notFound); [now split|].
    unfold parseCached. destruct (Json.parse text) as [doc|]; [|now split].
    destruct (asObject doc); now split.
  - right. rewrite (getPackageConfig_miss registry packageName version w E).
    pose proof (fetchPackageConfig_world registry packageName version w) as Hw.
    rewrite fetchPackageInfo_world in Hw.
    destruct (fetchPackageConfig registry packageName version w) as [[[v|]|x] w1];
      simpl in Hw; subst w1; cbn [snd cache clock].
    + right. eexists _, _. split; [reflexivity | lia].
    + right. eexists _, _. split; [reflexivity | lia].
    + left. split; [reflexivity | lia].
Qed.

Lemma step_clock (key : string) (w w' : World) :
  step_on key w w' -> (clock w <= clock w')%N.
Proof.
  intros [(e & _ & _ & ->) | [(_ & H) | (value & ttl & _ & H)]]; lia.
Qed.

Lemma step_other_key (key key' : string) (w w' : World) (e : Lru.entry) :
  step_on key w w' -> key' <> key ->
  Lru.find key' (cache w') = Some e -> Lru.find key' (cache w) = Some e.
Proof.
  intros [(x & Hx & -> & _) | [(-> & _) | (value & ttl & -> & _)]] Hne.
  - apply find_key in Hx. simpl. rewrite Hx.
    apply String.eqb_neq in Hne. rewrite Hne. apply String.eqb_neq in Hne.
    now rewrite find_remove_other.
  - auto.
  - now apply find_set_other.
Qed.






(** ** Hits, misses and the time to live *)

Lemma getAvailableVersions_world {S : Semver} (registry : Registry)
      (packageName : string) (w : World) :
  snd (getAvailableVersions registry packageName w)
  = snd (getVersionsAndTags registry packageName w).
Proof.
  unfold getAvailableVersions, bind.
  destruct (getVersionsAndTags registry packageName w) as [[[v|]|e] w1];
    try reflexivity.
  simpl. now destruct (sort byVersion (versions v)).
Qed.

Lemma resolveVersion_world {S : Semver} (registry : Registry)
      (packageName range : string) (w : World) :
  snd (resolveVersion registry packageName range w)
  = snd (getVersionsAndTags registry packageName w).
Proof.
  unfold resolveVersion, bind.
  now destruct (getVersionsAndTags registry packageName w) as [[[v|]|e] w1].
Qed.

Lemma getVersionsAndTags_on_hit (registry registry' : Registry)
      (packageName : string) (w : World) :
  fst (Lru.get ("versions-" ++ packageName) (clock w) (cache w)) <> None ->
  getVersionsAndTags registry packageName w
  = getVersionsAndTags registry' packageName w
  /\ clock (snd (getVersionsAndTags registry packageName w)) = clock w.
Proof.
  intros Hhit.
  destruct (fst (Lru.get ("versions-" ++ packageName) (clock w) (cache w)))
    as [text|] eqn:E; [clear Hhit | now elim Hhit].
  destruct (get_hit _ _ _ E) as (e & _ & Hget).
  unfold getVersionsAndTags, bind, cache_get. rewrite Hget.
  destruct (String.eqb text notFound); [now split|].
  unfold parseCached. destruct (Json.parse text) as [doc|]; [|now split].
  destruct (versionsAndTagsOfJson doc); now split.
Qed.

Lemma getPackageConfig_on_hit (registry registry' : Registry)
      (packageName version : string) (w : World) :
  fst (Lru.get ("config-" ++ packageName ++ "-" ++ version) (clock w) (cache w))
  <> None ->
  getPackageConfig registry packageName version w
  = getPackageConfig registry' packageName version w
  /\ clock (snd (getPackageConfig registry packageName version w)) = clock w.
Proof.
  intros Hhit.
  destruct (fst (Lru.get ("config-" ++ packageName ++ "-" ++ version)
                         (clock w) (cache w))) as [text|] eqn:E;
    [clear Hhit | now elim Hhit].
  destruct (get_hit _ _ _ E) as (e & _ & Hget).
  unfold getPackageConfig, bind, cache_get. rewrite Hget.
  destruct (String.eqb text notFound); [now split|].
  unfold parseCached. destruct (Json.parse text) as [doc|]; [|now split].
  destruct (asObject doc); now split.
Qed.

(** X5.  A call whose lookup finds an entry sends no request: its result
    and the world it leaves are the same whatever the registry would have
    answered, and no time passes.  This holds for the version list with
    its tags and for everything computed from it, and for the
    configuration of a version. *)
Theorem cache_hit_sends_no_request {S : Semver} (registry registry' : Registry)
        (packageName version range : string) (w : World) :
  (fst (Lru.get ("versions-" ++ packageName) (clock w) (cache w)) <> None ->
   getVersionsAndTags registry packageName w
   = getVersionsAndTags registry' packageName w
   /\ getAvailableVersions registry packageName w
      = getAvailableVersions registry' packageName w
   /\ resolveVersion registry packageName range w
      = resolveVersion registry' packageName range w
   /\ clock (snd (getVersionsAndTags registry packageName w)) = clock w
   /\ clock (snd (getAvailableVersions registry packageName w)) = clock w
   /\ clock (snd (resolveVersion registry packageName range w)) = clock w)
  /\ (fst (Lru.get ("config-" ++ packageName ++ "-" ++ version) (clock w) (cache w))
      <> None ->
      getPackageConfig registry packageName version w
      = getPackageConfig registry' packageName version w
      /\ clock (snd (getPackageConfig registry packageName version w)) = clock w).
Proof.
  split.
  - intros Hhit.
    destruct (getVersionsAndTags_on_hit registry registry' packageName w Hhit)
      as [E Hclock].
    split; [exact E|].
    split; [unfold getAvailableVersions, bind; now rewrite E|].
    split; [unfold resolveVersion, bind; now rewrite E|].
    rewrite getAvailableVersions_world, resolveVersion_world. auto.
  - apply getPackageConfig_on_hit.
Qed.

Lemma cache_hit_sends_no_request_witness :
  let w := later 30000 (snd (getVersionsAndTags Example.registry "react" Example.start)) in
  @resolveVersion nodeSemver Example.down "react" "^1.2.0" w
  = @resolveVersion nodeSemver Example.registry "react" "^1.2.0" w
  /\ fst (@resolveVersion nodeSemver Example.down "react" "^1.2.0" w)
     = Returned (Some "1.3.0")
  /\ clock (snd (@resolveVersion nodeSemver Example.down "react" "^1.2.0" w)) = 31040%N.
Proof.
  intros w.
  destruct (@cache_hit_sends_no_request nodeSemver Example.down Example.registry
              "react" "1.3.0" "^1.2.0" w) as (Hv & _).
  destruct Hv as (_ & _ & Hresolve & _ & _ & Hclock);
    [vm_compute; discriminate|].
  split; [exact Hresolve|]. split; [|exact Hclock].
  rewrite Hresolve. vm_compute. reflexivity.
Defined.

Lemma getVersionsAndTags_miss_outcome (registry : Registry) (packageName : string)
      (w : World) :
  fst (Lru.get ("versions-" ++ packageName) (clock w) (cache w)) = None ->
  fst (getVersionsAndTags registry packageName w)
  = fst (fetchVersionsAndTags registry packageName w).
Proof.
  intros Hmiss. rewrite (getVersionsAndTags_miss registry packageName w Hmiss).
  now destruct (fetchVersionsAndTags registry packageName w) as [[[v|]|e] w1].
Qed.

Lemma getPackageConfig_miss_outcome (registry : Registry)
      (packageName version : string) (w : World) :
  fst (Lru.get ("config-" ++ packageName ++ "-" ++ version) (clock w) (cache w))
  = None ->
  fst (getPackageConfig registry packageName version w)
  = fst (fetchPackageConfig registry packageName version w).
Proof.
  intros Hmiss. rewrite (getPackageConfig_miss registry packageName version w Hmiss).
  now destruct (fetchPackageConfig registry packageName version w) as [[[v|]|e] w1].
Qed.

(** X6.  What is not there is remembered for five minutes.  When a lookup
    missed and the fetch found no package (or no such version), every
    call within the next 300 seconds answers from the cache, whatever the
    registry says by then: [getVersionsAndTags] and [resolveVersion] give
    [null], [getAvailableVersions] gives the empty list and
    [getPackageConfig] gives [null]. *)
Theorem absence_is_remembered_five_minutes {S : Semver}
        (registry registry' : Registry) (packageName version range : string)
        (w : World) (dt : N) :
  (dt <= 5 * 60 * oneSecond)%N ->
  (forall wv,
      fst (Lru.get ("versions-" ++ packageName) (clock w) (cache w)) = None ->
      getVersionsAndTags registry packageName w = (Returned None, wv) ->
      fst (getVersionsAndTags registry' packageName (later dt wv)) = Returned None
      /\ fst (getAvailableVersions registry' packageName (later dt wv)) = Returned []
      /\ fst (resolveVersion registry' packageName range (later dt wv))
         = Returned None
      /\ clock (snd (getVersionsAndTags registry' packageName (later dt wv)))
         = (clock wv + dt)%N)
  /\ (forall wc,
         fst (Lru.get ("config-" ++ packageName ++ "-" ++ version) (clock w) (cache w))
         = None ->
         getPackageConfig registry packageName version w = (Returned None, wc) ->
         fst (getPackageConfig registry' packageName version (later dt wc))
         = Returned None
         /\ clock (snd (getPackageConfig registry' packageName version (later dt wc)))
            = (clock wc + dt)%N).
Proof.
  intros Hdt.
  assert (H300 : (5 * oneMinute)%N <> 0%N) by (vm_compute; discriminate).
  assert (Hdt' : (dt <= 5 * oneMinute)%N) by (unfold oneMinute; lia).
  split.
  - intros wv Hmiss Hv.
    destruct (getVersionsAndTags_stored registry packageName w Hmiss Hv) as [Ec _].
    cbn [versionsText ttlOf] in Ec.
    assert (Hhit : fst (Lru.get ("versions-" ++ packageName) (clock (later dt wv))
                                (cache (later dt wv))) = Some notFound).
    { cbn [later clock cache]. rewrite Ec.
      apply get_within_ttl; auto using notFound_fits. }
    assert (E : fst (getVersionsAndTags registry' packageName (later dt wv))
                = Returned None).
    { now rewrite (@getVersionsAndTags_hit registry' packageName (later dt wv)
                     notFound Hhit). }
    assert (Hne : fst (Lru.get ("versions-" ++ packageName) (clock (later dt wv))
                               (cache (later dt wv))) <> None) by congruence.
    destruct (getVersionsAndTags_on_hit registry' registry' packageName
                (later dt wv) Hne) as [_ Hclock].
    split; [exact E|]. split; [|split; [|exact Hclock]].
    + unfold getAvailableVersions, bind.
      destruct (getVersionsAndTags registry' packageName (later dt wv)) as [r w1].
      simpl in E. now subst r.
    + unfold resolveVersion, bind.
      destruct (getVersionsAndTags registry' packageName (later dt wv)) as [r w1].
      simpl in E. now subst r.
  - intros wc Hmiss Hc.
    destruct (getPackageConfig_stored registry packageName version w Hmiss Hc)
      as [Ec _].
    cbn [configText ttlOf] in Ec.
    assert (Hhit : fst (Lru.get ("config-" ++ packageName ++ "-" ++ version)
                                (clock (later dt wc)) (cache (later dt wc)))
                   = Some notFound).
    { cbn [later clock cache]. rewrite Ec.
      apply get_within_ttl; auto using notFound_fits. }
    split.
    + now rewrite (@getPackageConfig_hit registry' packageName version (later dt wc)
                     notFound Hhit).
    + apply (getPackageConfig_on_hit registry' registry'). congruence.
Qed.

Lemma absence_is_remembered_five_minutes_witness :
  let wv := snd (getVersionsAndTags Example.registry "left-pad" Example.start) in
  fst (@getAvailableVersions nodeSemver Example.down "left-pad" (later 299000 wv))
  = Returned []
  /\ fst (@resolveVersion nodeSemver Example.down "left-pad" "latest"
            (later 299000 wv)) = Returned None
  /\ fst (getPackageConfig Example.down "react" "0.0.1"
            (later 300000
               (snd (getPackageConfig Example.registry "react" "0.0.1" Example.start))))
     = Returned None.
Proof.
  intros wv.
  assert (H1 : (299000 <= 5 * 60 * oneSecond)%N) by (vm_compute; discriminate).
  assert (H2 : (300000 <= 5 * 60 * oneSecond)%N) by (vm_compute; discriminate).
  destruct (@absence_is_remembered_five_minutes nodeSemver Example.registry
              Example.down "left-pad" "1.0.0" "latest" Example.start 299000 H1)
    as (Hv & _).
  destruct (Hv wv eq_refl eq_refl) as (_ & Hlist & Hresolve & _).
  destruct (@absence_is_remembered_five_minutes nodeSemver Example.registry
              Example.down "react" "0.0.1" "latest" Example.start 300000 H2)
    as (_ & Hc).
  destruct (Hc _ eq_refl eq_refl) as (Hconfig & _).
  split; [exact Hlist|]. split; [exact Hresolve | exact Hconfig].
Defined.

(** X7.  An entry is not served past its time to live.  After a miss
    that stored a result, a lookup made more than 60 seconds later (more
    than 300 seconds for a negative result) misses again, and the call
    then answers what a fresh fetch answers. *)
Theorem expired_entries_are_fetched_again (registry registry' : Registry)
        (packageName version : string) (w : World) (dt : N) :
  (forall rv wv,
      fst (Lru.get ("versions-" ++ packageName) (clock w) (cache w)) = None ->
      getVersionsAndTags registry packageName w = (Returned rv, wv) ->
      (ttlOf rv < dt)%N ->
      fst (Lru.get ("versions-" ++ packageName) (clock wv + dt) (cache wv)) = None
      /\ fst (getVersionsAndTags registry' packageName (later dt wv))
         = fst (fetchVersionsAndTags registry' packageName (later dt wv)))
  /\ (forall rc wc,
         fst (Lru.get ("config-" ++ packageName ++ "-" ++ version) (clock w) (cache w))
         = None ->
         getPackageConfig registry packageName version w = (Returned rc, wc) ->
         (ttlOf rc < dt)%N ->
         fst (Lru.get ("config-" ++ packageName ++ "-" ++ version)
                      (clock wc + dt) (cache wc)) = None
         /\ fst (getPackageConfig registry' packageName version (later dt wc))
            = fst (fetchPackageConfig registry' packageName version (later dt wc))).
Proof.
  split.
  - intros rv wv Hmiss Hv Hdt.
    destruct (getVersionsAndTags_stored registry packageName w Hmiss Hv) as [Ec _].
    assert (Hgone : fst (Lru.get ("versions-" ++ packageName) (clock wv + dt)
                                 (cache wv)) = None).
    { rewrite Ec. apply get_after_ttl; [apply ttlOf_positive | exact Hdt]. }
    split; [exact Hgone|].
    now apply getVersionsAndTags_miss_outcome.
  - intros rc wc Hmiss Hc Hdt.
    destruct (getPackageConfig_stored registry packageName version w Hmiss Hc)
      as [Ec _].
    assert (Hgone : fst (Lru.get ("config-" ++ packageName ++ "-" ++ version)
                                 (clock wc + dt) (cache wc)) = None).
    { rewrite Ec. apply get_after_ttl; [apply ttlOf_positive | exact Hdt]. }
    split; [exact Hgone|].
    now apply getPackageConfig_miss_outcome.
Qed.

Lemma expired_entries_are_fetched_again_witness :
  let wv := snd (getVersionsAndTags Example.registry "react" Example.start) in
  fst (getVersionsAndTags Example.down "react" (later 60001 wv))
  = Thrown (Error ("Failed to fetch info for react" ++ newline ++ "status: 503"
                   ++ newline ++ "data: Service Unavailable"))
  /\ fst (getVersionsAndTags Example.down "react" (later 60000 wv))
     = Returned (Some {| versions := ["2.0.0"; "1.2.0"; "1.3.0"];
                         tags := [("latest", "2.0.0")] |}).
Proof.
  intros wv.
  destruct (@expired_entries_are_fetched_again Example.registry Example.down
              "react" "1.3.0" Example.start 60001) as (Hv & _).
  destruct (Hv (Some {| versions := ["2.0.0"; "1.2.0"; "1.3.0"];
                        tags := [("latest", "2.0.0")] |}) wv eq_refl eq_refl)
    as (_ & Hfetch); [vm_compute; reflexivity|].
  split; [rewrite Hfetch; reflexivity | vm_compute; reflexivity].
Defined.

(** ** The keys of the cache *)

Lemma versions_key_is_no_config_key (a b : string) :
  "versions-" ++ a <> "config-" ++ b.
Proof. discriminate. Qed.

(** X8.  The two views of a package are cached apart.  A call of
    [getPackageConfig], for any package and version, never fills the entry
    [getVersionsAndTags] reads: if the lookup for the version list missed
    before the call it misses after it, at any later time, and the next
    [getVersionsAndTags] fetches.  The same holds the other way round. *)
Theorem views_are_cached_apart (registry registry' : Registry)
        (packageName other version : string) (w : World) (dt : N) :
  (fst (Lru.get ("versions-" ++ packageName) (clock w) (cache w)) = None ->
   let w' := later dt (snd (getPackageConfig registry other version w)) in
   fst (Lru.get ("versions-" ++ packageName) (clock w') (cache w')) = None
   /\ fst (getVersionsAndTags registry' packageName w')
      = fst (fetchVersionsAndTags registry' packageName w'))
  /\ (fst (Lru.get ("config-" ++ packageName ++ "-" ++ version) (clock w) (cache w))
      = None ->
      let w' := later dt (snd (getVersionsAndTags registry other w)) in
      fst (Lru.get ("config-" ++ packageName ++ "-" ++ version) (clock w') (cache w'))
      = None
      /\ fst (getPackageConfig registry' packageName version w')
         = fst (fetchPackageConfig registry' packageName version w')).
Proof.
  split.
  - intros Hmiss w'.
    pose proof (getPackageConfig_step registry other version w) as Hstep.
    assert (Hgone : fst (Lru.get ("versions-" ++ packageName) (clock w') (cache w'))
                    = None).
    { apply miss_stays_miss with (clock w) (cache w); [| |exact Hmiss].
      - apply step_clock in Hstep. subst w'. cbn [later clock]. lia.
      - intros e. subst w'. cbn [later cache].
        apply (step_other_key Hstep). apply versions_key_is_no_config_key. }
    split; [exact Hgone|]. now apply getVersionsAndTags_miss_outcome.
  - intros Hmiss w'.
    pose proof (getVersionsAndTags_step registry other w) as Hstep.
    assert (Hgone : fst (Lru.get ("config-" ++ packageName ++ "-" ++ version)
                                 (clock w') (cache w')) = None).
    { apply miss_stays_miss with (clock w) (cache w); [| |exact Hmiss].
      - apply step_clock in Hstep. subst w'. cbn [later clock]. lia.
      - intros e. subst w'. cbn [later cache].
        apply (step_other_key Hstep). intros E. symmetry in E.
        now apply versions_key_is_no_config_key in E. }
    split; [exact Hgone|]. now apply getPackageConfig_miss_outcome.
Qed.

Lemma views_are_cached_apart_witness :
  let w' := later 10 (snd (getPackageConfig Example.registry "react" "1.3.0"
                             Example.start)) in
  fst (getVersionsAndTags Example.down "react" w')
  = Thrown (Error ("Failed to fetch info for react" ++ newline ++ "status: 503"
                   ++ newline ++ "data: Service Unavailable")).
Proof.
  intros w'.
  destruct (@views_are_cached_apart Example.registry Example.down "react" "react"
              "1.3.0" Example.start 10) as (Hv & _).
  destruct (Hv eq_refl) as (_ & Hfetch).
  fold w' in Hfetch. rewrite Hfetch. reflexivity.
Defined.



(** X10.  The key of a cached configuration is the name and the version
    joined by a hyphen, so it does not tell where the name ends: two
    calls whose name and version join to the same text share one entry.
    After a miss that stored the result for one of them, a call for the
    other within the time to live finds that entry and is answered from
    it, exactly as a second call for the first would be, whatever the
    registry holds for it: with the first call's result, when the numbers
    in it print back. *)
Theorem config_key_joins_name_and_version (registry registry' : Registry)
        (packageName version packageName' version' : string)
        (w wc : World) (rc : option (Js.object json)) (dt : N) :
  packageName ++ "-" ++ version = packageName' ++ "-" ++ version' ->
  fst (Lru.get ("config-" ++ packageName ++ "-" ++ version) (clock w) (cache w))
  = None ->
  getPackageConfig registry packageName version w = (Returned rc, wc) ->
  (dt <= ttlOf rc)%N -> (Lru.length (configText rc) <= Lru.max)%N ->
  fst (Lru.get ("config-" ++ packageName' ++ "-" ++ version')
               (clock wc + dt) (cache wc)) = Some (configText rc)
  /\ getPackageConfig registry' packageName' version' (later dt wc)
     = getPackageConfig registry' packageName version (later dt wc)
  /\ ((forall c, rc = Some c -> Json.printsBack (JObj c)) ->
      fst (getPackageConfig registry' packageName' version' (later dt wc))
      = Returned rc).
Proof.
  intros Ekey Hmiss Hc Hdt Hfit.
  destruct (getPackageConfig_stored registry packageName version w Hmiss Hc)
    as [Ec Hwf].
  assert (Ekeys : "config-" ++ packageName' ++ "-" ++ version'
                  = "config-" ++ packageName ++ "-" ++ version).
  { change ("config-" ++ (packageName' ++ "-" ++ version')
            = "config-" ++ (packageName ++ "-" ++ version)).
    now rewrite Ekey. }
  assert (Hhit : fst (Lru.get ("config-" ++ packageName' ++ "-" ++ version')
                              (clock (later dt wc)) (cache (later dt wc)))
                 = Some (configText rc)).
  { cbn [later clock cache]. rewrite Ec, Ekeys.
    apply get_within_ttl; auto using ttlOf_positive. }
  split; [exact Hhit|]. split.
  - unfold getPackageConfig, bind, cache_get. rewrite Ekeys.
    rewrite Ekeys in Hhit. destruct (get_hit _ _ _ Hhit) as (e & _ & ->).
    reflexivity.
  - intros Hback.
    rewrite (@getPackageConfig_hit registry' packageName' version' (later dt wc)
               (configText rc) Hhit).
    destruct rc as [c|]; cbn [configText]; [|reflexivity].
    rewrite stringify_not_empty,
      (@parse_stringify (JObj c) (Hwf c eq_refl) (Hback c eq_refl)).
    reflexivity.
Qed.

Lemma config_key_joins_name_and_version_witness :
  let first := getPackageConfig Clash.registry "lib" "2.0.0-next-1.0.0" Example.start in
  fst (getPackageConfig Clash.registry "lib-2.0.0-next" "1.0.0" (later 5000 (snd first)))
  = fst first
  /\ fst (getPackageConfig Clash.registry "lib-2.0.0-next" "1.0.0" Example.start)
     <> fst first.
Proof.
  intros first. split.
  - destruct (@config_key_joins_name_and_version Clash.registry Clash.registry
                "lib" "2.0.0-next-1.0.0" "lib-2.0.0-next" "1.0.0" Example.start
                (snd first)
                (Some [ ("name", JStr "lib"); ("version", JStr "2.0.0-next-1.0.0");
                        ("main", JStr "index.js");
                        ("dependencies", JObj [("object-assign", JStr "^4.1.1")]) ])
                5000 eq_refl eq_refl) as (_ & _ & Hsame).
    + vm_compute. reflexivity.
    + vm_compute. discriminate.
    + vm_compute. discriminate.
    + apply Hsame. intros c [= <-]. simpl. tauto.
  - vm_compute. discriminate.
Defined.

(** ** More on versions *)

Section MoreVersions.
Context {S : Semver}.

Lemma maxStep_In (r : range) (all : list string)
      (best : option (string * version)) (v : string) :
  In v all ->
  (forall m sm, best = Some (m, sm) -> In m all) ->
  forall m sm, semver.maxStep r best v = Some (m, sm) -> In m all.
Proof.
  intros Hv Hbest m sm. unfold semver.maxStep.
  destruct (parseVersion v) as [sv|]; [|apply Hbest].
  destruct (test r sv); [|apply Hbest].
  destruct best as [[m0 sm0]|].
  - destruct (semver.isLt (compareVersion sm0 sv)); [|apply Hbest].
    now intros [= <- _].
  - now intros [= <- _].
Qed.

Lemma fold_maxStep_In (r : range) (all rest : list string)
      (best : option (string * version)) :
  incl rest all ->
  (forall m sm, best = Some (m, sm) -> In m all) ->
  forall m sm, fold_left (semver.maxStep r) rest best = Some (m, sm) -> In m all.
Proof.
  revert best. induction rest as [|v rest IH]; intros best Hincl Hbest; simpl.
  - exact Hbest.
  - apply IH.
    + intros x Hx. apply Hincl. now right.
    + apply maxStep_In; [apply Hincl; now left | exact Hbest].
Qed.

Lemma maxSatisfying_In (versions : list string) (rangeText m : string) :
  semver.maxSatisfying versions rangeText = Some m -> In m versions.
Proof.
  unfold semver.maxSatisfying.
  destruct (parseRange rangeText) as [r|]; [|discriminate].
  destruct (fold_left (semver.maxStep r) versions None) as [[m0 sm]|] eqn:E;
    [|discriminate].
  simpl. intros [= <-].
  apply (@fold_maxStep_In r versions versions None (incl_refl _)) with sm;
    [discriminate | exact E].
Qed.

Lemma resolveIn_In (v : VersionsAndTags) (range m : string) :
  resolveIn v range = Some m -> In m (versions v).
Proof.
  unfold resolveIn.
  destruct (retag range (tags v)) as [r|name|]; [|discriminate|discriminate].
  destruct (Js.includes (versions v) r) eqn:E.
  - intros [= <-]. now apply includes_In.
  - apply maxSatisfying_In.
Qed.

Lemma insert_length (x : string) (sorted l : list string) :
  insert byVersion x sorted = Some l -> List.length l = Datatypes.S (List.length sorted).
Proof.
  revert l. induction sorted as [|y rest IH]; intros l; simpl.
  - now intros [= <-].
  - destruct (byVersion x y) as [c|]; [|discriminate].
    destruct (c <=? 0)%Z; [now intros [= <-]|].
    destruct (insert byVersion x rest) as [l'|]; [|discriminate].
    simpl. intros [= <-]. simpl. now rewrite (IH l' eq_refl).
Qed.

Lemma sort_length (a l : list string) :
  sort byVersion a = Some l -> List.length l = List.length a.
Proof.
  revert l. induction a as [|x rest IH]; intros l; simpl.
  - now intros [= <-].
  - destruct (sort byVersion rest) as [sorted|]; [|discriminate].
    intros H. apply insert_length in H. now rewrite H, (IH sorted eq_refl).
Qed.

Lemma insert_In (x z : string) (sorted l : list string) :
  insert byVersion x sorted = Some l -> In z l -> z = x \/ In z sorted.
Proof.
  revert l. induction sorted as [|y rest IH]; intros l; simpl.
  - intros [= <-] [<-|[]]. now left.
  - destruct (byVersion x y) as [c|]; [|discriminate].
    destruct (c <=? 0)%Z.
    + intros [= <-] [<-|Hin]; auto.
    + destruct (insert byVersion x rest) as [l'|]; [|discriminate].
      simpl. intros [= <-] [<-|Hin]; [auto|].
      destruct (IH l' eq_refl Hin); auto.
Qed.

Lemma sort_In (a l : list string) (x : string) :
  sort byVersion a = Some l -> In x l -> In x a.
Proof.
  revert l. induction a as [|y rest IH]; intros l; simpl.
  - now intros [= <-].
  - destruct (sort byVersion rest) as [sorted|]; [|discriminate].
    intros Hins Hin.
    destruct (@insert_In y x sorted l Hins Hin) as [->|Hs]; [now left|].
    right. now apply (IH sorted).
Qed.

Lemma byVersion_some (a b : string) (c : Z) :
  byVersion a b = Some c -> parseVersion a <> None /\ parseVersion b <> None.
Proof.
  unfold byVersion, semver.lt, semver.compare.
  destruct (parseVersion a); [|discriminate].
  destruct (parseVersion b); [|discriminate].
  intros _. split; discriminate.
Qed.

(** A sort of two or more strings that comes to an end has compared
    each of them, so each of them is a version. *)
Lemma sort_some_valid (a l : list string) :
  sort byVersion a = Some l -> 2 <= List.length a ->
  Forall (fun v => parseVersion v <> None) a.
Proof.
  revert l. induction a as [|x rest IH]; intros l Hsort Hlen; [constructor|].
  simpl in Hsort.
  destruct (sort byVersion rest) as [sorted|] eqn:Es; [|discriminate].
  pose proof (@sort_length rest sorted Es) as Hl.
  destruct sorted as [|y sorted'].
  { simpl in Hlen, Hl. lia. }
  simpl in Hsort.
  destruct (byVersion x y) as [c|] eqn:Ec; [|discriminate].
  apply byVersion_some in Ec as [Hx Hy].
  constructor; [exact Hx|].
  destruct rest as [|y1 [|y2 rest']].
  - simpl in Hl. discriminate.
  - assert (Hin : In y [y1]) by (apply (@sort_In [y1] (y :: sorted') y Es); now left).
    destruct Hin as [->|[]]. now constructor.
  - apply (IH (y :: sorted') eq_refl). simpl. lia.
Qed.

(** X12.  One version string that is not a semantic version makes
    [getAvailableVersions] fail for the whole package: when the package
    has two or more versions and one of them does not parse, the
    comparison function throws and the call throws the [TypeError], in the
    world [getVersionsAndTags] left.  A package with a single version has
    nothing to compare, and the list is returned as it is. *)
Theorem getAvailableVersions_needs_versions (registry : Registry)
        (packageName : string) (w w' : World) (v : VersionsAndTags) :
  getVersionsAndTags registry packageName w = (Returned (Some v), w') ->
  (forall bad,
      In bad (versions v) -> parseVersion bad = None ->
      2 <= List.length (versions v) ->
      getAvailableVersions registry packageName w = (Thrown TypeError, w'))
  /\ (forall only,
         versions v = [only] ->
         getAvailableVersions registry packageName w = (Returned [only], w')).
Proof.
  intros Hvt. unfold getAvailableVersions, bind. rewrite Hvt. split.
  - intros bad Hin Hbad Hlen.
    destruct (sort byVersion (versions v)) as [sorted|] eqn:Es; [|reflexivity].
    pose proof (@sort_some_valid (versions v) sorted Es Hlen) as Hall.
    rewrite Forall_forall in Hall. now elim (Hall bad Hin).
  - intros only ->. reflexivity.
Qed.

(** X13.  Sorting changes nothing in a list that is already in order:
    when the versions of a package come in non-decreasing precedence,
    [getAvailableVersions] returns them as they are, versions of equal
    precedence in the order they had. *)
Theorem getAvailableVersions_keeps_a_sorted_list (registry : Registry)
        (packageName : string) (w w' : World) (v : VersionsAndTags) :
  getVersionsAndTags registry packageName w = (Returned (Some v), w') ->
  StronglySorted precedes (versions v) ->
  getAvailableVersions registry packageName w = (Returned (versions v), w').
Proof.
  intros Hvt Hsorted. unfold getAvailableVersions, bind. rewrite Hvt.
  assert (E : sort byVersion (versions v) = Some (versions v)).
  { induction Hsorted as [|x rest Hrest IH Hall]; [reflexivity|].
    simpl. rewrite IH. destruct rest as [|y rest']; [reflexivity|].
    inversion Hall as [|? ? (sx & sy & Ex & Ey & Hle) _]; subst.
    simpl. unfold byVersion, semver.lt, semver.gt, semver.compare.
    rewrite Ex, Ey. simpl.
    destruct (compareVersion sx sy); try reflexivity. now elim Hle. }
  now rewrite E.
Qed.

End MoreVersions.

Lemma getAvailableVersions_needs_versions_witness :
  fst (@getAvailableVersions nodeSemver Odd.registry "banana" Example.start)
  = Thrown TypeError
  /\ fst (@getAvailableVersions nodeSemver Example.registry "ahead" Example.start)
     = Returned ["1.0.0"].
Proof.
  split.
  - destruct (@getAvailableVersions_needs_versions nodeSemver Odd.registry "banana"
                Example.start _ _ eq_refl) as (Hbad & _).
    rewrite (Hbad "ripe"); [reflexivity | | reflexivity | ].
    + right. now left.
    + vm_compute. lia.
  - destruct (@getAvailableVersions_needs_versions nodeSemver Example.registry "ahead"
                Example.start _ _ eq_refl) as (_ & Hone).
    now rewrite (Hone "1.0.0" eq_refl).
Defined.

Lemma getAvailableVersions_keeps_a_sorted_list_witness :
  fst (@getAvailableVersions nodeSemver Tidy.registry "tidy" Example.start)
  = Returned ["1.2.0+linux"; "1.2.0"; "1.10.0"].
Proof.
  rewrite (@getAvailableVersions_keeps_a_sorted_list nodeSemver Tidy.registry
             "tidy" Example.start _ _ eq_refl); [reflexivity|].
  assert (Hp : forall a b,
             @semver.compare nodeSemver a b = Some Lt
             \/ @semver.compare nodeSemver a b = Some Eq ->
             @precedes nodeSemver a b).
  { intros a b. unfold semver.compare, precedes.
    destruct (parseVersion a) as [x|]; [|intros [H|H]; discriminate].
    destruct (parseVersion b) as [y|]; [|intros [H|H]; discriminate].
    intros H. exists x, y. repeat split. intros E. rewrite E in H.
    destruct H; discriminate. }
  repeat constructor; apply Hp; vm_compute; auto.
Defined.

(** ** More on the configuration filter *)

Lemma own_after (k : string) (pre rest : Js.object json) :
  ~ In k (Js.keys pre) -> Js.own k (pre ++ rest)%list = Js.own k rest.
Proof.
  induction pre as [|[k' v'] pre IH]; simpl; [reflexivity|].
  intros H. destruct (String.eqb_spec k k') as [->|_]; [elim H; now left|].
  apply IH. intros Hin. apply H. now right.
Qed.

Lemma set_new (k : string) (v : json) (memo : Js.object json) :
  ~ In k (Js.keys memo) -> Js.set k v memo = (memo ++ [(k, v)])%list.
Proof.
  induction memo as [|[k' v'] memo IH]; simpl; [reflexivity|].
  intros H. destruct (String.eqb_spec k k') as [->|_]; [elim H; now left|].
  rewrite IH; [reflexivity|]. intros Hin. apply H. now right.
Qed.

Lemma keys_filter (p : string * json -> bool) (o : Js.object json) (k : string) :
  In k (Js.keys (filter p o)) -> In k (Js.keys o).
Proof.
  unfold Js.keys. rewrite !in_map_iff.
  intros ((k', v) & E & Hin). apply filter_In in Hin as [Hin _].
  now exists (k', v).
Qed.

Lemma nodup_keys_filter (p : string * json -> bool) (o : Js.object json) :
  NoDup (Js.keys o) -> NoDup (Js.keys (filter p o)).
Proof.
  induction o as [|[k v] o IH]; simpl; [constructor|].
  intros H. inversion H as [|? ? Hk Ho]; subst.
  destruct (p (k, v)); simpl; [|now apply IH].
  constructor; [|now apply IH].
  intros Hin. apply Hk. now apply keys_filter with p.
Qed.

Lemma clean_fold_is_filter (suf pre memo : Js.object json) :
  NoDup (Js.keys (pre ++ suf)%list) ->
  (forall k, In k (Js.keys memo) -> In k (Js.keys pre)) ->
  fold_left (cleanStep (pre ++ suf)%list) (Js.keys suf) memo
  = (memo ++ filter (fun kv => keeps (fst kv)) suf)%list.
Proof.
  revert pre memo. induction suf as [|[k v] suf IH]; intros pre memo Hnd Hmemo.
  - simpl. now rewrite List.app_nil_r.
  - assert (Hk : ~ In k (Js.keys pre)).
    { unfold Js.keys in *. rewrite map_app in Hnd. simpl in Hnd.
      apply NoDup_remove_2 in Hnd. intros Hin. apply Hnd.
      apply in_or_app. now left. }
    assert (Hdoc : (pre ++ (k, v) :: suf)%list = ((pre ++ [(k, v)]) ++ suf)%list)
      by (now rewrite <- List.app_assoc).
    cbn [Js.keys map fst fold_left]. fold (Js.keys suf).
    assert (Hstep : cleanStep (pre ++ (k, v) :: suf)%list memo k
                    = if keeps k then (memo ++ [(k, v)])%list else memo).
    { unfold cleanStep. fold (keeps k). destruct (keeps k); [|reflexivity].
      rewrite (@own_after k pre ((k, v) :: suf) Hk). simpl. rewrite String.eqb_refl.
      apply set_new. intros Hin. apply Hk. now apply Hmemo. }
    rewrite Hstep, Hdoc. rewrite IH.
    + cbn [filter fst]. destruct (keeps k); [|reflexivity].
      now rewrite <- List.app_assoc.
    + now rewrite <- Hdoc.
    + intros k' Hin. unfold Js.keys in *. rewrite map_app. apply in_or_app.
      destruct (keeps k); [|left; now apply Hmemo].
      rewrite map_app in Hin. apply in_app_or in Hin as [Hin|Hin];
        [left; now apply Hmemo | now right].
Qed.

Lemma filter_twice (A : Type) (p : A -> bool) (l : list A) :
  filter p (filter p l) = filter p l.
Proof.
  induction l as [|x l IH]; simpl; [reflexivity|].
  destruct (p x) eqn:E; simpl; [rewrite E, IH; reflexivity | exact IH].
Qed.

(** X14.  [cleanPackageConfig] is a filter: on a document whose keys are
    distinct (every parsed document is such) the result is the document
    without the fields whose key starts with an underscore or is on the
    exclusion list, the other fields being kept with their values in the
    order they had.  Cleaning a cleaned configuration changes nothing, and
    a document with nothing to keep gives the empty configuration. *)
Theorem cleanPackageConfig_is_a_filter (doc : Js.object json) :
  NoDup (Js.keys doc) ->
  let kept := fun kv : string * json =>
                negb (Js.startsWith (fst kv) "_")
                && negb (Js.includes packageConfigExcludeKeys (fst kv)) in
  cleanPackageConfig doc = filter kept doc
  /\ cleanPackageConfig (cleanPackageConfig doc) = cleanPackageConfig doc
  /\ (forallb (fun kv => negb (kept kv)) doc = true -> cleanPackageConfig doc = []).
Proof.
  intros Hnd kept.
  assert (E : forall o, NoDup (Js.keys o) -> cleanPackageConfig o = filter kept o).
  { intros o Ho. unfold cleanPackageConfig.
    apply (@clean_fold_is_filter o [] []); [exact Ho | intros k []]. }
  split; [now apply E|]. split.
  - rewrite (E doc Hnd), E; [apply filter_twice | now apply nodup_keys_filter].
  - rewrite (E doc Hnd). clear. induction doc as [|kv doc IH]; simpl; [reflexivity|].
    intros H. apply andb_true_iff in H as [Hkv Hdoc].
    apply negb_true_iff in Hkv. rewrite Hkv. now apply IH.
Qed.

Lemma cleanPackageConfig_is_a_filter_witness :
  cleanPackageConfig
    [ ("name", JStr "react"); ("_id", JStr "react@1.3.0");
      ("scripts", JObj [("test", JStr "jest")]); ("version", JStr "1.3.0");
      ("files", JArr [JStr "index.js"]); ("main", JStr "index.js") ]
  = [ ("name", JStr "react"); ("version", JStr "1.3.0"); ("main", JStr "index.js") ].
Proof.
  rewrite (proj1 (@cleanPackageConfig_is_a_filter
                    [ ("name", JStr "react"); ("_id", JStr "react@1.3.0");
                      ("scripts", JObj [("test", JStr "jest")]);
                      ("version", JStr "1.3.0");
                      ("files", JArr [JStr "index.js"]); ("main", JStr "index.js") ]
                    ltac:(repeat constructor; simpl; intuition discriminate))).
  reflexivity.
Defined.

(** ** The comparison function *)

(** X15.  [byVersion] is a consistent comparison function.  It throws
    exactly when one of its arguments is not a version; on two versions
    it answers -1, 0 or 1, swapping the arguments negates the answer, and
    a version compares equal to itself. *)
Theorem byVersion_is_consistent {S : Semver} {L : SemverLaws S} (a b : string) :
  (byVersion a b = None <-> parseVersion a = None \/ parseVersion b = None)
  /\ (forall c,
         byVersion a b = Some c ->
         (c = (-1)%Z \/ c = 0%Z \/ c = 1%Z) /\ byVersion b a = Some (- c)%Z)
  /\ (parseVersion a <> None -> byVersion a a = Some 0%Z).
Proof.
  unfold byVersion, semver.lt, semver.gt, semver.compare.
  destruct (parseVersion a) as [x|] eqn:Ea.
  - destruct (parseVersion b) as [y|] eqn:Eb; simpl.
    + split; [|split].
      * split; [|intros [H|H]; discriminate].
        destruct (compareVersion x y); discriminate.
      * intros c. rewrite (compare_antisym x y).
        destruct (compareVersion x y); simpl; intros [= <-]; auto.
      * intros _. now rewrite compareVersion_refl.
    + split; [|split].
      * split; auto.
      * discriminate.
      * intros _. now rewrite compareVersion_refl.
  - split; [|split].
    + split; auto.
    + discriminate.
    + intros H. now elim H.
Qed.

Lemma byVersion_is_consistent_witness :
  @byVersion nodeSemver "1.10.0" "1.2.0" = Some 1%Z
  /\ @byVersion nodeSemver "1.2.0" "1.2.0" = Some 0%Z
  /\ @byVersion nodeSemver "1.2.0" "latest" = None.
Proof.
  destruct (@byVersion_is_consistent nodeSemver nodeSemver_laws "1.2.0" "1.10.0")
    as (_ & Hswap & Hrefl).
  destruct (@byVersion_is_consistent nodeSemver nodeSemver_laws "1.2.0" "latest")
    as (Hthrows & _).
  split; [|split].
  - exact (proj2 (Hswap (-1)%Z eq_refl)).
  - apply Hrefl. vm_compute. discriminate.
  - apply Hthrows. right. reflexivity.
Defined.

(** ** Names every object inherits *)

(** X16.  A name that every JavaScript object inherits ([constructor],
    [toString], ...) passes the [in] tests of the source.  Asked for as a
    version that the package does not have, it gives an empty configuration
    where any other unknown version gives [null]; asked for as a tag or
    range that the package does not have, it resolves to [null]. *)
Theorem inherited_names_pass_the_in_test {S : Semver} (registry : Registry)
        (packageName key body : string) (w : World) (doc : json)
        (info : PackageInfo) :
  transport (registry (infoRequest packageName) (clock w)) = Response 200 body ->
  Json.parse body = Some doc -> packageInfo doc = Some info ->
  Js.inherited key = true ->
  (Js.own key (info_versions info) = None ->
   fst (fetchPackageConfig registry packageName key w) = Returned (Some [])
   /\ (fst (Lru.get ("config-" ++ packageName ++ "-" ++ key) (clock w) (cache w))
       = None ->
       fst (getPackageConfig registry packageName key w) = Returned (Some [])))
  /\ (Js.own key (info_dist_tags info) = None ->
      fst (Lru.get ("versions-" ++ packageName) (clock w) (cache w)) = None ->
      fst (resolveVersion registry packageName key w) = Returned None).
Proof.
  intros Hreply Hparse Hinfo Hkey.
  assert (Hfetch : fst (fetchPackageInfo registry packageName w) = Returned doc).
  { unfold fetchPackageInfo, bind, get. rewrite Hreply. simpl. now rewrite Hparse. }
  split.
  - intros Hown.
    assert (E : fst (fetchPackageConfig registry packageName key w)
                = Returned (Some [])).
    { unfold fetchPackageConfig, bind.
      destruct (fetchPackageInfo registry packageName w) as [r w1].
      simpl in Hfetch. subst r.
      rewrite (packageInfo_truthy _ Hinfo), Hinfo.
      unfold Js.has, Js.get. now rewrite Hown, Hkey. }
    split; [exact E|]. intros Hmiss.
    now rewrite getPackageConfig_miss_outcome.
  - intros Hown Hmiss.
    assert (E : fst (getVersionsAndTags registry packageName w)
                = Returned (Some {| versions := Js.keys (info_versions info);
                                    tags := info_dist_tags info |})).
    { rewrite getVersionsAndTags_miss_outcome by exact Hmiss.
      unfold fetchVersionsAndTags, bind.
      destruct (fetchPackageInfo registry packageName w) as [r w1].
      simpl in Hfetch. subst r.
      now rewrite (packageInfo_truthy _ Hinfo), Hinfo. }
    unfold resolveVersion, bind.
    destruct (getVersionsAndTags registry packageName w) as [r w1].
    simpl in E. subst r. simpl.
    unfold resolveIn, retag, Js.has, Js.get. cbn [tags]. now rewrite Hown, Hkey.
Qed.

Lemma inherited_names_pass_the_in_test_witness :
  fst (getPackageConfig Example.registry "react" "constructor" Example.start)
  = Returned (Some [])
  /\ fst (getPackageConfig Example.registry "react" "0.0.1" Example.start)
     = Returned None
  /\ fst (@resolveVersion nodeSemver Example.registry "react" "toString" Example.start)
     = Returned None.
Proof.
  pose (info := {| info_versions :=
                     [ ("2.0.0", match Example.fieldsOf "react" "2.0.0" with
                                 | JObj f => f | _ => [] end);
                       ("1.2.0", match Example.fieldsOf "react" "1.2.0" with
                                 | JObj f => f | _ => [] end);
                       ("1.3.0", match Example.fieldsOf "react" "1.3.0" with
                                 | JObj f => f | _ => [] end) ];
                   info_dist_tags := [("latest", "2.0.0")] |}).
  assert (Hparse : Json.parse (Json.stringify Example.react) = Some Example.react)
    by (vm_compute; reflexivity).
  assert (Hinfo : packageInfo Example.react = Some info) by reflexivity.
  split; [|split].
  - destruct (@inherited_names_pass_the_in_test nodeSemver Example.registry "react"
                "constructor" _ Example.start _ info eq_refl Hparse Hinfo eq_refl)
      as (Hversion & _).
    destruct (Hversion eq_refl) as (_ & Hconfig). exact (Hconfig eq_refl).
  - vm_compute. reflexivity.
  - destruct (@inherited_names_pass_the_in_test nodeSemver Example.registry "react"
                "toString" _ Example.start _ info eq_refl Hparse Hinfo eq_refl)
      as (_ & Htag).
    exact (Htag eq_refl eq_refl).
Defined.

(** ** One request for each call *)

Lemma fetchPackageInfo_frame (registry registry' : Registry) (packageName : string)
      (w : World) :
  registry (infoRequest packageName) (clock w)
  = registry' (infoRequest packageName) (clock w) ->
  fetchPackageInfo registry packageName w = fetchPackageInfo registry' packageName w.
Proof.
  intros H. unfold fetchPackageInfo, bind, get. now rewrite H.
Qed.

(** X17.  A call reads the registry through one request only.  The
    metadata operations depend on the registry by nothing but its answer,
    at the time of the call, to the metadata request for the package name
    (the version or range asked for is no part of any request);
    [getPackage] depends on it by nothing but the answer to the archive
    request.  Two registries that agree on that one answer give the same
    result and leave the same world. *)
Theorem one_request_per_call {S : Semver} (registry registry' : Registry)
        (packageName version range : string) (w : World) :
  (registry (infoRequest packageName) (clock w)
   = registry' (infoRequest packageName) (clock w) ->
   fetchPackageInfo registry packageName w = fetchPackageInfo registry' packageName w
   /\ fetchVersionsAndTags registry packageName w
      = fetchVersionsAndTags registry' packageName w
   /\ fetchPackageConfig registry packageName version w
      = fetchPackageConfig registry' packageName version w
   /\ getVersionsAndTags registry packageName w
      = getVersionsAndTags registry' packageName w
   /\ getAvailableVersions registry packageName w
      = getAvailableVersions registry' packageName w
   /\ resolveVersion registry packageName range w
      = resolveVersion registry' packageName range w
   /\ getPackageConfig registry packageName version w
      = getPackageConfig registry' packageName version w)
  /\ (registry (tarballRequest packageName version) (clock w)
      = registry' (tarballRequest packageName version) (clock w) ->
      getPackage registry packageName version w
      = getPackage registry' packageName version w).
Proof.
  split.
  - intros H.
    assert (Hi : forall c,
               fetchPackageInfo registry packageName {| cache := c; clock := clock w |}
               = fetchPackageInfo registry' packageName
                   {| cache := c; clock := clock w |}).
    { intros c. now apply fetchPackageInfo_frame. }
    assert (Hv : getVersionsAndTags registry packageName w
                 = getVersionsAndTags registry' packageName w).
    { unfold getVersionsAndTags, fetchVersionsAndTags, bind, cache_get.
      destruct (Lru.get _ (clock w) (cache w)) as [[text|] c]; [reflexivity|].
      now rewrite Hi. }
    split; [now apply fetchPackageInfo_frame|].
    split; [unfold fetchVersionsAndTags, bind;
            now rewrite (fetchPackageInfo_frame _ _ _ _ H)|].
    split; [unfold fetchPackageConfig, bind;
            now rewrite (fetchPackageInfo_frame _ _ _ _ H)|].
    split; [exact Hv|].
    split; [unfold getAvailableVersions, bind; now rewrite Hv|].
    split; [unfold resolveVersion, bind; now rewrite Hv|].
    unfold getPackageConfig, fetchPackageConfig, bind, cache_get.
    destruct (Lru.get _ (clock w) (cache w)) as [[text|] c]; [reflexivity|].
    now rewrite Hi.
  - intros H. unfold getPackage, bind, get. now rewrite H.
Qed.

Lemma one_request_per_call_witness :
  let elsewhere := fun request now =>
                     if String.eqb (req_path request) "/lib"
                     then Clash.registry request now
                     else Example.down request now in
  getPackageConfig Clash.registry "lib" "2.0.0-next-1.0.0" Example.start
  = getPackageConfig elsewhere "lib" "2.0.0-next-1.0.0" Example.start
  /\ @resolveVersion nodeSemver Clash.registry "lib" "latest" Example.start
     = @resolveVersion nodeSemver elsewhere "lib" "latest" Example.start.
Proof.
  intros elsewhere.
  destruct (@one_request_per_call nodeSemver Clash.registry elsewhere
              "lib" "2.0.0-next-1.0.0" "latest" Example.start) as (Hmeta & _).
  destruct (Hmeta eq_refl) as (_ & _ & _ & _ & _ & Hresolve & Hconfig).
  split; [exact Hconfig | exact Hresolve].
Defined.

(** ** Resolving, then reading the configuration *)

Lemma append_same_prefix (p a b : string) : p ++ a = p ++ b -> a = b.
Proof.
  induction p as [|c p IH]; simpl; [auto|]. intros [= H]. now apply IH.
Qed.

(** X18.  A version that [resolveVersion] answers has a configuration.
    When the lookups miss and the registry answers both calls with the
    same document, the version [resolveVersion] gives for any tag or range
    is a key of the document's versions, and [getPackageConfig] of that
    version, called next, gives the filtered fields of that version and
    not [null]. *)
Theorem resolved_version_has_a_configuration {S : Semver} (registry : Registry)
        (packageName range body m : string) (w w1 : World) (doc : json)
        (info : PackageInfo) :
  transport (registry (infoRequest packageName) (clock w)) = Response 200 body ->
  transport (registry (infoRequest packageName) (clock w1)) = Response 200 body ->
  Json.parse body = Some doc -> packageInfo doc = Some info ->
  fst (Lru.get ("versions-" ++ packageName) (clock w) (cache w)) = None ->
  resolveVersion registry packageName range w = (Returned (Some m), w1) ->
  fst (Lru.get ("config-" ++ packageName ++ "-" ++ m) (clock w1) (cache w1)) = None ->
  exists fields,
    Js.own m (info_versions info) = Some fields
    /\ fst (getPackageConfig registry packageName m w1)
       = Returned (Some (cleanPackageConfig fields)).
Proof.
  intros Hreply Hreply1 Hparse Hinfo Hmiss Hresolve Hmiss1.
  assert (Hvt : fst (getVersionsAndTags registry packageName w)
                = Returned (Some {| versions := Js.keys (info_versions info);
                                    tags := info_dist_tags info |})).
  { rewrite getVersionsAndTags_miss_outcome by exact Hmiss.
    unfold fetchVersionsAndTags, fetchPackageInfo, bind, get.
    rewrite Hreply. simpl. rewrite Hparse. simpl.
    now rewrite (packageInfo_truthy _ Hinfo), Hinfo. }
  assert (Hin : In m (Js.keys (info_versions info))).
  { unfold resolveVersion, bind in Hresolve.
    destruct (getVersionsAndTags registry packageName w) as [r w0].
    simpl in Hvt. subst r. simpl in Hresolve. injection Hresolve as Hr _.
    now apply resolveIn_In in Hr. }
  apply own_keys in Hin.
  destruct (Js.own m (info_versions info)) as [fields|] eqn:Hown; [|now elim Hin].
  exists fields. split; [reflexivity|].
  rewrite getPackageConfig_miss_outcome by exact Hmiss1.
  unfold fetchPackageConfig, fetchPackageInfo, bind, get.
  rewrite Hreply1. simpl. rewrite Hparse. simpl.
  rewrite (packageInfo_truthy _ Hinfo), Hinfo.
  unfold Js.has, Js.get. now rewrite Hown.
Qed.

Lemma resolved_version_has_a_configuration_witness :
  let first := @resolveVersion nodeSemver Example.registry "react" "^1.2.0"
                 Example.start in
  fst first = Returned (Some "1.3.0")
  /\ fst (getPackageConfig Example.registry "react" "1.3.0" (snd first))
     = Returned (Some [ ("name", JStr "react"); ("version", JStr "1.3.0");
                        ("main", JStr "index.js");
                        ("dependencies", JObj [("object-assign", JStr "^4.1.1")]) ]).
Proof.
  intros first. split; [reflexivity|].
  pose (info := {| info_versions :=
                     [ ("2.0.0", match Example.fieldsOf "react" "2.0.0" with
                                 | JObj f => f | _ => [] end);
                       ("1.2.0", match Example.fieldsOf "react" "1.2.0" with
                                 | JObj f => f | _ => [] end);
                       ("1.3.0", match Example.fieldsOf "react" "1.3.0" with
                                 | JObj f => f | _ => [] end) ];
                   info_dist_tags := [("latest", "2.0.0")] |}).
  assert (Hparse : Json.parse (Json.stringify Example.react) = Some Example.react)
    by (vm_compute; reflexivity).
  destruct (@resolved_version_has_a_configuration nodeSemver Example.registry
              "react" "^1.2.0" _ "1.3.0" Example.start (snd first) _ info
              eq_refl eq_refl Hparse eq_refl eq_refl)
    as (fields & Hfields & Hconfig).
  - vm_compute. reflexivity.
  - vm_compute. reflexivity.
  - rewrite Hconfig. vm_compute in Hfields. injection Hfields as <-.
    vm_compute. reflexivity.
Defined.

(** ** An operation writes under its own key *)

(** X19.  The entries of the cache are per package and per version.  A
    call of [getVersionsAndTags] for one package leaves a missing entry of
    any other package missing, and a call of [getPackageConfig] leaves
    missing the entry of every other package and version (of every pair
    that joins to another text; another version of the same package
    always does): the [null] remembered for one never answers for
    another. *)
Theorem entries_are_per_package_and_version (registry : Registry)
        (packageName version other version' : string) (w : World) (dt : N) :
  (packageName <> other ->
   fst (Lru.get ("versions-" ++ other) (clock w) (cache w)) = None ->
   let w' := later dt (snd (getVersionsAndTags registry packageName w)) in
   fst (Lru.get ("versions-" ++ other) (clock w') (cache w')) = None)
  /\ (packageName ++ "-" ++ version <> other ++ "-" ++ version' ->
      fst (Lru.get ("config-" ++ other ++ "-" ++ version') (clock w) (cache w))
      = None ->
      let w' := later dt (snd (getPackageConfig registry packageName version w)) in
      fst (Lru.get ("config-" ++ other ++ "-" ++ version') (clock w') (cache w'))
      = None)
  /\ (version <> version' ->
      packageName ++ "-" ++ version <> packageName ++ "-" ++ version').
Proof.
  split; [|split].
  - intros Hne Hmiss w'.
    pose proof (getVersionsAndTags_step registry packageName w) as Hstep.
    apply miss_stays_miss with (clock w) (cache w); [| |exact Hmiss].
    + apply step_clock in Hstep. subst w'. cbn [later clock]. lia.
    + intros e. subst w'. cbn [later cache]. apply (step_other_key Hstep).
      intros E. apply append_same_prefix in E. congruence.
  - intros Hne Hmiss w'.
    pose proof (getPackageConfig_step registry packageName version w) as Hstep.
    apply miss_stays_miss with (clock w) (cache w); [| |exact Hmiss].
    + apply step_clock in Hstep. subst w'. cbn [later clock]. lia.
    + intros e. subst w'. cbn [later cache]. apply (step_other_key Hstep).
      intros E.
      apply (@append_same_prefix "config-" (other ++ "-" ++ version')
               (packageName ++ "-" ++ version)) in E.
      congruence.
  - intros Hne E. apply append_same_prefix in E.
    apply (@append_same_prefix "-" version version') in E. congruence.
Qed.

Lemma entries_are_per_package_and_version_witness :
  let wc := later 10 (snd (getPackageConfig Example.registry "react" "0.0.1"
                             Example.start)) in
  let wv := later 10 (snd (getVersionsAndTags Example.registry "react"
                             Example.start)) in
  fst (getPackageConfig Example.registry "react" "0.0.1" wc) = Returned None
  /\ fst (Lru.get "config-react-1.3.0" (clock wc) (cache wc)) = None
  /\ fst (Lru.get "versions-lodash" (clock wv) (cache wv)) = None.
Proof.
  intros wc wv.
  destruct (@entries_are_per_package_and_version Example.registry "react" "0.0.1"
              "react" "1.3.0" Example.start 10) as (_ & Hconfig & Hjoin).
  destruct (@entries_are_per_package_and_version Example.registry "react" "0.0.1"
              "lodash" "1.3.0" Example.start 10) as (Hversions & _).
  split; [vm_compute; reflexivity|]. split.
  - apply Hconfig; [apply Hjoin; discriminate | reflexivity].
  - apply Hversions; [discriminate | reflexivity].
Defined.
